(** * OmniRetrieve: hybrid retrieval orchestrator and graph traversal engine

    A shallow embedding of the Go packages [retrieve], [hybrid], [graph] and
    [memory] of agentplexus/omniretrieve, and the properties of score fusion,
    deduplication, top-K truncation, breadth-first traversal and path scoring
    that their specification states.

    Conventions of the embedding:
    - [float64] is Rocq's primitive [float] (IEEE 754 binary64), with the
      operations [*], [+], [<?], [=?] of [PrimFloat];
    - [int] is [Z]; [len] of a slice is [Z.of_nat (length _)]; the sums of
      candidate counts, whose operands the retrievers choose, wrap around
      at 64 bits ([addInt]);
    - [map[string]T] is [gmap string T]; the order in which a Go [range]
      enumerates a map is not specified, so every such loop takes a
      [MapRange], an arbitrary permutation of the entries;
    - a slice is a [list]; [nil] and the empty slice are both [[]];
    - a Go function returning a pointer and an [error] returns a pair
      [option T * option error], [None] standing for [nil];
    - collaborators behind interfaces ([retrieve.Retriever],
      [retrieve.Reranker], [graph.KnowledgeGraph]) are functions or records
      of functions; [sort.Slice] is any function that meets its documented
      contract;
    - the [context.Context] arguments, the mutex of the in-memory graph and
      the channels of the parallel policy carry no data of their own and are
      left out; the two goroutines run in either order;
    - readings of the clock are values of the [Runtime]. *)

From Stdlib Require Import ZArith Floats.
From stdpp Require Import gmap strings list fin_maps sorting.

Set Warnings "-inexact-float,-clear-no-such-hyp".
Set Default Proof Using "Type".

Open Scope Z_scope.

(** ** Comparison of binary64 values

    Go compares [float64] with the IEEE 754 predicates: every comparison with
    a NaN is false. The facts below are derived from the specification of the
    primitive comparisons in terms of [SFcompare]. *)

Module F64.

Definition is_nan (x : float) : bool := negb (x =? x)%float.

Ltac sf_cases :=
  repeat match goal with
  | s : bool |- _ => destruct s
  end; simpl in *; try done.

Ltac cmp_cases :=
  change (Pos.compare_cont Eq) with Pos.compare in *;
  repeat match goal with
  | |- context [Z.compare ?a ?b] => destruct (Z.compare_spec a b)
  | H : context [Z.compare ?a ?b] |- _ => destruct (Z.compare_spec a b)
  | |- context [Pos.compare ?a ?b] => destruct (Pos.compare_spec a b)
  | H : context [Pos.compare ?a ?b] |- _ => destruct (Pos.compare_spec a b)
  end; simpl in *; try done; try lia.

Ltac sf_order x y z :=
  unfold SFltb, SFleb, SFeqb, SFcompare in *;
  destruct x as [?|?| |? ? ?], y as [?|?| |? ? ?], z as [?|?| |? ? ?];
  sf_cases; cmp_cases.

Ltac sf_order2 x y :=
  unfold SFltb, SFleb, SFeqb, SFcompare in *;
  destruct x as [?|?| |? ? ?], y as [?|?| |? ? ?];
  sf_cases; cmp_cases.

Lemma SFltb_trans x y z :
  SFltb x y = true → SFltb y z = true → SFltb x z = true.
Proof. sf_order x y z. Qed.

Lemma SFltb_eqb_r x y z :
  SFltb x y = true → SFeqb y z = true → SFltb x z = true.
Proof. sf_order x y z. Qed.

Lemma SFltb_eqb_l x y z :
  SFltb x y = true → SFeqb z y = true → SFltb x z = true.
Proof. sf_order x y z. Qed.

Lemma SFltb_cotrans x y z :
  SFeqb y y = true → SFltb x z = true →
  SFltb x y = true ∨ SFltb y z = true.
Proof. sf_order x y z; auto. Qed.

Lemma SFltb_not_eqb x y : SFltb x y = true → SFeqb x y = false.
Proof. sf_order2 x y. Qed.

Lemma SFltb_irrefl x : SFltb x x = false.
Proof.
  unfold SFltb, SFcompare. destruct x as [?|?| |? ? ?]; sf_cases;
    rewrite Z.compare_refl; change (Pos.compare_cont Eq) with Pos.compare;
    by rewrite Pos.compare_refl.
Qed.

Lemma SFltb_total x y :
  SFeqb x x = true → SFeqb y y = true →
  SFltb x y = false → SFleb y x = true.
Proof. sf_order2 x y. Qed.

Lemma SFleb_not_ltb x y : SFleb y x = true → SFltb x y = false.
Proof. sf_order2 x y. Qed.

Lemma ltb_trans (x y z : float) :
  (x <? y)%float = true → (y <? z)%float = true → (x <? z)%float = true.
Proof. rewrite !FloatAxioms.ltb_spec. apply SFltb_trans. Qed.

Lemma ltb_eqb_r (x y z : float) :
  (x <? y)%float = true → (y =? z)%float = true → (x <? z)%float = true.
Proof. rewrite !FloatAxioms.ltb_spec, FloatAxioms.eqb_spec. apply SFltb_eqb_r. Qed.

Lemma ltb_eqb_l (x y z : float) :
  (x <? y)%float = true → (z =? y)%float = true → (x <? z)%float = true.
Proof. rewrite !FloatAxioms.ltb_spec, FloatAxioms.eqb_spec. apply SFltb_eqb_l. Qed.

Lemma ltb_not_eqb (x y : float) :
  (x <? y)%float = true → (x =? y)%float = false.
Proof. rewrite FloatAxioms.ltb_spec, FloatAxioms.eqb_spec. apply SFltb_not_eqb. Qed.

Lemma ltb_irrefl (x : float) : (x <? x)%float = false.
Proof. rewrite FloatAxioms.ltb_spec. apply SFltb_irrefl. Qed.

Lemma ltb_cotrans (x y z : float) :
  is_nan y = false → (x <? z)%float = true →
  (x <? y)%float = true ∨ (y <? z)%float = true.
Proof.
  unfold is_nan. rewrite negb_false_iff, !FloatAxioms.ltb_spec, FloatAxioms.eqb_spec.
  apply SFltb_cotrans.
Qed.

Lemma ltb_total (x y : float) :
  is_nan x = false → is_nan y = false →
  (x <? y)%float = false → (y <=? x)%float = true.
Proof.
  unfold is_nan. rewrite !negb_false_iff, FloatAxioms.ltb_spec, FloatAxioms.leb_spec, !FloatAxioms.eqb_spec.
  apply SFltb_total.
Qed.

Lemma leb_not_ltb (x y : float) :
  (y <=? x)%float = true → (x <? y)%float = false.
Proof. rewrite FloatAxioms.ltb_spec, FloatAxioms.leb_spec. apply SFleb_not_ltb. Qed.

End F64.

(** ** Package [retrieve]: queries, context items and results *)

Module retrieve.

(** [type Mode string] with its three constants. *)
Definition Mode := string.
Definition ModeVector : Mode := "vector".
Definition ModeGraph : Mode := "graph".
Definition ModeHybrid : Mode := "hybrid".

(** Go's [error] interface: only identity and nil-ness matter here. *)
Definition error := string.

Module EntityHint.
Record t := mk {
  ID : string;
  Type_ : string;
  Name : string;
  Confidence : float
}.
End EntityHint.

Module Query.
(** [Embedding] holds [float32] values and [Metadata] values of type
    [any]; this code only carries them, so they are embedded as [float]
    and [string]. *)
Record t := mk {
  Text : string;
  Embedding : list float;
  Entities : list EntityHint.t;
  Filters : gmap string string;
  MaxDepth : Z;
  TopK : Z;
  Modes : list Mode;
  MinScore : float;
  Metadata : gmap string string
}.

(** [graphQuery := q; graphQuery.Entities = entities] *)
Definition withEntities (q : t) (es : list EntityHint.t) : t :=
  mk (Text q) (Embedding q) es (Filters q) (MaxDepth q) (TopK q)
     (Modes q) (MinScore q) (Metadata q).
End Query.

Module Provenance.
Record t := mk {
  Mode : retrieve.Mode;
  Backend : string;
  GraphPath : list string;
  SimilarityScore : float;
  RerankerScore : float
}.

Definition withMode (p : t) (m : retrieve.Mode) : t :=
  mk m (Backend p) (GraphPath p) (SimilarityScore p) (RerankerScore p).
Definition withGraphPath (p : t) (gp : list string) : t :=
  mk (Mode p) (Backend p) gp (SimilarityScore p) (RerankerScore p).
End Provenance.

Module ContextItem.
Record t := mk {
  ID : string;
  Content : string;
  Source : string;
  Score : float;
  Metadata : gmap string string;
  Provenance : Provenance.t
}.

Definition withScore (c : t) (s : float) : t :=
  mk (ID c) (Content c) (Source c) s (Metadata c) (Provenance c).
Definition withProvenance (c : t) (p : Provenance.t) : t :=
  mk (ID c) (Content c) (Source c) (Score c) (Metadata c) p.
End ContextItem.

Module ResultMetadata.
Record t := mk {
  TotalCandidates : Z;
  LatencyMS : Z;
  ModesUsed : list Mode;
  CacheHit : bool
}.
End ResultMetadata.

Module Result.
Record t := mk {
  Items : list ContextItem.t;
  Query : Query.t;
  Metadata : ResultMetadata.t
}.
End Result.

(** [Retriever] interface: [Retrieve(ctx, q)] returns a [Result] pointer
    and an [error]; a retriever either fails with an error or returns a
    result. *)
Inductive Outcome :=
| Ok (res : Result.t)
| Fail (err : error).

Definition Retriever := Query.t → Outcome.

(** [Reranker] interface: [Rerank(ctx, q, items) ([]ContextItem, error)]. *)
Definition Reranker :=
  Query.t → list ContextItem.t → list ContextItem.t * option error.

End retrieve.

(** The order in which [for k, v := range m] enumerates a Go map. *)
Record MapRange := {
  range : ∀ {V : Type}, list (string * V) → list (string * V);
  range_perm : ∀ (V : Type) (l : list (string * V)), range l ≡ₚ l
}.

(** [sort.Slice(x, less)]: the standard library documents that it sorts [x]
    by [less], not necessarily stably, and that [less] has to be a strict
    weak ordering of the elements. The result is always a rearrangement of
    the slice, and is ordered when [less] is such an ordering. *)
Definition StrictWeakOn {A} (less : A → A → bool) (l : list A) : Prop :=
  (∀ a, a ∈ l → less a a = false) ∧
  (∀ a b c, a ∈ l → b ∈ l → c ∈ l →
     less a b = true → less b c = true → less a c = true) ∧
  (∀ a b c, a ∈ l → b ∈ l → c ∈ l →
     less a c = true → less a b = true ∨ less b c = true).

Lemma StrictWeakOn_mono {A} (less : A → A → bool) (l1 l2 : list A) :
  (∀ a, a ∈ l1 → a ∈ l2) → StrictWeakOn less l2 → StrictWeakOn less l1.
Proof.
  intros Hsub (Hirr & Htr & Hco). split_and!.
  - intros a Ha. apply Hirr; auto.
  - intros a b c Ha Hb Hc. apply Htr; auto.
  - intros a b c Ha Hb Hc. apply Hco; auto.
Qed.

Record SliceSorter := {
  sortSlice : ∀ {A : Type}, (A → A → bool) → list A → list A;
  sortSlice_perm : ∀ (A : Type) (less : A → A → bool) (l : list A),
    sortSlice less l ≡ₚ l;
  sortSlice_sorted : ∀ (A : Type) (less : A → A → bool) (l : list A),
    StrictWeakOn less l →
    StronglySorted (λ a b, less b a = false) (sortSlice less l)
}.

(** ** Calls to collaborators

    The orchestrators decide which collaborator is called, with which
    arguments and in which order. A run carries the list of calls it made. A
    run can also stop with a run-time panic (an index out of range). *)

Inductive Call :=
| CallVector (q : retrieve.Query.t)
| CallGraph (q : retrieve.Query.t)
| CallRerank (q : retrieve.Query.t) (items : list retrieve.ContextItem.t)
| CallOnRerank (model : string) (inputCount outputCount latencyMS : Z)
| CallOnGraphTraverse (backend : string) (depth nodeCount latencyMS : Z).

(** [None] is a panic; the list holds the calls made so far. *)
Definition Run (A : Type) : Type := option A * list Call.

Definition ret {A} (a : A) : Run A := (Some a, []).
Definition panic {A} : Run A := (None, []).
Definition call {A} (c : Call) (a : A) : Run A := (Some a, [c]).
Definition bind {A B} (m : Run A) (k : A → Run B) : Run B :=
  match m with
  | (Some a, t) => let '(b, t') := k a in (b, t ++ t')
  | (None, t) => (None, t)
  end.
Definition value {A} (m : Run A) : option A := m.1.
Definition calls {A} (m : Run A) : list Call := m.2.

Notation "'do' x <- m ; k" := (bind m (λ x, k))
  (at level 10, x pattern, m at level 100, k at level 200,
   format "'[v' 'do'  x  <-  m ; '/' k ']'").

(** What the Go runtime decides during one call: the enumeration order of
    maps, the sorting algorithm, which of the two goroutines of the parallel
    policy reaches its retriever first, and the elapsed times read from the
    clock. *)
Record Runtime := {
  rt_range : MapRange;
  rt_sort : SliceSorter;
  rt_vectorFirst : bool;
  rt_elapsedMS : Z;
  rt_rerankElapsedMS : Z
}.

(** [a + b] on [int], 64 bits wide as on every 64-bit platform: the sum
    wraps around. *)
Definition addInt (a b : Z) : Z := (a + b + 2 ^ 63) mod 2 ^ 64 - 2 ^ 63.

(** ** Package [hybrid] *)

Module hybrid.
Import retrieve.
Abbreviation ContextItem := ContextItem.t.

(** [type Policy string] with its three constants. *)
Definition Policy := string.
Definition PolicyParallel : Policy := "parallel".
Definition PolicyVectorThenGraph : Policy := "vector_then_graph".
Definition PolicyGraphThenVector : Policy := "graph_then_vector".

Module Weights.
Record t := mk { Vector : float; Graph : float }.
End Weights.

Definition DefaultWeights : Weights.t := Weights.mk 0.6 0.4.

Module RetrieverConfig.
(** A nil interface value is [None]. The observer only receives
    notifications, so its presence is all that is recorded. *)
Record t := mk {
  Vector : option retrieve.Retriever;
  Graph : option retrieve.Retriever;
  Policy : hybrid.Policy;
  Weights : Weights.t;
  Reranker : option retrieve.Reranker;
  DedupByID : bool;
  Observer : bool
}.
End RetrieverConfig.

Record Retriever := { config : RetrieverConfig.t }.

Definition NewRetriever (cfg : RetrieverConfig.t) : Retriever :=
  let policy :=
    if String.eqb (RetrieverConfig.Policy cfg) "" then PolicyParallel
    else RetrieverConfig.Policy cfg in
  let w := RetrieverConfig.Weights cfg in
  let weights :=
    if (Weights.Vector w =? 0)%float && (Weights.Graph w =? 0)%float
    then DefaultWeights else w in
  {| config :=
       RetrieverConfig.mk (RetrieverConfig.Vector cfg)
         (RetrieverConfig.Graph cfg) policy weights
         (RetrieverConfig.Reranker cfg) (RetrieverConfig.DedupByID cfg)
         (RetrieverConfig.Observer cfg) |}.

(** *** [mergeResults] *)

(** One iteration of the loop over [vectorItems]. *)
Definition mergeVectorItem (w : Weights.t)
    (merged : gmap string ContextItem) (item : ContextItem)
    : gmap string ContextItem :=
  let weightedScore := (ContextItem.Score item * Weights.Vector w)%float in
  match merged !! ContextItem.ID item with
  | Some existing =>
      <[ContextItem.ID item :=
          ContextItem.withScore existing
            (ContextItem.Score existing + weightedScore)%float]> merged
  | None =>
      <[ContextItem.ID item := ContextItem.withScore item weightedScore]>
        merged
  end.

(** One iteration of the loop over [graphItems]. *)
Definition mergeGraphItem (w : Weights.t)
    (merged : gmap string ContextItem) (item : ContextItem)
    : gmap string ContextItem :=
  let weightedScore := (ContextItem.Score item * Weights.Graph w)%float in
  match merged !! ContextItem.ID item with
  | Some existing =>
      let existing :=
        ContextItem.withScore existing
          (ContextItem.Score existing + weightedScore)%float in
      let path := Provenance.GraphPath (ContextItem.Provenance item) in
      let existing :=
        if 0 <? Z.of_nat (length path)
        then ContextItem.withProvenance existing
               (Provenance.withGraphPath (ContextItem.Provenance existing)
                  path)
        else existing in
      <[ContextItem.ID item := existing]> merged
  | None =>
      <[ContextItem.ID item := ContextItem.withScore item weightedScore]>
        merged
  end.

(** The map [merged] after both loops. *)
Definition mergedMap (w : Weights.t) (vectorItems graphItems : list ContextItem)
    : gmap string ContextItem :=
  foldl (mergeGraphItem w) (foldl (mergeVectorItem w) ∅ vectorItems)
    graphItems.

(** The body of the last loop: set the mode, append the item. *)
Definition markHybrid (item : ContextItem) : ContextItem :=
  ContextItem.withProvenance item
    (Provenance.withMode (ContextItem.Provenance item) ModeHybrid).

Definition mergeResults (rt : Runtime) (r : Retriever)
    (vectorItems graphItems : list ContextItem) : list ContextItem :=
  let merged :=
    mergedMap (RetrieverConfig.Weights (config r)) vectorItems graphItems in
  (λ kv, markHybrid kv.2) <$> range (rt_range rt) (map_to_list merged).

(** *** [deduplicate] *)

(** One iteration; [None] is the panic of [result[idx]] out of range. *)
Definition dedupStep (st : gmap string nat * list ContextItem)
    (item : ContextItem) : option (gmap string nat * list ContextItem) :=
  let '(seen, result) := st in
  match seen !! ContextItem.ID item with
  | Some idx =>
      match result !! idx with
      | Some kept =>
          if (ContextItem.Score kept <? ContextItem.Score item)%float
          then Some (seen, <[idx := item]> result)
          else Some (seen, result)
      | None => None
      end
  | None =>
      Some (<[ContextItem.ID item := length result]> seen, result ++ [item])
  end.

Fixpoint dedupLoop (st : gmap string nat * list ContextItem)
    (items : list ContextItem)
    : option (gmap string nat * list ContextItem) :=
  match items with
  | [] => Some st
  | item :: rest =>
      match dedupStep st item with
      | Some st' => dedupLoop st' rest
      | None => None
      end
  end.

Definition deduplicate (items : list ContextItem)
    : option (list ContextItem) :=
  snd <$> dedupLoop (∅, []) items.

(** *** The three policies *)

(** The local [result] struct of [retrieveParallel]. *)
Record branchResult := {
  br_items : list ContextItem;
  br_count : Z;
  br_err : option error
}.

(** The first goroutine. *)
Definition vectorBranch (r : Retriever) (q : Query.t) : Run branchResult :=
  match RetrieverConfig.Vector (config r) with
  | None => ret {| br_items := []; br_count := 0; br_err := None |}
  | Some v =>
      do out <- call (CallVector q) (v q);
      match out with
      | Fail err => ret {| br_items := []; br_count := 0; br_err := Some err |}
      | Ok res =>
          ret {| br_items := Result.Items res;
                 br_count :=
                   ResultMetadata.TotalCandidates (Result.Metadata res);
                 br_err := None |}
      end
  end.

(** The second goroutine. *)
Definition graphBranch (r : Retriever) (q : Query.t) : Run branchResult :=
  match RetrieverConfig.Graph (config r) with
  | None => ret {| br_items := []; br_count := 0; br_err := None |}
  | Some g =>
      do out <- call (CallGraph q) (g q);
      match out with
      | Fail err => ret {| br_items := []; br_count := 0; br_err := Some err |}
      | Ok res =>
          ret {| br_items := Result.Items res;
                 br_count :=
                   ResultMetadata.TotalCandidates (Result.Metadata res);
                 br_err := None |}
      end
  end.

(** Both goroutines run to completion, in either order; the two channel
    receives then deliver the vector result and the graph result. *)
Definition bothBranches (rt : Runtime) (r : Retriever) (q : Query.t)
    : Run (branchResult * branchResult) :=
  if rt_vectorFirst rt then
    do vectorRes <- vectorBranch r q;
    do graphRes <- graphBranch r q;
    ret (vectorRes, graphRes)
  else
    do graphRes <- graphBranch r q;
    do vectorRes <- vectorBranch r q;
    ret (vectorRes, graphRes).

Definition appendIf {A} (b : bool) (l : list A) (x : A) : list A :=
  if b then l ++ [x] else l.

Definition retrieveParallel (rt : Runtime) (r : Retriever) (q : Query.t)
    : Run (list ContextItem * list Mode * Z * option error) :=
  do (vectorRes, graphRes) <- bothBranches rt r q;
  match br_err vectorRes with
  | Some err => ret ([], [], 0, Some err)
  | None =>
      match br_err graphRes with
      | Some err => ret ([], [], 0, Some err)
      | None =>
          let items :=
            mergeResults rt r (br_items vectorRes) (br_items graphRes) in
          let modesUsed := [ModeHybrid] in
          let modesUsed :=
            appendIf (0 <? Z.of_nat (length (br_items vectorRes)))
              modesUsed ModeVector in
          let modesUsed :=
            appendIf (0 <? Z.of_nat (length (br_items graphRes)))
              modesUsed ModeGraph in
          ret (items, modesUsed,
               addInt (br_count vectorRes) (br_count graphRes), None)
      end
  end.

(** [EntityHint{ID: item.ID, Name: item.ID}]: the other fields are zero. *)
Definition hintOf (item : ContextItem) : EntityHint.t :=
  EntityHint.mk (ContextItem.ID item) "" (ContextItem.ID item) 0%float.

Definition retrieveVectorThenGraph (rt : Runtime) (r : Retriever)
    (q : Query.t)
    : Run (list ContextItem * list Mode * Z * option error) :=
  let modesUsed := [ModeHybrid] in
  let totalCandidates := 0 in
  do first <-
    match RetrieverConfig.Vector (config r) with
    | Some v =>
        do out <- call (CallVector q) (v q);
        match out with
        | Fail err => ret (inl err)
        | Ok res =>
            ret (inr (Result.Items res,
                      addInt totalCandidates
                        (ResultMetadata.TotalCandidates (Result.Metadata res)),
                      modesUsed ++ [ModeVector]))
        end
    | None => ret (inr ([], totalCandidates, modesUsed))
    end;
  match first with
  | inl err => ret ([], [], 0, Some err)
  | inr (vectorItems, totalCandidates, modesUsed) =>
      do second <-
        match RetrieverConfig.Graph (config r) with
        | Some g =>
            if 0 <? Z.of_nat (length vectorItems) then
              let entities := hintOf <$> vectorItems in
              let graphQuery := Query.withEntities q entities in
              do out <- call (CallGraph graphQuery) (g graphQuery);
              match out with
              | Fail err => ret (inl err)
              | Ok res =>
                  ret (inr (Result.Items res,
                            addInt totalCandidates
                              (ResultMetadata.TotalCandidates
                                 (Result.Metadata res)),
                            modesUsed ++ [ModeGraph]))
              end
            else ret (inr ([], totalCandidates, modesUsed))
        | None => ret (inr ([], totalCandidates, modesUsed))
        end;
      match second with
      | inl err => ret ([], [], 0, Some err)
      | inr (graphItems, totalCandidates, modesUsed) =>
          let items := mergeResults rt r vectorItems graphItems in
          ret (items, modesUsed, totalCandidates, None)
      end
  end.

Definition retrieveGraphThenVector (rt : Runtime) (r : Retriever)
    (q : Query.t)
    : Run (list ContextItem * list Mode * Z * option error) :=
  let modesUsed := [ModeHybrid] in
  let totalCandidates := 0 in
  do first <-
    match RetrieverConfig.Graph (config r) with
    | Some g =>
        do out <- call (CallGraph q) (g q);
        match out with
        | Fail err => ret (inl err)
        | Ok res =>
            ret (inr (Result.Items res,
                      addInt totalCandidates
                        (ResultMetadata.TotalCandidates (Result.Metadata res)),
                      modesUsed ++ [ModeGraph]))
        end
    | None => ret (inr ([], totalCandidates, modesUsed))
    end;
  match first with
  | inl err => ret ([], [], 0, Some err)
  | inr (graphItems, totalCandidates, modesUsed) =>
      do second <-
        match RetrieverConfig.Vector (config r) with
        | Some v =>
            do out <- call (CallVector q) (v q);
            match out with
            | Fail err => ret (inl err)
            | Ok res =>
                ret (inr (Result.Items res,
                          addInt totalCandidates
                            (ResultMetadata.TotalCandidates
                               (Result.Metadata res)),
                          modesUsed ++ [ModeVector]))
            end
        | None => ret (inr ([], totalCandidates, modesUsed))
        end;
      match second with
      | inl err => ret ([], [], 0, Some err)
      | inr (vectorItems, totalCandidates, modesUsed) =>
          let items := mergeResults rt r vectorItems graphItems in
          ret (items, modesUsed, totalCandidates, None)
      end
  end.

(** *** [Retrieve] *)

(** The [switch] on the policy; an unknown policy runs the parallel one. *)
Definition dispatch (rt : Runtime) (r : Retriever) (q : Query.t)
    : Run (list ContextItem * list Mode * Z * option error) :=
  let policy := RetrieverConfig.Policy (config r) in
  if String.eqb policy PolicyParallel then retrieveParallel rt r q
  else if String.eqb policy PolicyVectorThenGraph
  then retrieveVectorThenGraph rt r q
  else if String.eqb policy PolicyGraphThenVector
  then retrieveGraphThenVector rt r q
  else retrieveParallel rt r q.

(** [func(i, j int) bool { return items[i].Score > items[j].Score }] *)
Definition byScoreDesc (a b : ContextItem) : bool :=
  (ContextItem.Score b <? ContextItem.Score a)%float.

(** The optional deduplication. *)
Definition dedupStage (r : Retriever) (items : list ContextItem)
    : Run (list ContextItem) :=
  if RetrieverConfig.DedupByID (config r) then
    match deduplicate items with
    | Some items => ret items
    | None => panic
    end
  else ret items.

(** [if q.TopK > 0 && len(items) > q.TopK { items = items[:q.TopK] }] *)
Definition topK (q : Query.t) (items : list ContextItem)
    : list ContextItem :=
  if (0 <? Query.TopK q) && (Query.TopK q <? Z.of_nat (length items))
  then take (Z.to_nat (Query.TopK q)) items
  else items.

Definition Retrieve (rt : Runtime) (r : Retriever) (q : Query.t)
    : Run (option Result.t * option error) :=
  do (items, modesUsed, totalCandidates, err) <- dispatch rt r q;
  match err with
  | Some err => ret (None, Some err)
  | None =>
      do items <- dedupStage r items;
      let items := sortSlice (rt_sort rt) byScoreDesc items in
      let items := topK q items in
      do reranked <-
        match RetrieverConfig.Reranker (config r) with
        | Some rr =>
            do (items, err) <- call (CallRerank q items) (rr q items);
            match err with
            | Some err => ret (inl err)
            | None =>
                do _ <-
                  (if RetrieverConfig.Observer (config r)
                   then call (CallOnRerank "hybrid"
                                (Z.of_nat (length items))
                                (Z.of_nat (length items))
                                (rt_rerankElapsedMS rt)) tt
                   else ret tt);
                ret (inr items)
            end
        | None => ret (inr items)
        end;
      match reranked with
      | inl err => ret (None, Some err)
      | inr items =>
          ret (Some (Result.mk items q
                       (ResultMetadata.mk totalCandidates (rt_elapsedMS rt)
                          modesUsed false)),
               None)
      end
  end.
End hybrid.

(** ** Package [graph]: the knowledge-graph interface and its retriever *)

Module graph.
Import retrieve.

Module Node.
Record t := mk {
  ID : string;
  Type_ : string;
  Content : string;
  Source : string;
  Metadata : gmap string string
}.
End Node.

Module Edge.
Record t := mk {
  From : string;
  To : string;
  Type_ : string;
  Weight : float;
  Metadata : gmap string string
}.
End Edge.

Module TraversalResult.
Record t := mk {
  Nodes : list Node.t;
  Edges : list Edge.t;
  Paths : gmap string (list string)
}.
End TraversalResult.

Module TraversalOptions.
Record t := mk {
  Depth : Z;
  EdgeTypes : list string;
  NodeTypes : list string;
  MaxNodes : Z;
  MinWeight : float
}.
End TraversalOptions.

(** The methods of the [KnowledgeGraph] interface that the retriever
    calls. *)
Module KnowledgeGraph.
Record t := mk {
  Traverse : list string → TraversalOptions.t →
             option TraversalResult.t * option error;
  FindNodes : string → gmap string string →
              list Node.t * option error;
  Name : string
}.
End KnowledgeGraph.

Module RetrieverConfig.
Record t := mk {
  Graph : KnowledgeGraph.t;
  DefaultDepth : Z;
  DefaultMaxNodes : Z;
  EdgeTypes : list string;
  Observer : bool
}.
End RetrieverConfig.

Record Retriever := { config : RetrieverConfig.t }.

Definition NewRetriever (cfg : RetrieverConfig.t) : Retriever :=
  let depth :=
    if RetrieverConfig.DefaultDepth cfg =? 0 then 2
    else RetrieverConfig.DefaultDepth cfg in
  let maxNodes :=
    if RetrieverConfig.DefaultMaxNodes cfg =? 0 then 20
    else RetrieverConfig.DefaultMaxNodes cfg in
  {| config :=
       RetrieverConfig.mk (RetrieverConfig.Graph cfg) depth maxNodes
         (RetrieverConfig.EdgeTypes cfg) (RetrieverConfig.Observer cfg) |}.

(** *** [computePathScore] *)

(** [e.From + "->" + e.To] *)
Definition edgeKey (from to : string) : string :=
  from +:+ "->" +:+ to.

(** The lookup table [edgeWeights]: a later edge overwrites an earlier one
    with the same key. *)
Definition edgeWeights (edges : list Edge.t) : gmap string float :=
  foldl (λ m e, <[edgeKey (Edge.From e) (Edge.To e) := Edge.Weight e]> m)
    ∅ edges.

Definition decayFactor : float := 0.8.

(** The weight used for the hop from [a] to [b]: a missing key reads as the
    zero value, and zero is replaced by the default weight. *)
Definition hopWeight (edgeWeights : gmap string float) (a b : string)
    : float :=
  let weight := default 0%float (edgeWeights !! edgeKey a b) in
  if (weight =? 0)%float then 0.5%float else weight.

(** [for i := 0; i < len(path)-1; i++ { ... score *= weight * decayFactor }] *)
Fixpoint scoreLoop (edgeWeights : gmap string float) (score : float)
    (path : list string) : float :=
  match path with
  | a :: rest =>
      match rest with
      | b :: _ =>
          scoreLoop edgeWeights
            (score * (hopWeight edgeWeights a b * decayFactor))%float rest
      | [] => score
      end
  | [] => score
  end.

Definition computePathScore (path : list string) (edges : list Edge.t)
    : float :=
  if Z.of_nat (length path) =? 0 then 1%float
  else scoreLoop (edgeWeights edges) 1%float path.

(** *** [Retrieve] *)

(** The start nodes taken from the entity hints. *)
Definition hintedStartNodes (q : Query.t) : list string :=
  EntityHint.ID <$>
    filter (λ e, EntityHint.ID e ≠ "") (Query.Entities q).

(** The loop turning the traversed nodes into context items. *)
Definition itemsOf (r : Retriever) (q : Query.t)
    (result : TraversalResult.t) : list ContextItem.t :=
  omap (λ node,
    let path :=
      default [] (TraversalResult.Paths result !! Node.ID node) in
    let score := computePathScore path (TraversalResult.Edges result) in
    if (score <? Query.MinScore q)%float && (0 <? Query.MinScore q)%float
    then None
    else Some (ContextItem.mk (Node.ID node) (Node.Content node)
                 (Node.Source node) score (Node.Metadata node)
                 (Provenance.mk ModeGraph
                    (KnowledgeGraph.Name (RetrieverConfig.Graph (config r)))
                    path 0%float 0%float)))
    (TraversalResult.Nodes result).

Definition Retrieve (rt : Runtime) (r : Retriever) (q : Query.t)
    : Run (option Result.t * option error) :=
  let kg := RetrieverConfig.Graph (config r) in
  let startNodes := hintedStartNodes q in
  let found :=
    if Z.of_nat (length startNodes) =? 0 then
      let '(nodes, err) := KnowledgeGraph.FindNodes kg "" (Query.Filters q) in
      match err with
      | Some err => inl err
      | None => inr (startNodes ++ (Node.ID <$> nodes))
      end
    else inr startNodes in
  match found with
  | inl err => ret (None, Some err)
  | inr startNodes =>
      if Z.of_nat (length startNodes) =? 0 then
        ret (Some (Result.mk [] q (ResultMetadata.mk 0 0 [ModeGraph] false)),
             None)
      else
        let depth :=
          if Query.MaxDepth q =? 0
          then RetrieverConfig.DefaultDepth (config r)
          else Query.MaxDepth q in
        let maxNodes :=
          if Query.TopK q =? 0
          then RetrieverConfig.DefaultMaxNodes (config r)
          else Query.TopK q in
        let opts :=
          TraversalOptions.mk depth (RetrieverConfig.EdgeTypes (config r))
            [] maxNodes (Query.MinScore q) in
        match KnowledgeGraph.Traverse kg startNodes opts with
        | (_, Some err) => ret (None, Some err)
        | (None, None) => panic
        | (Some result, None) =>
            let items := itemsOf r q result in
            let latency := rt_elapsedMS rt in
            do _ <-
              (if RetrieverConfig.Observer (config r)
               then call (CallOnGraphTraverse (KnowledgeGraph.Name kg) depth
                            (Z.of_nat (length items)) latency) tt
               else ret tt);
            ret (Some (Result.mk items q
                         (ResultMetadata.mk
                            (Z.of_nat
                               (length (TraversalResult.Nodes result)))
                            latency [ModeGraph] false)),
                 None)
        end
  end.
End graph.

(** ** Package [memory]: the in-memory knowledge graph *)

Module memory.
Import graph.

(** The read-write mutex only serialises access and is left out. *)
Record KnowledgeGraph := {
  name : string;
  nodes : gmap string Node.t;
  edges : gmap string (list Edge.t)
}.

Definition NewKnowledgeGraph (name : string) : KnowledgeGraph :=
  {| name := name; nodes := ∅; edges := ∅ |}.

Definition AddNode (kg : KnowledgeGraph) (node : Node.t) : KnowledgeGraph :=
  {| name := name kg;
     nodes := <[Node.ID node := node]> (nodes kg);
     edges := edges kg |}.

Definition AddEdge (kg : KnowledgeGraph) (edge : Edge.t) : KnowledgeGraph :=
  {| name := name kg;
     nodes := nodes kg;
     edges :=
       <[Edge.From edge :=
           default [] (edges kg !! Edge.From edge) ++ [edge]]> (edges kg) |}.

Definition UpsertEdge (kg : KnowledgeGraph) (edge : Edge.t)
    : KnowledgeGraph :=
  let filtered :=
    filter (λ e, Edge.To e ≠ Edge.To edge ∨ Edge.Type_ e ≠ Edge.Type_ edge)
      (default [] (edges kg !! Edge.From edge)) in
  {| name := name kg;
     nodes := nodes kg;
     edges := <[Edge.From edge := filtered ++ [edge]]> (edges kg) |}.

Definition DeleteEdge (kg : KnowledgeGraph) (from to edgeType : string)
    : KnowledgeGraph :=
  let filtered :=
    filter (λ e, Edge.To e ≠ to ∨ Edge.Type_ e ≠ edgeType)
      (default [] (edges kg !! from)) in
  {| name := name kg;
     nodes := nodes kg;
     edges := <[from := filtered]> (edges kg) |}.

Definition DeleteNode (kg : KnowledgeGraph) (id : string) : KnowledgeGraph :=
  {| name := name kg;
     nodes := delete id (nodes kg);
     edges := filter (λ e, Edge.To e ≠ id) <$> delete id (edges kg) |}.

Definition Name (kg : KnowledgeGraph) : string := name kg.

Definition NodeCount (kg : KnowledgeGraph) : Z :=
  Z.of_nat (size (nodes kg)).

(** [for _, edges := range kg.edges { count += len(edges) }]: a sum, the
    same in every enumeration order. *)
Definition EdgeCount (kg : KnowledgeGraph) : nat :=
  sum_list_with (λ kv, length kv.2) (map_to_list (edges kg)).

Fixpoint containsString (slice : list string) (s : string) : bool :=
  match slice with
  | [] => false
  | item :: rest => if String.eqb item s then true else containsString rest s
  end.

(** [metadata[k] != v] reads a missing key as the empty string. *)
Definition matchesFilters (metadata filters : gmap string string) : bool :=
  bool_decide (map_Forall (λ k v, default "" (metadata !! k) = v) filters).

Definition FindNodes (rt : Runtime) (kg : KnowledgeGraph)
    (nodeType : string) (filters : gmap string string)
    : list Node.t * option retrieve.error :=
  (filter (λ node,
     (nodeType = "" ∨ Node.Type_ node = nodeType) ∧
     matchesFilters (Node.Metadata node) filters = true)
     (snd <$> range (rt_range rt) (map_to_list (nodes kg))),
   None).

(** *** [Traverse] *)

Record queueItem := {
  nodeID : string;
  path : list string;
  depth : Z
}.

(** The local variables of [Traverse]. [visited] only ever maps to [true],
    so it is the set of its keys. *)
Record bfsState := {
  visited : gset string;
  paths : gmap string (list string);
  resultNodes : list Node.t;
  resultEdges : list Edge.t;
  queue : list queueItem
}.

(** The body of the loop over the outward edges of the current node. *)
Definition traverseEdge (opts : TraversalOptions.t) (current : queueItem)
    (st : bfsState) (edge : Edge.t) : bfsState :=
  if (0 <? Z.of_nat (length (TraversalOptions.EdgeTypes opts))) &&
     negb (containsString (TraversalOptions.EdgeTypes opts)
             (Edge.Type_ edge))
  then st
  else if (Edge.Weight edge <? TraversalOptions.MinWeight opts)%float
  then st
  else if bool_decide (Edge.To edge ∈ visited st) then st
  else
    let newPath := path current ++ [Edge.To edge] in
    {| visited := visited st;
       paths := paths st;
       resultNodes := resultNodes st;
       resultEdges := resultEdges st ++ [edge];
       queue :=
         queue st ++
           [{| nodeID := Edge.To edge;
               path := newPath;
               depth := depth current + 1 |}] |}.

(** The body of the main loop once [current] has been taken off the queue
    ([st] holds the rest of the queue). *)
Definition visit (kg : KnowledgeGraph) (opts : TraversalOptions.t)
    (st : bfsState) (current : queueItem) : bfsState :=
  if bool_decide (nodeID current ∈ visited st) then st
  else
    let st :=
      {| visited := {[nodeID current]} ∪ visited st;
         paths := paths st;
         resultNodes := resultNodes st;
         resultEdges := resultEdges st;
         queue := queue st |} in
    let accepted :=
      match nodes kg !! nodeID current with
      | Some node =>
          if (0 <? Z.of_nat (length (TraversalOptions.NodeTypes opts))) &&
             negb (containsString (TraversalOptions.NodeTypes opts)
                     (Node.Type_ node))
          then None
          else
            Some {| visited := visited st;
                    paths := <[nodeID current := path current]> (paths st);
                    resultNodes := resultNodes st ++ [node];
                    resultEdges := resultEdges st;
                    queue := queue st |}
      | None => Some st
      end in
    match accepted with
    | None => st
    | Some st =>
        if TraversalOptions.Depth opts <=? depth current then st
        else
          foldl (traverseEdge opts current) st
            (default [] (edges kg !! nodeID current))
    end.

Definition dequeue (st : bfsState) (rest : list queueItem) : bfsState :=
  {| visited := visited st;
     paths := paths st;
     resultNodes := resultNodes st;
     resultEdges := resultEdges st;
     queue := rest |}.

(** [for len(queue) > 0 && len(resultNodes) < opts.MaxNodes { ... }], with
    a bound on the number of iterations; [None] when the bound is reached
    before the loop condition fails. *)
Fixpoint bfsLoop (kg : KnowledgeGraph) (opts : TraversalOptions.t)
    (fuel : nat) (st : bfsState) : option bfsState :=
  match queue st with
  | [] => Some st
  | current :: rest =>
      if Z.of_nat (length (resultNodes st)) <? TraversalOptions.MaxNodes opts
      then
        match fuel with
        | O => None
        | S fuel => bfsLoop kg opts fuel (visit kg opts (dequeue st rest) current)
        end
      else Some st
  end.

(** The initial queue: the start nodes present in the graph. *)
Definition seed (kg : KnowledgeGraph) (startNodes : list string)
    : list queueItem :=
  omap (λ id,
    match nodes kg !! id with
    | Some _ => Some {| nodeID := id; path := [id]; depth := 0 |}
    | None => None
    end) startNodes.

Definition initial (kg : KnowledgeGraph) (startNodes : list string)
    : bfsState :=
  {| visited := ∅; paths := ∅; resultNodes := []; resultEdges := [];
     queue := seed kg startNodes |}.

(** Every iteration either drops a queue item or visits a new node, and a
    node puts at most its outward edges on the queue: the loop runs at most
    [len(queue) + EdgeCount()] times (see [Traverse_total]). *)
Definition Traverse (kg : KnowledgeGraph) (startNodes : list string)
    (opts : TraversalOptions.t)
    : option TraversalResult.t * option retrieve.error :=
  let st := initial kg startNodes in
  match bfsLoop kg opts (length (queue st) + EdgeCount kg) st with
  | Some st =>
      (Some (TraversalResult.mk (resultNodes st) (resultEdges st)
               (paths st)),
       None)
  | None => (None, None)
  end.

(** The in-memory graph behind the [graph.KnowledgeGraph] interface. *)
Definition asKnowledgeGraph (rt : Runtime) (kg : KnowledgeGraph)
    : graph.KnowledgeGraph.t :=
  graph.KnowledgeGraph.mk (Traverse kg) (FindNodes rt kg) (Name kg).
End memory.

(** ** Concrete runtimes

    The enumeration orders and the sorting algorithm used to run the model on
    examples: maps enumerated in key order or in reverse key order, and the
    insertion sort that [sort.Slice] applies to short slices. *)

Definition rangeForward : MapRange :=
  {| range := λ V l, l; range_perm := λ V l, reflexivity l |}.

Definition rangeBackward : MapRange :=
  {| range := λ V l, reverse l; range_perm := λ V l, reverse_Permutation l |}.

Section insertion_sort.
Context {A : Type} (less : A → A → bool).

(** The inner loop: [x] moves towards the front while it is less than its
    left neighbour. The sorted prefix is held back to front. *)
Fixpoint insertBack (x : A) (prefix : list A) : list A :=
  match prefix with
  | y :: ys => if less x y then y :: insertBack x ys else x :: prefix
  | [] => [x]
  end.

Definition insertionSort (l : list A) : list A :=
  reverse (foldl (λ prefix x, insertBack x prefix) [] l).

Lemma insertBack_perm x prefix : insertBack x prefix ≡ₚ x :: prefix.
Proof.
  induction prefix as [|y ys IH]; simpl; [done|].
  destruct (less x y); [|done]. rewrite IH. apply Permutation_swap.
Qed.

Lemma insertionSort_perm l : insertionSort l ≡ₚ l.
Proof.
  unfold insertionSort. rewrite reverse_Permutation.
  assert (∀ acc, foldl (λ prefix x, insertBack x prefix) acc l ≡ₚ l ++ acc)
    as H.
  { induction l as [|x l IH]; intros acc; simpl; [done|].
    rewrite IH, insertBack_perm. by rewrite Permutation_middle. }
  rewrite H. by rewrite app_nil_r.
Qed.

Lemma insertBack_sorted x prefix :
  StrictWeakOn less (x :: prefix) →
  StronglySorted (λ a b, less a b = false) prefix →
  StronglySorted (λ a b, less a b = false) (insertBack x prefix).
Proof.
  induction prefix as [|y ys IH]; simpl; intros Hsw Hs.
  { repeat constructor. }
  apply StronglySorted_cons in Hs as [Hy Hs].
  assert (x ∈ x :: y :: ys) as Hx by left.
  assert (y ∈ x :: y :: ys) as Hy' by (right; left).
  destruct (less x y) eqn:Hxy.
  - apply StronglySorted_cons. split.
    + rewrite insertBack_perm. constructor; [|done].
      destruct (less y x) eqn:Hyx; [|done].
      destruct Hsw as (Hirr & Htr & _).
      rewrite <- (Hirr x Hx). symmetry. by apply (Htr x y x).
    + apply IH; [|done].
      eapply StrictWeakOn_mono; [|exact Hsw].
      intros a Ha. apply elem_of_cons in Ha as [->|Ha]; [done|].
      by do 2 right.
  - apply StronglySorted_cons. split; [|by apply StronglySorted_cons].
    constructor; [done|].
    rewrite Forall_forall in Hy |- *. intros z Hz.
    destruct (less x z) eqn:Hxz; [|done].
    destruct Hsw as (_ & _ & Hco).
    assert (z ∈ x :: y :: ys) as Hz' by (by do 2 right).
    destruct (Hco x y z Hx Hy' Hz' Hxz) as [H|H]; [congruence|].
    by rewrite (Hy z Hz) in H.
Qed.

Lemma StronglySorted_reverse (R : relation A) l :
  StronglySorted R l → StronglySorted (flip R) (reverse l).
Proof.
  induction 1 as [|x l Hs IH Hx]; [constructor|].
  rewrite reverse_cons. apply StronglySorted_app. split_and!.
  - intros a b Ha Hb. apply list_elem_of_singleton in Hb as ->.
    rewrite Forall_forall in Hx. apply Hx. by apply elem_of_reverse.
  - done.
  - repeat constructor.
Qed.

Lemma insertionSort_sorted l :
  StrictWeakOn less l →
  StronglySorted (λ a b, less b a = false) (insertionSort l).
Proof.
  intros Hsw. unfold insertionSort.
  apply (StronglySorted_reverse (λ a b, less a b = false)).
  assert (∀ acc, StrictWeakOn less (l ++ acc) →
            StronglySorted (λ a b, less a b = false) acc →
            StronglySorted (λ a b, less a b = false)
              (foldl (λ prefix x, insertBack x prefix) acc l)) as H.
  { clear Hsw. induction l as [|x l IH]; intros acc Hsw Hacc; simpl; [done|].
    apply IH.
    - eapply StrictWeakOn_mono; [|exact Hsw].
      intros a. rewrite elem_of_app, insertBack_perm. set_solver.
    - apply insertBack_sorted; [|done].
      eapply StrictWeakOn_mono; [|exact Hsw]. set_solver. }
  apply H; [by rewrite app_nil_r | constructor].
Qed.
End insertion_sort.

Definition insertionSorter : SliceSorter :=
  {| sortSlice := @insertionSort;
     sortSlice_perm := @insertionSort_perm;
     sortSlice_sorted := @insertionSort_sorted |}.

Definition forwardRuntime : Runtime :=
  {| rt_range := rangeForward; rt_sort := insertionSorter;
     rt_vectorFirst := true; rt_elapsedMS := 0; rt_rerankElapsedMS := 0 |}.

Definition backwardRuntime : Runtime :=
  {| rt_range := rangeBackward; rt_sort := insertionSorter;
     rt_vectorFirst := false; rt_elapsedMS := 0; rt_rerankElapsedMS := 0 |}.

(** * Properties *)

(** ** Score fusion *)

Section merge.
Import retrieve hybrid.
Context (w : Weights.t).

(** What the vector loop stores for [item] when the map holds [old]. *)
Definition vectorEntry (old : option ContextItem) (item : ContextItem)
    : ContextItem :=
  let weightedScore := (ContextItem.Score item * Weights.Vector w)%float in
  match old with
  | Some existing =>
      ContextItem.withScore existing
        (ContextItem.Score existing + weightedScore)%float
  | None => ContextItem.withScore item weightedScore
  end.

(** What the graph loop stores for [item] when the map holds [old]. *)
Definition graphEntry (old : option ContextItem) (item : ContextItem)
    : ContextItem :=
  let weightedScore := (ContextItem.Score item * Weights.Graph w)%float in
  match old with
  | Some existing =>
      let existing :=
        ContextItem.withScore existing
          (ContextItem.Score existing + weightedScore)%float in
      let path := Provenance.GraphPath (ContextItem.Provenance item) in
      if 0 <? Z.of_nat (length path)
      then ContextItem.withProvenance existing
             (Provenance.withGraphPath (ContextItem.Provenance existing) path)
      else existing
  | None => ContextItem.withScore item weightedScore
  end.

Lemma mergeVectorItem_eq m item :
  mergeVectorItem w m item =
  <[ContextItem.ID item := vectorEntry (m !! ContextItem.ID item) item]> m.
Proof. unfold mergeVectorItem, vectorEntry. by destruct (m !! _). Qed.

Lemma mergeGraphItem_eq m item :
  mergeGraphItem w m item =
  <[ContextItem.ID item := graphEntry (m !! ContextItem.ID item) item]> m.
Proof. unfold mergeGraphItem, graphEntry. by destruct (m !! _). Qed.

(** A loop that stores one entry per item, under the item's identifier. *)
Section loop.
Context (entry : option ContextItem → ContextItem → ContextItem).
Context (step : gmap string ContextItem → ContextItem →
                gmap string ContextItem).
Context (step_eq : ∀ m item,
  step m item =
  <[ContextItem.ID item := entry (m !! ContextItem.ID item) item]> m).

Lemma loop_lookup_other m l x :
  x ∉ ContextItem.ID <$> l → foldl step m l !! x = m !! x.
Proof using step_eq.
  revert m. induction l as [|item l IH]; intros m Hx; simpl; [done|].
  rewrite fmap_cons, not_elem_of_cons in Hx. destruct Hx as [Hne Hx].
  rewrite IH, step_eq by done. by rewrite lookup_insert_ne.
Qed.

Lemma loop_lookup_item m l item :
  NoDup (ContextItem.ID <$> l) → item ∈ l →
  foldl step m l !! ContextItem.ID item =
  Some (entry (m !! ContextItem.ID item) item).
Proof using step_eq.
  revert m. induction l as [|item' l IH]; intros m Hnd Hin; simpl.
  { by apply elem_of_nil in Hin. }
  rewrite fmap_cons, NoDup_cons in Hnd. destruct Hnd as [Hfresh Hnd].
  apply elem_of_cons in Hin as [->|Hin].
  - rewrite loop_lookup_other by done.
    by rewrite step_eq, lookup_insert_eq.
  - rewrite IH, step_eq by done. rewrite lookup_insert_ne; [done|].
    intros Heq. apply Hfresh. rewrite Heq. by apply list_elem_of_fmap_2.
Qed.

(** The fields a loop never writes. *)
Definition sameFrame (i c : ContextItem) : Prop :=
  ContextItem.ID c = ContextItem.ID i ∧
  ContextItem.Content c = ContextItem.Content i ∧
  ContextItem.Source c = ContextItem.Source i ∧
  ContextItem.Metadata c = ContextItem.Metadata i.

Definition framed (seen : list ContextItem)
    (m : gmap string ContextItem) : Prop :=
  ∀ x c, m !! x = Some c →
    ContextItem.ID c = x ∧ ∃ i, i ∈ seen ∧ sameFrame i c.

Context (entry_frame : ∀ old item,
  match old with
  | Some existing => sameFrame existing (entry old item)
  | None => sameFrame item (entry old item)
  end).

Lemma loop_framed seen m l :
  framed seen m → framed (seen ++ l) (foldl step m l).
Proof using step_eq entry_frame.
  revert seen m. induction l as [|item l IH]; intros seen m Hm; simpl.
  { by rewrite app_nil_r. }
  rewrite (assoc_L (++) seen [item] l : seen ++ item :: l = _).
  apply IH. intros x c. rewrite step_eq.
  destruct (decide (ContextItem.ID item = x)) as [<-|Hne].
  - rewrite lookup_insert_eq. intros [= <-].
    pose proof (entry_frame (m !! ContextItem.ID item) item) as Hf.
    destruct (m !! ContextItem.ID item) as [existing|] eqn:Hold.
    + destruct (Hm _ _ Hold) as (Hid & i & Hi & Hfi).
      destruct Hf as (H1 & H2 & H3 & H4),  Hfi as (G1 & G2 & G3 & G4).
      split; [congruence|]. exists i. split; [set_solver|].
      unfold sameFrame. split_and!; congruence.
    + split; [apply Hf|]. exists item. split; [set_solver|done].
  - rewrite lookup_insert_ne by done. intros Hc.
    destruct (Hm _ _ Hc) as (Hid & i & Hi & Hfi).
    split; [done|]. exists i. split; [set_solver|done].
Qed.
End loop.

Lemma vectorEntry_frame old item :
  match old with
  | Some existing => sameFrame existing (vectorEntry old item)
  | None => sameFrame item (vectorEntry old item)
  end.
Proof. by destruct old. Qed.

Lemma graphEntry_frame old item :
  match old with
  | Some existing => sameFrame existing (graphEntry old item)
  | None => sameFrame item (graphEntry old item)
  end.
Proof.
  destruct old as [existing|]; [|done]. unfold graphEntry.
  by destruct (0 <? _).
Qed.

Lemma mergedMap_framed v g : framed (v ++ g) (mergedMap w v g).
Proof.
  unfold mergedMap.
  apply (loop_framed graphEntry _ mergeGraphItem_eq graphEntry_frame).
  apply (loop_framed vectorEntry _ mergeVectorItem_eq vectorEntry_frame [] ∅).
  intros x c. by rewrite lookup_empty.
Qed.

Lemma mergedMap_vector_only v g item :
  NoDup (ContextItem.ID <$> v) → item ∈ v →
  ContextItem.ID item ∉ ContextItem.ID <$> g →
  mergedMap w v g !! ContextItem.ID item =
  Some (ContextItem.withScore item
          (ContextItem.Score item * Weights.Vector w)%float).
Proof.
  intros Hv Hin Hg. unfold mergedMap.
  rewrite (loop_lookup_other graphEntry _ mergeGraphItem_eq) by done.
  rewrite (loop_lookup_item vectorEntry _ mergeVectorItem_eq) by done.
  by rewrite lookup_empty.
Qed.

Lemma mergedMap_graph_only v g item :
  NoDup (ContextItem.ID <$> g) → item ∈ g →
  ContextItem.ID item ∉ ContextItem.ID <$> v →
  mergedMap w v g !! ContextItem.ID item =
  Some (ContextItem.withScore item
          (ContextItem.Score item * Weights.Graph w)%float).
Proof.
  intros Hg Hin Hv. unfold mergedMap.
  rewrite (loop_lookup_item graphEntry _ mergeGraphItem_eq) by done.
  rewrite (loop_lookup_other vectorEntry _ mergeVectorItem_eq) by done.
  by rewrite lookup_empty.
Qed.

Lemma mergedMap_both v g iv ig :
  NoDup (ContextItem.ID <$> v) → NoDup (ContextItem.ID <$> g) →
  iv ∈ v → ig ∈ g → ContextItem.ID iv = ContextItem.ID ig →
  ∃ c, mergedMap w v g !! ContextItem.ID iv = Some c ∧
       ContextItem.Score c =
         (ContextItem.Score iv * Weights.Vector w +
          ContextItem.Score ig * Weights.Graph w)%float.
Proof.
  intros Hv Hg Hiv Hig Hid. unfold mergedMap. rewrite Hid.
  rewrite (loop_lookup_item graphEntry _ mergeGraphItem_eq) by done.
  rewrite <- Hid.
  rewrite (loop_lookup_item vectorEntry _ mergeVectorItem_eq) by done.
  rewrite lookup_empty. eexists. split; [done|].
  unfold graphEntry, vectorEntry. by destruct (0 <? _).
Qed.
End merge.

Section mergeResults.
Import retrieve hybrid.
Context (rt : Runtime) (r : Retriever).
Local Abbreviation w := (RetrieverConfig.Weights (config r)).

Lemma elem_of_mergeResults v g o :
  o ∈ mergeResults rt r v g ↔
  ∃ c, mergedMap w v g !! ContextItem.ID c = Some c ∧ o = markHybrid c.
Proof.
  unfold mergeResults. rewrite list_elem_of_fmap. split.
  - intros ([x c] & -> & Hin). rewrite range_perm in Hin.
    apply elem_of_map_to_list in Hin.
    destruct (mergedMap_framed w v g _ _ Hin) as [Hid _].
    exists c. by rewrite Hid.
  - intros (c & Hc & ->). exists (ContextItem.ID c, c). split; [done|].
    rewrite range_perm. by apply elem_of_map_to_list.
Qed.

Lemma mergeResults_NoDup v g :
  NoDup (ContextItem.ID <$> mergeResults rt r v g).
Proof.
  unfold mergeResults. rewrite <- list_fmap_compose.
  assert ((ContextItem.ID ∘ (λ kv : string * ContextItem, markHybrid kv.2))
            <$> range (rt_range rt) (map_to_list (mergedMap w v g)) =
          (range (rt_range rt) (map_to_list (mergedMap w v g))).*1) as ->.
  { apply list_fmap_ext. intros i [x c] Hi. simpl.
    apply list_elem_of_lookup_2 in Hi. rewrite range_perm in Hi.
    apply elem_of_map_to_list in Hi.
    by destruct (mergedMap_framed w v g _ _ Hi) as [Hid _]. }
  rewrite range_perm. apply NoDup_fst_map_to_list.
Qed.
End mergeResults.

(** ** Deduplication *)

Section deduplicate.
Import retrieve hybrid.

(** [o] is, among the items of [items] with its identifier, one that no
    other exceeds, and the first of those that equal it. *)
Definition bestOf (items : list ContextItem) (o : ContextItem) : Prop :=
  ∃ p, items !! p = Some o ∧
    ∀ j i, items !! j = Some i → ContextItem.ID i = ContextItem.ID o →
      (ContextItem.Score o <? ContextItem.Score i)%float = false ∧
      ((j < p)%nat →
         (ContextItem.Score i =? ContextItem.Score o)%float = false).

(** The loop invariant: [seen] indexes [result] by identifier, every item
    read so far has an entry, and every entry is the best so far. *)
Definition dedupInv (read : list ContextItem)
    (st : gmap string nat * list ContextItem) : Prop :=
  (∀ x idx, st.1 !! x = Some idx →
     ∃ c, st.2 !! idx = Some c ∧ ContextItem.ID c = x) ∧
  (∀ idx c, st.2 !! idx = Some c → st.1 !! ContextItem.ID c = Some idx) ∧
  (∀ i, i ∈ read → is_Some (st.1 !! ContextItem.ID i)) ∧
  (∀ c, c ∈ st.2 → bestOf read c).

Lemma bestOf_snoc_other read c item :
  bestOf read c →
  (ContextItem.ID item = ContextItem.ID c →
     (ContextItem.Score c <? ContextItem.Score item)%float = false) →
  bestOf (read ++ [item]) c.
Proof.
  intros (p & Hp & Hbest) Hitem. exists p. split.
  { by apply lookup_app_l_Some. }
  intros j i Hj Hid.
  apply lookup_app_Some in Hj as [Hj|[Hlen Hj]]; [by apply Hbest|].
  apply list_lookup_singleton_Some in Hj as [_ <-].
  split; [by apply Hitem|].
  intros Hlt. apply lookup_lt_Some in Hp. lia.
Qed.

Lemma bestOf_snoc_new read item :
  (∀ i, i ∈ read → ContextItem.ID i = ContextItem.ID item →
     ∃ k, (k <? ContextItem.Score item)%float = true ∧
          (k <? ContextItem.Score i)%float = false) →
  bestOf (read ++ [item]) item.
Proof.
  intros Hlow. exists (length read). split.
  { by rewrite lookup_app_r, Nat.sub_diag by lia. }
  intros j i Hj Hid.
  apply lookup_app_Some in Hj as [Hj|[Hlen Hj]].
  - destruct (Hlow i (list_elem_of_lookup_2 _ _ _ Hj) Hid) as (k & Hk & Hki).
    split.
    + destruct (ContextItem.Score item <? ContextItem.Score i)%float
        eqn:Hlt; [|done].
      by rewrite (F64.ltb_trans _ _ _ Hk Hlt) in Hki.
    + intros _.
      destruct (ContextItem.Score i =? ContextItem.Score item)%float
        eqn:Heq; [|done].
      by rewrite (F64.ltb_eqb_l _ _ _ Hk Heq) in Hki.
  - apply list_lookup_singleton_Some in Hj as [_ <-].
    split; [apply F64.ltb_irrefl|].
    intros Hlt. lia.
Qed.

Lemma dedupStep_inv read st item :
  dedupInv read st →
  ∃ st', dedupStep st item = Some st' ∧ dedupInv (read ++ [item]) st'.
Proof.
  destruct st as [seen result]. intros (Hseen & Hres & Hread & Hbest).
  simpl in *. destruct (seen !! ContextItem.ID item) as [idx|] eqn:Hidx.
  - destruct (Hseen _ _ Hidx) as (kept & Hkept & Hid). rewrite Hkept.
    destruct (_ <? _)%float eqn:Hlt; eexists; (split; [done|]);
      split_and!; simpl.
    + intros x idx' Hx. destruct (Hseen _ _ Hx) as (c & Hc & Hcid).
      destruct (decide (idx' = idx)) as [->|Hne].
      * exists item. rewrite list_lookup_insert_eq
          by (by eapply lookup_lt_Some). naive_solver.
      * exists c. by rewrite list_lookup_insert_ne.
    + intros idx' c.
      destruct (decide (idx = idx')) as [<-|Hne].
      * rewrite list_lookup_insert_eq by (by eapply lookup_lt_Some).
        by intros [= <-].
      * rewrite list_lookup_insert_ne by done. apply Hres.
    + intros i [Hi|Hi%list_elem_of_singleton]%elem_of_app; [by apply Hread|].
      by rewrite Hi, Hidx.
    + intros c Hc. apply list_elem_of_lookup in Hc as [idx' Hc].
      destruct (decide (idx = idx')) as [<-|Hne].
      * rewrite list_lookup_insert_eq in Hc by (by eapply lookup_lt_Some).
        injection Hc as <-. apply bestOf_snoc_new.
        intros i Hi Hii. exists (ContextItem.Score kept). split; [done|].
        destruct (Hbest kept (list_elem_of_lookup_2 _ _ _ Hkept))
          as (p & _ & Hk).
        apply list_elem_of_lookup in Hi as [j Hj].
        apply (Hk j i Hj). congruence.
      * rewrite list_lookup_insert_ne in Hc by done.
        apply bestOf_snoc_other.
        { apply Hbest. by eapply list_elem_of_lookup_2. }
        intros Hcid. exfalso. apply Hne.
        apply Hres in Hc. rewrite <- Hcid, Hidx in Hc. by injection Hc.
    + done.
    + done.
    + intros i [Hi|Hi%list_elem_of_singleton]%elem_of_app; [by apply Hread|].
      by rewrite Hi, Hidx.
    + intros c Hc. apply bestOf_snoc_other; [by apply Hbest|].
      intros Hcid. apply list_elem_of_lookup in Hc as [idx' Hc].
      pose proof (Hres _ _ Hc) as Hc'. rewrite <- Hcid, Hidx in Hc'.
      injection Hc' as <-. rewrite Hkept in Hc. by injection Hc as <-.
  - eexists. split; [done|]. split_and!; simpl.
    + intros x idx Hx.
      destruct (decide (ContextItem.ID item = x)) as [<-|Hne].
      * rewrite lookup_insert_eq in Hx. injection Hx as <-.
        exists item. by rewrite lookup_app_r, Nat.sub_diag by lia.
      * rewrite lookup_insert_ne in Hx by done.
        destruct (Hseen _ _ Hx) as (c & Hc & Hcid). exists c.
        split; [|done]. by apply lookup_app_l_Some.
    + intros idx c Hc.
      apply lookup_app_Some in Hc as [Hc|[Hlen Hc]].
      * pose proof (Hres _ _ Hc) as Hs.
        rewrite lookup_insert_ne; [done|]. intros Heq.
        by rewrite <- Heq, Hidx in Hs.
      * apply list_lookup_singleton_Some in Hc as [Hz <-].
        rewrite lookup_insert_eq. f_equal. lia.
    + intros i [Hi|Hi%list_elem_of_singleton]%elem_of_app.
      * destruct (decide (ContextItem.ID item = ContextItem.ID i)) as [->|].
        { rewrite lookup_insert_eq. eauto. }
        rewrite lookup_insert_ne by done. by apply Hread.
      * rewrite Hi, lookup_insert_eq. eauto.
    + intros c [Hc|Hc%list_elem_of_singleton]%elem_of_app.
      * apply bestOf_snoc_other; [by apply Hbest|].
        intros Hcid. exfalso.
        apply list_elem_of_lookup in Hc as [idx Hc].
        apply Hres in Hc. by rewrite <- Hcid, Hidx in Hc.
      * subst c. apply bestOf_snoc_new. intros i Hi Hii. exfalso.
        destruct (Hread i Hi) as [idx Hs]. by rewrite Hii, Hidx in Hs.
Qed.

Lemma dedupLoop_inv read st items :
  dedupInv read st →
  ∃ st', dedupLoop st items = Some st' ∧ dedupInv (read ++ items) st'.
Proof.
  revert read st. induction items as [|item items IH]; intros read st Hinv.
  { exists st. by rewrite app_nil_r. }
  destruct (dedupStep_inv read st item Hinv) as (st' & Hstep & Hinv').
  destruct (IH _ _ Hinv') as (st'' & Hloop & Hinv'').
  exists st''. simpl. rewrite Hstep. split; [done|].
  by rewrite <- (assoc_L (++)) in Hinv''.
Qed.

(** [deduplicate] never reads out of range; its result has one item per
    identifier of the input, the best one. *)
Lemma deduplicate_spec items :
  ∃ out, deduplicate items = Some out ∧
    NoDup (ContextItem.ID <$> out) ∧
    (∀ i, i ∈ items → ∃ o, o ∈ out ∧ ContextItem.ID o = ContextItem.ID i) ∧
    Forall (bestOf items) out.
Proof.
  destruct (dedupLoop_inv [] (∅, []) items) as ([seen out] & Hloop & Hinv).
  { split_and!; simpl; intros *; try by rewrite ?lookup_empty.
    - by intros ?%elem_of_nil.
    - by intros ?%elem_of_nil. }
  destruct Hinv as (Hseen & Hres & Hread & Hbest). simpl in *.
  exists out. unfold deduplicate. rewrite Hloop. split_and!; [done| | |].
  - apply NoDup_alt. intros a b x. rewrite !list_lookup_fmap.
    destruct (out !! a) as [ca|] eqn:Ha; [|done].
    destruct (out !! b) as [cb|] eqn:Hb; [|done]. simpl.
    intros [= <-] [= Hid]. apply Hres in Ha, Hb. congruence.
  - intros i Hi. destruct (Hread i Hi) as [idx Hidx].
    destruct (Hseen _ _ Hidx) as (c & Hc & Hcid).
    exists c. split; [|done]. by eapply list_elem_of_lookup_2.
  - by apply Forall_forall.
Qed.
End deduplicate.

(** ** The orchestrator *)

Section orchestrator.
Import retrieve hybrid.
Context (rt : Runtime) (r : Retriever) (q : Query.t).

Definition isRetrieverCall (c : Call) : bool :=
  match c with
  | CallVector _ | CallGraph _ => true
  | _ => false
  end.

(** The calls to the two retrievers, in order. *)
Definition retrieverCalls {A} (m : Run A) : list Call :=
  filter (λ c, isRetrieverCall c = true) (calls m).

Lemma dedupStage_total items :
  ∃ candidates, dedupStage r items = ret candidates ∧
    if RetrieverConfig.DedupByID (config r)
    then deduplicate items = Some candidates
    else candidates = items.
Proof.
  unfold dedupStage. destruct (RetrieverConfig.DedupByID _); [|by eexists].
  destruct (deduplicate_spec items) as (out & -> & _). by eexists.
Qed.

(** The value [Retrieve] computes from what the policy returned when no
    reranker is configured. *)
Lemma Retrieve_no_reranker items modesUsed totalCandidates t candidates :
  dispatch rt r q = (Some (items, modesUsed, totalCandidates, None), t) →
  dedupStage r items = ret candidates →
  RetrieverConfig.Reranker (config r) = None →
  Retrieve rt r q =
  (Some (Some (Result.mk
                 (topK q (sortSlice (rt_sort rt) byScoreDesc candidates)) q
                 (ResultMetadata.mk totalCandidates (rt_elapsedMS rt)
                    modesUsed false)),
         None), t).
Proof.
  intros Hd Hc Hr. unfold Retrieve. rewrite Hd. simpl. rewrite Hc, Hr.
  simpl. by rewrite !app_nil_r.
Qed.

Lemma Retrieve_policy_error items modesUsed totalCandidates err t :
  dispatch rt r q = (Some (items, modesUsed, totalCandidates, Some err), t) →
  Retrieve rt r q = (Some (None, Some err), t).
Proof.
  intros Hd. unfold Retrieve. rewrite Hd. simpl. by rewrite app_nil_r.
Qed.

(** After the policy has run, [Retrieve] calls no retriever. *)
Lemma Retrieve_retrieverCalls :
  retrieverCalls (Retrieve rt r q) = retrieverCalls (dispatch rt r q).
Proof.
  unfold retrieverCalls, Retrieve, calls.
  destruct (dispatch rt r q) as [[[[[items modesUsed] total] [err|]]|] t];
    simpl; [by rewrite app_nil_r| |done].
  destruct (dedupStage_total items) as (candidates & -> & _). simpl.
  destruct (RetrieverConfig.Reranker (config r)) as [rr|]; simpl;
    [|by rewrite !app_nil_r].
  destruct (rr q _) as [items' [err|]]; simpl.
  - rewrite !filter_app. simpl. by rewrite !app_nil_r.
  - destruct (RetrieverConfig.Observer (config r)); simpl;
      rewrite !filter_app; simpl; by rewrite !app_nil_r.
Qed.

Lemma Retrieve_error_no_result res err :
  value (Retrieve rt r q) = Some (res, Some err) → res = None.
Proof.
  unfold Retrieve, value.
  destruct (dispatch rt r q) as [[[[[items modesUsed] total] [err'|]]|] t];
    simpl; [by intros [= <- _]| |done].
  destruct (dedupStage_total items) as (candidates & -> & _). simpl.
  destruct (RetrieverConfig.Reranker (config r)) as [rr|]; simpl; [|done].
  destruct (rr q _) as [items' [err'|]]; simpl; [by intros [= <- _]|].
  by destruct (RetrieverConfig.Observer (config r)).
Qed.

Lemma dispatch_parallel :
  RetrieverConfig.Policy (config r) = PolicyParallel →
  dispatch rt r q = retrieveParallel rt r q.
Proof. unfold dispatch. by intros ->. Qed.

Lemma dispatch_vector_then_graph :
  RetrieverConfig.Policy (config r) = PolicyVectorThenGraph →
  dispatch rt r q = retrieveVectorThenGraph rt r q.
Proof. unfold dispatch. by intros ->. Qed.
End orchestrator.

(** Closed decidable goals, by evaluation. *)
Ltac by_decision :=
  lazymatch goal with
  | |- ?P => apply (bool_decide_unpack P); vm_compute; exact I
  end.

(** ** Example data: the fusion example of the specification *)

Module example.
Import retrieve hybrid.

Definition item (id : string) (score : float) : ContextItem :=
  ContextItem.mk id "" "" score ∅ (Provenance.mk "" "" [] 0 0).

Definition vectorItems : list ContextItem := [item "x" 0.8].
Definition graphItems : list ContextItem := [item "x" 0.6; item "y" 0.5].

Definition vectorRetriever : retrieve.Retriever :=
  λ q, Ok (Result.mk vectorItems q
             (ResultMetadata.mk 1 0 [ModeVector] false)).
Definition graphRetriever : retrieve.Retriever :=
  λ q, Ok (Result.mk graphItems q
             (ResultMetadata.mk 2 0 [ModeGraph] false)).
Definition failing (msg : string) : retrieve.Retriever := λ q, Fail msg.

Definition retriever (vector graph : option retrieve.Retriever)
    (policy : Policy) : Retriever :=
  NewRetriever
    (RetrieverConfig.mk vector graph policy (Weights.mk 0.6 0.4) None true
       false).

Definition both (policy : Policy) : Retriever :=
  retriever (Some vectorRetriever) (Some graphRetriever) policy.

Definition query (topK : Z) : Query.t :=
  Query.mk "q" [] [] ∅ 0 topK [] 0 ∅.

(** Three items, one of them with a score that is not a number. *)
Definition nanItems : list ContextItem :=
  [item "a" 1; item "n" nan; item "b" 2].

(** A vector retriever that returns them, with weights of one. *)
Definition withNaN : Retriever :=
  NewRetriever
    (RetrieverConfig.mk
       (Some (λ q, Ok (Result.mk nanItems q
                         (ResultMetadata.mk 3 0 [ModeVector] false))))
       None PolicyParallel (Weights.mk 1 1) None true false).

(** The identifiers and scores of a list of items. *)
Definition scoresOf (items : list ContextItem) : list (string * float) :=
  (λ item, (ContextItem.ID item, ContextItem.Score item)) <$> items.
End example.

(** ** Fusion *)

Section fusion_properties.
Import retrieve hybrid.

(** C1. Score fusion is additive on identifier collision. When every
    identifier occurs at most once in each of the two lists, the output of
    [mergeResults] has one item per identifier; for an identifier present
    in both lists its score is [sv*weights.Vector + sg*weights.Graph], for
    one present only in the vector list [sv*weights.Vector], and for one
    present only in the graph list [sg*weights.Graph]. *)
Theorem mergeResults_additive (rt : Runtime) (r : Retriever)
    (vectorItems graphItems : list ContextItem) :
  NoDup (ContextItem.ID <$> vectorItems) →
  NoDup (ContextItem.ID <$> graphItems) →
  NoDup (ContextItem.ID <$> mergeResults rt r vectorItems graphItems) ∧
  (∀ iv ig, iv ∈ vectorItems → ig ∈ graphItems →
     ContextItem.ID iv = ContextItem.ID ig →
     ∃ o, o ∈ mergeResults rt r vectorItems graphItems ∧
       ContextItem.ID o = ContextItem.ID iv ∧
       ContextItem.Score o =
         (ContextItem.Score iv * Weights.Vector (RetrieverConfig.Weights (config r)) +
          ContextItem.Score ig * Weights.Graph (RetrieverConfig.Weights (config r)))%float) ∧
  (∀ iv, iv ∈ vectorItems →
     ContextItem.ID iv ∉ ContextItem.ID <$> graphItems →
     ∃ o, o ∈ mergeResults rt r vectorItems graphItems ∧
       ContextItem.ID o = ContextItem.ID iv ∧
       ContextItem.Score o =
         (ContextItem.Score iv * Weights.Vector (RetrieverConfig.Weights (config r)))%float) ∧
  (∀ ig, ig ∈ graphItems →
     ContextItem.ID ig ∉ ContextItem.ID <$> vectorItems →
     ∃ o, o ∈ mergeResults rt r vectorItems graphItems ∧
       ContextItem.ID o = ContextItem.ID ig ∧
       ContextItem.Score o =
         (ContextItem.Score ig * Weights.Graph (RetrieverConfig.Weights (config r)))%float).
Proof.
  intros Hv Hg. split_and!.
  - apply mergeResults_NoDup.
  - intros iv ig Hiv Hig Hid.
    destruct (mergedMap_both (RetrieverConfig.Weights (config r))
                vectorItems graphItems iv ig Hv Hg Hiv Hig Hid)
      as (c & Hc & Hscore).
    destruct (mergedMap_framed _ _ _ _ _ Hc) as [Hcid _].
    exists (markHybrid c). split_and!; [|done..].
    apply elem_of_mergeResults. exists c. by rewrite Hcid.
  - intros iv Hiv Hid.
    pose proof (mergedMap_vector_only (RetrieverConfig.Weights (config r))
                  vectorItems graphItems iv Hv Hiv Hid) as Hc.
    eexists. split;
      [apply elem_of_mergeResults; eexists (ContextItem.withScore iv _);
       split; [exact Hc|done]|done].
  - intros ig Hig Hid.
    pose proof (mergedMap_graph_only (RetrieverConfig.Weights (config r))
                  vectorItems graphItems ig Hg Hig Hid) as Hc.
    eexists. split;
      [apply elem_of_mergeResults; eexists (ContextItem.withScore ig _);
       split; [exact Hc|done]|done].
Qed.

(** C9. Fusion frame condition. Every item of the output of [mergeResults]
    has the identifier, content, source and metadata of an input item, and
    its provenance mode is "hybrid". *)
Theorem mergeResults_frame (rt : Runtime) (r : Retriever)
    (vectorItems graphItems : list ContextItem) :
  Forall (λ o,
    (∃ i, i ∈ vectorItems ++ graphItems ∧
       ContextItem.ID o = ContextItem.ID i ∧
       ContextItem.Content o = ContextItem.Content i ∧
       ContextItem.Source o = ContextItem.Source i ∧
       ContextItem.Metadata o = ContextItem.Metadata i) ∧
    Provenance.Mode (ContextItem.Provenance o) = "hybrid")
    (mergeResults rt r vectorItems graphItems).
Proof.
  apply Forall_forall. intros o (c & Hc & ->)%elem_of_mergeResults.
  destruct (mergedMap_framed _ _ _ _ _ Hc) as (_ & i & Hi & Hf).
  split; [|done]. exists i. split; [done|]. apply Hf.
Qed.
End fusion_properties.

(** [mergeResults_additive] on the fusion example. *)
Lemma mergeResults_additive_witness :
  let r := example.both hybrid.PolicyParallel in
  let out :=
    hybrid.mergeResults forwardRuntime r example.vectorItems
      example.graphItems in
  NoDup (retrieve.ContextItem.ID <$> out) ∧
  retrieve.ContextItem.Score <$> out =
    [(0.5 * 0.4)%float; (0.8 * 0.6 + 0.6 * 0.4)%float].
Proof.
  split; [|vm_compute; reflexivity].
  apply (mergeResults_additive forwardRuntime
           (example.both hybrid.PolicyParallel) example.vectorItems
           example.graphItems); by_decision.
Defined.

(** ** Deduplication, truncation and the policies *)

Section pipeline_properties.
Import retrieve hybrid.

Lemma bestOf_leb (items : list ContextItem) (o i : ContextItem) :
  bestOf items o → i ∈ items → ContextItem.ID i = ContextItem.ID o →
  F64.is_nan (ContextItem.Score i) = false →
  F64.is_nan (ContextItem.Score o) = false →
  (ContextItem.Score i <=? ContextItem.Score o)%float = true.
Proof.
  intros (p & _ & Hbest) [j Hj]%list_elem_of_lookup Hid Hi Ho.
  apply F64.ltb_total; [done..|]. by apply (Hbest j i).
Qed.

Lemma byScoreDesc_StrictWeakOn (items : list ContextItem) :
  Forall (λ c, F64.is_nan (ContextItem.Score c) = false) items →
  StrictWeakOn byScoreDesc items.
Proof.
  rewrite Forall_forall. intros Hnan. unfold byScoreDesc. split_and!.
  - intros a _. apply F64.ltb_irrefl.
  - intros a b c _ _ _ Hab Hbc. by eapply F64.ltb_trans.
  - intros a b c _ Hb _ Hac.
    destruct (F64.ltb_cotrans _ (ContextItem.Score b) _ (Hnan b Hb) Hac);
      auto.
Qed.

Lemma topK_prefix (q : Query.t) (items : list ContextItem) :
  ∃ omitted, items = topK q items ++ omitted ∧
    (0 < Query.TopK q →
     Z.of_nat (length (topK q items)) =
       Z.min (Query.TopK q) (Z.of_nat (length items))).
Proof.
  unfold topK. destruct (0 <? Query.TopK q) eqn:Hpos; simpl.
  - destruct (Query.TopK q <? _) eqn:Hlt.
    + exists (drop (Z.to_nat (Query.TopK q)) items).
      split; [by rewrite take_drop|]. intros _. rewrite length_take. lia.
    + exists []. split; [by rewrite app_nil_r|]. lia.
  - exists []. split; [by rewrite app_nil_r|]. lia.
Qed.

(** C7. Deduplication. [deduplicate] returns, for every list, one item per
    identifier of the list, and that item is [bestOf] the list: an item of
    the list that no item with the same identifier exceeds in score, and
    the earliest of those with an equal score (a later item replaces the
    kept one only when its score is strictly higher). For scores that are
    numbers it scores at least as high as every item with its identifier:
    its score is the maximum. With [DedupByID] set and no reranker, the
    identifiers of the items that [Retrieve] returns are pairwise distinct
    and every returned item is the best of its identifier in the list
    handed to [deduplicate]. *)
Theorem deduplicate_keeps_best :
  (∀ items, ∃ out, deduplicate items = Some out ∧
     NoDup (ContextItem.ID <$> out) ∧
     (∀ i, i ∈ items →
        ∃ o, o ∈ out ∧ ContextItem.ID o = ContextItem.ID i) ∧
     Forall (bestOf items) out) ∧
  (∀ items o i,
     bestOf items o → i ∈ items →
     ContextItem.ID i = ContextItem.ID o →
     F64.is_nan (ContextItem.Score i) = false →
     F64.is_nan (ContextItem.Score o) = false →
     (ContextItem.Score i <=? ContextItem.Score o)%float = true) ∧
  (∀ rt r q items modesUsed totalCandidates t,
     RetrieverConfig.DedupByID (config r) = true →
     RetrieverConfig.Reranker (config r) = None →
     dispatch rt r q =
       (Some (items, modesUsed, totalCandidates, None), t) →
     ∃ res, Retrieve rt r q = (Some (Some res, None), t) ∧
       NoDup (ContextItem.ID <$> Result.Items res) ∧
       Forall (bestOf items) (Result.Items res)).
Proof.
  split_and!.
  - apply deduplicate_spec.
  - apply bestOf_leb.
  - intros rt r q items modesUsed total t Hdedup Hrr Hd.
    destruct (dedupStage_total r items) as (cands & Hstage & Hc).
    rewrite Hdedup in Hc.
    destruct (deduplicate_spec items) as (out & Hout & Hnd & _ & Hbest).
    assert (out = cands) as -> by congruence.
    eexists. split; [by eapply Retrieve_no_reranker|]. simpl.
    destruct (topK_prefix q (sortSlice (rt_sort rt) byScoreDesc cands))
      as (omitted & Hsplit & _).
    pose proof (sortSlice_perm (rt_sort rt) _ byScoreDesc cands) as Hperm.
    rewrite Hsplit in Hperm. split.
    + rewrite <- Hperm, fmap_app in Hnd. by apply NoDup_app in Hnd as [? _].
    + rewrite <- Hperm in Hbest. by apply Forall_app in Hbest as [? _].
Qed.

(** C6, as the code has it. Top-K truncation. With [TopK = k > 0] and no
    reranker, [Retrieve] returns [min(k, n)] of the [n] items left after
    deduplication; when the scores of these items are numbers, the
    returned items are in descending order of score and every returned
    item scores at least as high as every omitted one. *)
Theorem Retrieve_topK (rt : Runtime) (r : Retriever) (q : Query.t)
    (items candidates : list ContextItem) (modesUsed : list Mode)
    (totalCandidates : Z) (t : list Call) :
  0 < Query.TopK q →
  RetrieverConfig.Reranker (config r) = None →
  dispatch rt r q = (Some (items, modesUsed, totalCandidates, None), t) →
  dedupStage r items = ret candidates →
  ∃ res omitted,
    Retrieve rt r q = (Some (Some res, None), t) ∧
    Z.of_nat (length (Result.Items res)) =
      Z.min (Query.TopK q) (Z.of_nat (length candidates)) ∧
    Result.Items res ++ omitted ≡ₚ candidates ∧
    (Forall (λ c, F64.is_nan (ContextItem.Score c) = false) candidates →
     (∀ a b, a ∈ Result.Items res → b ∈ omitted →
        (ContextItem.Score b <=? ContextItem.Score a)%float = true) ∧
     StronglySorted
       (λ a b, (ContextItem.Score b <=? ContextItem.Score a)%float = true)
       (Result.Items res)).
Proof.
  intros Hk Hrr Hd Hstage.
  pose proof (sortSlice_perm (rt_sort rt) _ byScoreDesc candidates) as Hperm.
  destruct (topK_prefix q (sortSlice (rt_sort rt) byScoreDesc candidates))
    as (omitted & Hsplit & Hlen).
  eexists _, omitted. split; [by eapply Retrieve_no_reranker|]. simpl.
  split_and!.
  - rewrite (Hlen Hk). by rewrite <- (Permutation_length
      (sortSlice_perm (rt_sort rt) _ byScoreDesc candidates)).
  - by rewrite <- Hsplit.
  - intros Hnan.
    pose proof (sortSlice_sorted (rt_sort rt) _ byScoreDesc candidates
                  (byScoreDesc_StrictWeakOn _ Hnan)) as Hsorted.
    assert (StronglySorted
              (λ a b, (ContextItem.Score b <=? ContextItem.Score a)%float
                      = true)
              (sortSlice (rt_sort rt) byScoreDesc candidates)) as Hdesc.
    { rewrite <- Hperm in Hnan. rewrite Forall_forall in Hnan.
      clear Hsplit Hlen Hperm.
      induction Hsorted as [|a l Hs IH Ha]; [constructor|].
      constructor.
      - apply IH. intros x Hx. apply Hnan. by right.
      - rewrite Forall_forall in Ha |- *. intros b Hb.
        apply F64.ltb_total; [apply Hnan; by left|apply Hnan; by right|].
        by apply Ha. }
    rewrite Hsplit in Hdesc.
    apply StronglySorted_app in Hdesc as (Hcross & Hkept & _).
    by split.
Qed.

(** C5. Parallel policy: fail-fast with vector precedence. Both
    configured retrievers are called, whatever either returns. If the
    vector retriever fails, [Retrieve] returns its error and no result,
    also when the graph retriever fails too; if the graph retriever fails
    and the vector retriever does not, [Retrieve] returns the graph error
    and no result. [Retrieve] never returns a result together with an
    error. *)
Theorem Retrieve_parallel_errors (rt : Runtime) (r : Retriever)
    (q : Query.t) :
  RetrieverConfig.Policy (config r) = PolicyParallel →
  (∀ v g,
     RetrieverConfig.Vector (config r) = Some v →
     RetrieverConfig.Graph (config r) = Some g →
     retrieverCalls (Retrieve rt r q) ≡ₚ [CallVector q; CallGraph q]) ∧
  (∀ v ev,
     RetrieverConfig.Vector (config r) = Some v → v q = Fail ev →
     value (Retrieve rt r q) = Some (None, Some ev)) ∧
  (∀ g eg,
     RetrieverConfig.Graph (config r) = Some g → g q = Fail eg →
     (∀ v ev, RetrieverConfig.Vector (config r) = Some v →
              v q ≠ Fail ev) →
     value (Retrieve rt r q) = Some (None, Some eg)) ∧
  (∀ res err,
     value (Retrieve rt r q) = Some (res, Some err) → res = None).
Proof.
  intros Hp. split_and!.
  - intros v g Hv Hg.
    rewrite Retrieve_retrieverCalls, dispatch_parallel by done.
    unfold retrieverCalls, retrieveParallel, bothBranches, vectorBranch,
      graphBranch.
    rewrite Hv, Hg.
    destruct (rt_vectorFirst rt), (v q), (g q); simpl;
      first [done | apply Permutation_swap].
  - intros v ev Hv Hev.
    assert (∃ t, dispatch rt r q = (Some ([], [], 0, Some ev), t))
      as [t Hd].
    { rewrite dispatch_parallel by done.
      unfold retrieveParallel, bothBranches, vectorBranch, graphBranch.
      rewrite Hv, Hev.
      destruct (rt_vectorFirst rt),
        (RetrieverConfig.Graph (config r)) as [g|]; simpl;
        try destruct (g q); simpl; eauto. }
    by rewrite (Retrieve_policy_error _ _ _ _ _ _ _ _ Hd).
  - intros g eg Hg Heg Hvector.
    assert (∃ t, dispatch rt r q = (Some ([], [], 0, Some eg), t))
      as [t Hd].
    { rewrite dispatch_parallel by done.
      unfold retrieveParallel, bothBranches, vectorBranch, graphBranch.
      rewrite Hg, Heg.
      destruct (RetrieverConfig.Vector (config r)) as [v|] eqn:Hv.
      - destruct (v q) as [res|ev] eqn:Hq;
          [|by destruct (Hvector v ev)].
        destruct (rt_vectorFirst rt); simpl; eauto.
      - destruct (rt_vectorFirst rt); simpl; eauto. }
    by rewrite (Retrieve_policy_error _ _ _ _ _ _ _ _ Hd).
  - apply Retrieve_error_no_result.
Qed.

(** C4. VectorThenGraph chaining. With both retrievers configured the
    vector retriever is called first, with the query itself. If it returns
    items, the graph retriever is called once, after it, with the query
    whose [Entities] are one [EntityHint{ID: item.ID, Name: item.ID}] per
    vector item, in order, and whose other fields are those of the query.
    If it returns no items, or fails, the graph retriever is not
    called. *)
Theorem Retrieve_vector_then_graph (rt : Runtime) (r : Retriever)
    (q : Query.t) (v g : retrieve.Retriever) :
  RetrieverConfig.Policy (config r) = PolicyVectorThenGraph →
  RetrieverConfig.Vector (config r) = Some v →
  RetrieverConfig.Graph (config r) = Some g →
  match v q with
  | Fail _ => retrieverCalls (Retrieve rt r q) = [CallVector q]
  | Ok res =>
      match Result.Items res with
      | [] => retrieverCalls (Retrieve rt r q) = [CallVector q]
      | _ :: _ =>
          ∃ graphQuery,
            retrieverCalls (Retrieve rt r q) =
              [CallVector q; CallGraph graphQuery] ∧
            Query.Entities graphQuery =
              (λ item, EntityHint.mk (ContextItem.ID item) ""
                         (ContextItem.ID item) 0%float)
                <$> Result.Items res ∧
            Query.Text graphQuery = Query.Text q ∧
            Query.Embedding graphQuery = Query.Embedding q ∧
            Query.Filters graphQuery = Query.Filters q ∧
            Query.MaxDepth graphQuery = Query.MaxDepth q ∧
            Query.TopK graphQuery = Query.TopK q ∧
            Query.Modes graphQuery = Query.Modes q ∧
            Query.MinScore graphQuery = Query.MinScore q ∧
            Query.Metadata graphQuery = Query.Metadata q
      end
  end.
Proof.
  intros Hp Hv Hg.
  rewrite Retrieve_retrieverCalls, dispatch_vector_then_graph by done.
  unfold retrieverCalls, retrieveVectorThenGraph. rewrite Hv, Hg.
  destruct (v q) as [res|err]; simpl; [|done].
  destruct (Result.Items res) as [|item items] eqn:Hitems; simpl; [done|].
  exists (Query.withEntities q (hintOf <$> item :: items)).
  split; [|done].
  by destruct (g _).
Qed.
End pipeline_properties.

(** ** Path scoring *)

Section path_score.
Import retrieve graph.

(** The weight of the last edge of [edges] recorded under the key of the
    hop from [a] to [b]. *)
Definition lastWeight (edges : list Edge.t) (a b : string) : option float :=
  Edge.Weight <$>
    last (filter (λ e, edgeKey (Edge.From e) (Edge.To e) = edgeKey a b)
            edges).

(** The weight that enters the product: the default when no weight is
    recorded or when the recorded weight is zero. *)
Definition usedWeight (edges : list Edge.t) (a b : string) : float :=
  match lastWeight edges a b with
  | Some weight => if (weight =? 0)%float then 0.5%float else weight
  | None => 0.5%float
  end.

(** The hops of a path: its pairs of consecutive nodes. *)
Definition hops (path : list string) : list (string * string) :=
  zip path (tail path).

(** The product over the hops, from the left, starting from 1. *)
Definition hopProduct (weight : string → string → float)
    (path : list string) : float :=
  foldl (λ score hop, (score * (weight hop.1 hop.2 * 0.8))%float) 1%float
    (hops path).

Lemma edgeWeights_snoc edges e :
  edgeWeights (edges ++ [e]) =
  <[edgeKey (Edge.From e) (Edge.To e) := Edge.Weight e]> (edgeWeights edges).
Proof. unfold edgeWeights. by rewrite foldl_app. Qed.

Lemma edgeWeights_lookup edges a b :
  edgeWeights edges !! edgeKey a b = lastWeight edges a b.
Proof.
  unfold lastWeight.
  induction edges as [|e edges IH] using rev_ind; [done|].
  rewrite edgeWeights_snoc, filter_app, filter_cons, filter_nil.
  case_decide as Hkey.
  - by rewrite Hkey, lookup_insert_eq, last_snoc.
  - by rewrite lookup_insert_ne, app_nil_r.
Qed.

Lemma hopWeight_usedWeight edges a b :
  hopWeight (edgeWeights edges) a b = usedWeight edges a b.
Proof.
  unfold hopWeight, usedWeight. rewrite edgeWeights_lookup.
  by destruct (lastWeight edges a b).
Qed.

Lemma scoreLoop_foldl edges score path :
  scoreLoop (edgeWeights edges) score path =
  foldl (λ score hop,
           (score * (usedWeight edges hop.1 hop.2 * 0.8))%float)
    score (hops path).
Proof.
  revert score. induction path as [|a [|b rest] IH]; intros score; [done..|].
  change (scoreLoop (edgeWeights edges) score (a :: b :: rest)) with
    (scoreLoop (edgeWeights edges)
       (score * (hopWeight (edgeWeights edges) a b * decayFactor))%float
       (b :: rest)).
  by rewrite IH, hopWeight_usedWeight.
Qed.

Lemma computePathScore_hopProduct path edges :
  computePathScore path edges = hopProduct (usedWeight edges) path.
Proof.
  unfold computePathScore, hopProduct. destruct path as [|a rest]; [done|].
  change (Z.of_nat (length (a :: rest)) =? 0) with
    (Z.pos (Pos.of_succ_nat (length rest)) =? 0).
  simpl (_ =? _). apply scoreLoop_foldl.
Qed.

(** The items of the graph retriever carry the score of their recorded
    path. *)
Lemma itemsOf_score r q result :
  Forall (λ item,
    let path :=
      default [] (TraversalResult.Paths result !! ContextItem.ID item) in
    ContextItem.Score item =
      computePathScore path (TraversalResult.Edges result) ∧
    Provenance.GraphPath (ContextItem.Provenance item) = path)
    (itemsOf r q result).
Proof.
  apply Forall_forall. intros item. unfold itemsOf.
  rewrite list_elem_of_omap. intros (node & _ & Hitem).
  destruct (_ && _); [done|]. by injection Hitem as <-.
Qed.
End path_score.

(** ** Breadth-first traversal *)

Section traverse.
Import graph memory.
Context (kg : KnowledgeGraph) (opts : TraversalOptions.t).

(** *** Termination *)

(** The outward edges of the nodes not visited yet. *)
Definition pendingIn (m : gmap string (list Edge.t)) (vis : gset string)
    : nat :=
  sum_list_with (λ kv, if decide (kv.1 ∈ vis) then 0%nat else length kv.2)
    (map_to_list m).

Definition measure (st : bfsState) : nat :=
  (length (queue st) + pendingIn (edges kg) (visited st))%nat.

Lemma pendingIn_insert m vis k es :
  m !! k = None →
  pendingIn (<[k := es]> m) vis =
  ((if decide (k ∈ vis) then 0 else length es) + pendingIn m vis)%nat.
Proof.
  intros Hk. unfold pendingIn. by rewrite map_to_list_insert.
Qed.

Lemma pendingIn_visit m vis id :
  id ∉ vis →
  (pendingIn m ({[id]} ∪ vis) + length (default [] (m !! id)))%nat =
  pendingIn m vis.
Proof.
  intros Hid. induction m as [|k es m Hk IH] using map_ind.
  { by rewrite lookup_empty. }
  rewrite !pendingIn_insert by done.
  destruct (decide (k = id)) as [->|Hne].
  - rewrite lookup_insert_eq. rewrite Hk in IH. simpl in *.
    rewrite decide_True by set_solver. rewrite decide_False by done. lia.
  - rewrite lookup_insert_ne by done.
    destruct (decide (k ∈ vis)).
    + rewrite decide_True by set_solver. lia.
    + rewrite decide_False by set_solver. lia.
Qed.

Lemma pendingIn_empty m :
  pendingIn m ∅ = sum_list_with (λ kv, length kv.2) (map_to_list m).
Proof.
  unfold pendingIn. induction (map_to_list m) as [|kv l IH]; [done|].
  simpl. by rewrite IH.
Qed.

Lemma traverseEdge_queue current st e :
  visited (traverseEdge opts current st e) = visited st ∧
  (length (queue (traverseEdge opts current st e)) ≤ S (length (queue st)))%nat.
Proof.
  unfold traverseEdge. repeat case_match; simpl; rewrite ?length_app;
    simpl; split; (done || lia).
Qed.

Lemma foldl_traverseEdge_queue current es st :
  visited (foldl (traverseEdge opts current) st es) = visited st ∧
  (length (queue (foldl (traverseEdge opts current) st es)) ≤
     length (queue st) + length es)%nat.
Proof.
  revert st. induction es as [|e es IH]; intros st; simpl; [split; [done|lia]|].
  destruct (IH (traverseEdge opts current st e)) as [Hv Hq].
  destruct (traverseEdge_queue current st e) as [Hv' Hq'].
  split; [congruence|lia].
Qed.

Lemma visit_measure st current :
  (measure (visit kg opts st current) ≤ measure st)%nat.
Proof.
  unfold visit. case_bool_decide as Hvis; [done|].
  pose proof (pendingIn_visit (edges kg) (visited st) (nodeID current) Hvis)
    as Hpending.
  set (es := default [] (edges kg !! nodeID current)) in *.
  assert (∀ st', visited st' = {[nodeID current]} ∪ visited st →
                 queue st' = queue st →
                 (measure st' ≤ measure st)%nat) as Hskip.
  { intros st' Hv Hq. unfold measure. rewrite Hv, Hq. lia. }
  assert (∀ st', visited st' = {[nodeID current]} ∪ visited st →
                 queue st' = queue st →
                 (measure (foldl (traverseEdge opts current) st' es)
                    ≤ measure st)%nat) as Hexpand.
  { intros st' Hv Hq. unfold measure.
    destruct (foldl_traverseEdge_queue current es st') as [-> Hlen].
    rewrite Hv. rewrite Hq in Hlen. lia. }
  destruct (nodes kg !! nodeID current) as [node|]; simpl.
  - destruct (_ && _); simpl; [by apply Hskip|].
    destruct (_ <=? _); [by apply Hskip|by apply Hexpand].
  - destruct (_ <=? _); [by apply Hskip|by apply Hexpand].
Qed.

Lemma bfsLoop_terminates fuel st :
  (measure st ≤ fuel)%nat → is_Some (bfsLoop kg opts fuel st).
Proof.
  revert st. induction fuel as [|fuel IH]; intros st Hm.
  - unfold measure in Hm. destruct (queue st) as [|c rest] eqn:Hq;
      simpl in Hm; [|lia].
    simpl. rewrite Hq. eauto.
  - simpl. destruct (queue st) as [|current rest] eqn:Hq; [eauto|].
    destruct (_ <? _); [|eauto].
    apply IH. etrans; [apply visit_measure|].
    unfold measure in *. rewrite Hq in Hm. simpl in *. lia.
Qed.

(** [Traverse] returns a result and no error. *)
Lemma Traverse_total startNodes :
  ∃ st, bfsLoop kg opts
          (length (queue (initial kg startNodes)) + EdgeCount kg)
          (initial kg startNodes) = Some st ∧
        Traverse kg startNodes opts =
          (Some (TraversalResult.mk (resultNodes st) (resultEdges st)
                   (paths st)), None).
Proof.
  destruct (bfsLoop_terminates
              (length (queue (initial kg startNodes)) + EdgeCount kg)
              (initial kg startNodes)) as [st Hst].
  { unfold measure, EdgeCount. simpl. by rewrite pendingIn_empty. }
  exists st. split; [done|]. unfold Traverse. by rewrite Hst.
Qed.

(** *** Recorded paths *)

(** The graph has an edge from [a] to [b]. *)
Definition hop (a b : string) : Prop :=
  ∃ e, e ∈ default [] (edges kg !! a) ∧ Edge.To e = b.

(** Consecutive nodes of [p] are joined by an edge. *)
Definition walk (p : list string) : Prop :=
  ∀ i a b, p !! i = Some a → p !! S i = Some b → hop a b.

(** [p] leads from a start node to [id] along edges of the graph. *)
Definition pathTo (startNodes : list string) (id : string)
    (p : list string) : Prop :=
  (∃ s, s ∈ startNodes ∧ head p = Some s) ∧ last p = Some id ∧ walk p.

Context (startNodes : list string).

Definition itemOk (item : queueItem) : Prop :=
  pathTo startNodes (nodeID item) (path item) ∧
  Z.of_nat (length (path item)) = depth item + 1 ∧
  depth item ≤ Z.max 0 (TraversalOptions.Depth opts).

Definition bfsInv (st : bfsState) : Prop :=
  Forall itemOk (queue st) ∧
  (∀ id p, paths st !! id = Some p →
     pathTo startNodes id p ∧
     Z.of_nat (length p) ≤ Z.max 0 (TraversalOptions.Depth opts) + 1) ∧
  (∀ n, n ∈ resultNodes st →
     ∃ k, nodes kg !! k = Some n ∧ is_Some (paths st !! k)).

Lemma walk_snoc p a b :
  walk p → last p = Some a → hop a b → walk (p ++ [b]).
Proof.
  intros Hw Hlast Hhop i x y Hx Hy.
  rewrite last_lookup in Hlast.
  apply lookup_app_Some in Hy as [Hy|[Hlen Hy]].
  - apply (Hw i x y); [|done].
    apply lookup_app_Some in Hx as [Hx|[Hlen _]]; [done|].
    apply lookup_lt_Some in Hy. lia.
  - apply list_lookup_singleton_Some in Hy as [Hi <-].
    apply lookup_app_Some in Hx as [Hx|[Hlen' _]]; [|lia].
    replace i with (pred (length p)) in Hx by lia. congruence.
Qed.

Lemma pathTo_snoc id p e :
  pathTo startNodes id p → e ∈ default [] (edges kg !! id) →
  pathTo startNodes (Edge.To e) (p ++ [Edge.To e]).
Proof.
  intros ((s & Hs & Hhead) & Hlast & Hwalk) He. split_and!.
  - exists s. split; [done|]. by destruct p.
  - by rewrite last_snoc.
  - eapply walk_snoc; [done..|]. by exists e.
Qed.

Lemma traverseEdge_inv current st e :
  itemOk current → depth current < TraversalOptions.Depth opts →
  e ∈ default [] (edges kg !! nodeID current) →
  bfsInv st → bfsInv (traverseEdge opts current st e).
Proof.
  intros (Hpath & Hlen & _) Hdepth He (Hq & Hp & Hn).
  unfold traverseEdge. repeat case_match; try done.
  split_and!; simpl; [|done..].
  apply Forall_app. split; [done|]. constructor; [|constructor].
  split_and!; simpl.
  - by apply (pathTo_snoc (nodeID current)).
  - rewrite length_app. simpl. lia.
  - lia.
Qed.

Lemma foldl_traverseEdge_inv current es st :
  itemOk current → depth current < TraversalOptions.Depth opts →
  (∀ e, e ∈ es → e ∈ default [] (edges kg !! nodeID current)) →
  bfsInv st → bfsInv (foldl (traverseEdge opts current) st es).
Proof.
  intros Hc Hd. revert st.
  induction es as [|e es IH]; intros st Hes Hinv; simpl; [done|].
  apply IH; [intros e' He'; apply Hes; by right|].
  apply traverseEdge_inv; [done..|apply Hes; by left|done].
Qed.

Lemma visit_inv st current :
  itemOk current → bfsInv st → bfsInv (visit kg opts st current).
Proof.
  intros Hc Hinv. unfold visit. case_bool_decide; [done|].
  destruct Hinv as (Hq & Hp & Hn).
  assert (bfsInv
            {| visited := {[nodeID current]} ∪ visited st;
               paths := paths st; resultNodes := resultNodes st;
               resultEdges := resultEdges st; queue := queue st |})
    as Hmarked by done.
  assert (∀ node, nodes kg !! nodeID current = Some node →
            bfsInv
              {| visited := {[nodeID current]} ∪ visited st;
                 paths := <[nodeID current := path current]> (paths st);
                 resultNodes := resultNodes st ++ [node];
                 resultEdges := resultEdges st; queue := queue st |})
    as Haccepted.
  { intros node Hnode. destruct Hc as (Hpath & Hlen & Hdepth).
    split_and!; simpl; [done| |].
    - intros id p. destruct (decide (nodeID current = id)) as [<-|Hne].
      + rewrite lookup_insert_eq. intros [= <-]. split; [done|lia].
      + rewrite lookup_insert_ne by done. apply Hp.
    - intros n [Hin|Hin%list_elem_of_singleton]%elem_of_app.
      + destruct (Hn n Hin) as (k & Hk & Hsome). exists k. split; [done|].
        destruct (decide (nodeID current = k)) as [<-|Hne].
        * rewrite lookup_insert_eq. eauto.
        * by rewrite lookup_insert_ne.
      + subst n. exists (nodeID current).
        rewrite lookup_insert_eq. eauto. }
  destruct (nodes kg !! nodeID current) as [node|]; simpl.
  - destruct (_ && _); simpl; [done|].
    destruct (_ <=? _) eqn:Hd; [by apply Haccepted|].
    apply foldl_traverseEdge_inv; [done|lia|done|by apply Haccepted].
  - destruct (_ <=? _) eqn:Hd; [done|].
    apply foldl_traverseEdge_inv; [done|lia|done..].
Qed.

Lemma bfsLoop_inv fuel st st' :
  bfsInv st → bfsLoop kg opts fuel st = Some st' → bfsInv st'.
Proof.
  revert st. induction fuel as [|fuel IH]; intros st Hinv; simpl.
  - destruct (queue st); [by intros [= <-]|].
    destruct (_ <? _); [done|by intros [= <-]].
  - destruct (queue st) as [|current rest] eqn:Hq; [by intros [= <-]|].
    destruct (_ <? _); [|by intros [= <-]].
    apply IH. destruct Hinv as (Hqueue & Hp & Hn).
    rewrite Hq in Hqueue. apply Forall_cons in Hqueue as [Hc Hrest].
    by apply visit_inv.
Qed.

Lemma initial_inv : bfsInv (initial kg startNodes).
Proof.
  split_and!; simpl.
  - apply Forall_forall. intros item. unfold seed.
    rewrite list_elem_of_omap. intros (id & Hid & Hitem).
    destruct (nodes kg !! id); [|done]. injection Hitem as <-.
    split_and!; simpl; [|done|lia]. split_and!.
    + by exists id.
    + done.
    + by intros [|i] a b.
  - intros id p. by rewrite lookup_empty.
  - by intros n ?%elem_of_nil.
Qed.
End traverse.

(** ** Well-formed graphs *)

Section well_keyed.
Import graph memory.

(** Every node is stored under its own identifier, as [AddNode] and the
    other methods do. *)
Definition wellKeyed (kg : KnowledgeGraph) : Prop :=
  ∀ k n, nodes kg !! k = Some n → Node.ID n = k.

Lemma wellKeyed_New name : wellKeyed (NewKnowledgeGraph name).
Proof. intros k n. simpl. by rewrite lookup_empty. Qed.

Lemma wellKeyed_AddNode kg node :
  wellKeyed kg → wellKeyed (AddNode kg node).
Proof.
  intros Hkg k n. simpl.
  destruct (decide (Node.ID node = k)) as [<-|Hne].
  - rewrite lookup_insert_eq. by intros [= <-].
  - rewrite lookup_insert_ne by done. apply Hkg.
Qed.

Lemma wellKeyed_AddEdge kg edge :
  wellKeyed kg → wellKeyed (AddEdge kg edge).
Proof. done. Qed.

Lemma wellKeyed_UpsertEdge kg edge :
  wellKeyed kg → wellKeyed (UpsertEdge kg edge).
Proof. done. Qed.

Lemma wellKeyed_DeleteEdge kg from to edgeType :
  wellKeyed kg → wellKeyed (DeleteEdge kg from to edgeType).
Proof. done. Qed.

Lemma wellKeyed_DeleteNode kg id :
  wellKeyed kg → wellKeyed (DeleteNode kg id).
Proof.
  intros Hkg k n. simpl. intros [_ Hn]%lookup_delete_Some. by apply Hkg.
Qed.

(** The graphs that the methods of the package build ([UpsertNode] is
    [AddNode], and the batch methods repeat the single ones). *)
Inductive built : KnowledgeGraph → Prop :=
| built_New name : built (NewKnowledgeGraph name)
| built_AddNode kg node : built kg → built (AddNode kg node)
| built_AddEdge kg edge : built kg → built (AddEdge kg edge)
| built_UpsertEdge kg edge : built kg → built (UpsertEdge kg edge)
| built_DeleteEdge kg from to edgeType :
    built kg → built (DeleteEdge kg from to edgeType)
| built_DeleteNode kg id : built kg → built (DeleteNode kg id).

Lemma built_wellKeyed kg : built kg → wellKeyed kg.
Proof.
  induction 1;
    eauto using wellKeyed_New, wellKeyed_AddNode, wellKeyed_AddEdge,
      wellKeyed_UpsertEdge, wellKeyed_DeleteEdge, wellKeyed_DeleteNode.
Qed.
End well_keyed.

(** ** Example data: the graphs of the specification and of the edge cases *)

Module example_graph.
Import retrieve graph memory.

Definition node (id : string) : Node.t := Node.mk id "concept" "" "test" ∅.

Definition edge (from to type : string) (weight : float) : Edge.t :=
  Edge.mk from to type weight ∅.

Definition build (ids : list string) (es : list Edge.t) : KnowledgeGraph :=
  foldl AddEdge (foldl (λ kg id, AddNode kg (node id))
                   (NewKnowledgeGraph "g") ids) es.

Lemma build_wellKeyed ids es : wellKeyed (build ids es).
Proof.
  unfold build.
  assert (∀ kg, wellKeyed kg →
            wellKeyed (foldl (λ kg id, AddNode kg (node id)) kg ids)) as Hn.
  { induction ids as [|id ids IH]; intros kg Hkg; simpl; [done|].
    by apply IH, wellKeyed_AddNode. }
  assert (∀ kg, wellKeyed kg → wellKeyed (foldl AddEdge kg es)) as He.
  { induction es as [|e es' IH]; intros kg Hkg; simpl; [done|].
    by apply IH, wellKeyed_AddEdge. }
  apply He, Hn, wellKeyed_New.
Qed.

(** A -> B (0.9) -> C (0.8) *)
Definition chain : KnowledgeGraph :=
  build ["A"; "B"; "C"]
    [edge "A" "B" "relates_to" 0.9; edge "B" "C" "relates_to" 0.8].

(** A -> B with weight 0.0 *)
Definition zeroWeight : KnowledgeGraph :=
  build ["A"; "B"] [edge "A" "B" "relates_to" 0].

(** Two edges A -> B: one of weight 0.0, then one of weight 0.7 *)
Definition parallelEdges : KnowledgeGraph :=
  build ["A"; "B"]
    [edge "A" "B" "relates_to" 0; edge "A" "B" "part_of" 0.7].

Definition options (depth : Z) : TraversalOptions.t :=
  TraversalOptions.mk depth [] [] 10 0.

Definition retriever (kg : KnowledgeGraph) (depth : Z) : Retriever :=
  NewRetriever
    (RetrieverConfig.mk (asKnowledgeGraph forwardRuntime kg) depth 10 []
       false).

Definition from (ids : list string) : Query.t :=
  Query.mk "" [] ((λ id, EntityHint.mk id "" "" 0) <$> ids) ∅ 0 0 [] 0 ∅.

(** The identifiers and scores of the items of a run. *)
Definition scores (run : Run (option Result.t * option error))
    : option (list (string * float)) :=
  match value run with
  | Some (Some res, None) =>
      Some ((λ item, (ContextItem.ID item, ContextItem.Score item))
              <$> Result.Items res)
  | _ => None
  end.
End example_graph.

(** ** Depth bound and empty start sets *)

Section traversal_properties.
Import retrieve graph memory.

(** C3, as the code has it. Depth bound. For a graph whose nodes are
    stored under their identifiers and every depth [d], [Traverse] returns
    a result, and every node of the result has a recorded path that starts
    at a start node, follows edges of the graph, ends at the node, and has
    at most [max(d, 0) + 1] nodes, that is at most [max(d, 0)] hops: a
    negative depth is a depth of zero. *)
Theorem Traverse_depth_bound (kg : KnowledgeGraph)
    (startNodes : list string) (opts : TraversalOptions.t) :
  wellKeyed kg →
  ∃ result,
    Traverse kg startNodes opts = (Some result, None) ∧
    Forall (λ node,
      ∃ path,
        TraversalResult.Paths result !! Node.ID node = Some path ∧
        Z.of_nat (length path) ≤
          Z.max 0 (TraversalOptions.Depth opts) + 1 ∧
        (∃ s, s ∈ startNodes ∧ head path = Some s) ∧
        last path = Some (Node.ID node) ∧
        walk kg path)
      (TraversalResult.Nodes result).
Proof.
  intros Hkg.
  destruct (Traverse_total kg opts startNodes) as (st & Hloop & ->).
  eexists. split; [done|]. simpl.
  destruct (bfsLoop_inv kg opts startNodes _ _ _
              (initial_inv kg opts startNodes) Hloop)
    as (_ & Hpaths & Hnodes).
  apply Forall_forall. intros n Hn.
  destruct (Hnodes n Hn) as (k & Hk & [p Hp]).
  rewrite (Hkg k n Hk). exists p.
  by destruct (Hpaths k p Hp) as ((Hs & Hlast & Hwalk) & Hlen).
Qed.

Lemma seed_missing (kg : KnowledgeGraph) (startNodes : list string) :
  (∀ id, id ∈ startNodes → nodes kg !! id = None) →
  seed kg startNodes = [].
Proof.
  induction startNodes as [|id ids IH]; intros Hmiss; [done|].
  unfold seed in *. simpl. rewrite (Hmiss id) by left.
  apply IH. intros id' Hid'. apply Hmiss. by right.
Qed.

(** C8. An empty start set is not an error. When no start node is in the
    graph, [Traverse] returns a result without nodes, edges or paths, and
    no error. When the graph retriever ends up with no start nodes, and
    when it is backed by the in-memory graph and none of the hinted nodes
    is in the graph, it returns a result with an empty item list and no
    error. *)
Theorem empty_start_is_not_an_error :
  (∀ kg startNodes opts,
     (∀ id, id ∈ startNodes → nodes kg !! id = None) →
     Traverse kg startNodes opts =
       (Some (TraversalResult.mk [] [] ∅), None)) ∧
  (∀ rt r q,
     hintedStartNodes q = [] →
     KnowledgeGraph.FindNodes (RetrieverConfig.Graph (config r)) ""
       (Query.Filters q) = ([], None) →
     graph.Retrieve rt r q =
       ret (Some (Result.mk [] q (ResultMetadata.mk 0 0 [ModeGraph] false)),
            None)) ∧
  (∀ rt rt' r q kg,
     RetrieverConfig.Graph (config r) = asKnowledgeGraph rt' kg →
     hintedStartNodes q ≠ [] →
     (∀ id, id ∈ hintedStartNodes q → nodes kg !! id = None) →
     ∃ res, value (graph.Retrieve rt r q) = Some (Some res, None) ∧
            Result.Items res = [] ∧ Result.Query res = q).
Proof.
  split_and!.
  - intros kg startNodes opts Hmiss. unfold Traverse, initial.
    rewrite (seed_missing kg startNodes Hmiss). simpl.
    by destruct (EdgeCount kg).
  - intros rt r q Hhints Hfind. unfold graph.Retrieve.
    rewrite Hhints. simpl. by rewrite Hfind.
  - intros rt rt' r q kg Hgraph Hne Hmiss. unfold graph.Retrieve.
    destruct (hintedStartNodes q) as [|id ids] eqn:Hhints; [done|].
    change (Z.of_nat (length (id :: ids)) =? 0) with
      (Z.pos (Pos.of_succ_nat (length ids)) =? 0).
    simpl (_ =? _). cbv iota. rewrite Hgraph. simpl.
    unfold Traverse, initial. rewrite (seed_missing kg (id :: ids) Hmiss).
    simpl. destruct (EdgeCount kg); simpl;
      destruct (RetrieverConfig.Observer (config r)); simpl; eauto.
Qed.
End traversal_properties.

(** ** The weight of a hop *)

Section score_properties.
Import retrieve graph memory.

(** The weight of a hop as the specification words it: the weight of the
    traversed edge from [a] to [b] (the last one recorded), and 0.5 only
    when the traversed-edge list has no such edge. *)
Definition statedWeight (edges : list Edge.t) (a b : string) : float :=
  match last (filter (λ e, Edge.From e = a ∧ Edge.To e = b) edges) with
  | Some e => Edge.Weight e
  | None => 0.5%float
  end.

(** The character "-". *)
Definition dash : Ascii.ascii := Ascii.ascii_of_nat 45.

Fixpoint hasDash (s : string) : bool :=
  match s with
  | EmptyString => false
  | String c s => if Ascii.eqb c dash then true else hasDash s
  end.

(** Keys of edges between identifiers free of "-" determine the
    endpoints. *)
Lemma edgeKey_inj (a b a' b' : string) :
  hasDash a = false → hasDash a' = false →
  edgeKey a b = edgeKey a' b' → a = a' ∧ b = b'.
Proof.
  unfold edgeKey. revert a'.
  induction a as [|c a IH]; intros [|c' a'] Ha Ha' Hkey.
  - by simplify_eq/=.
  - by simplify_eq/=.
  - by simplify_eq/=.
  - simpl in *. injection Hkey as <- Hrest.
    destruct (Ascii.eqb c dash); [done|].
    by destruct (IH a' Ha Ha' Hrest) as [-> ->].
Qed.

(** For such identifiers the recorded weight of a hop is the weight of
    the last edge between its endpoints. *)
Lemma lastWeight_endpoints (edges : list Edge.t) (a b : string) :
  hasDash a = false →
  Forall (λ e, hasDash (Edge.From e) = false) edges →
  lastWeight edges a b =
  Edge.Weight <$>
    last (filter (λ e, Edge.From e = a ∧ Edge.To e = b) edges).
Proof.
  intros Ha Hedges. unfold lastWeight. do 2 f_equal.
  induction Hedges as [|e edges He _ IH]; [done|].
  rewrite !filter_cons, IH.
  destruct (decide (edgeKey (Edge.From e) (Edge.To e) = edgeKey a b))
    as [Hkey|Hkey].
  - destruct (edgeKey_inj _ _ _ _ He Ha Hkey) as [H1 H2].
    by rewrite decide_True.
  - rewrite decide_False; [done|]. intros [H1 H2]. apply Hkey.
    by rewrite H1, H2.
Qed.

(** C2, as the code has it. Graph path scoring: a start node (a path of
    one node) is assigned score exactly 1.0; a node with a recorded path
    is assigned the product over its hops of [wi * 0.8], where [wi] is the
    weight last recorded in the traversed-edge list under the key of the
    hop, and 0.5 when no weight is recorded under that key or when that
    weight is 0. Every item of the graph retriever carries the score of
    its recorded path. *)
Theorem computePathScore_product (path : list string)
    (edges : list Edge.t) :
  (∀ id, computePathScore [id] edges = 1%float) ∧
  computePathScore path edges =
    foldl (λ score hop,
             (score * (usedWeight edges hop.1 hop.2 * 0.8))%float)
      1%float (zip path (tail path)) ∧
  (∀ a b,
     usedWeight edges a b =
       match Edge.Weight <$>
               last (filter (λ e, edgeKey (Edge.From e) (Edge.To e) =
                                  edgeKey a b) edges) with
       | Some weight => if (weight =? 0)%float then 0.5%float else weight
       | None => 0.5%float
       end) ∧
  (∀ r q result,
     Forall (λ item,
       ContextItem.Score item =
         computePathScore
           (default []
              (TraversalResult.Paths result !! ContextItem.ID item))
           (TraversalResult.Edges result))
       (itemsOf r q result)).
Proof.
  split_and!.
  - done.
  - apply computePathScore_hopProduct.
  - done.
  - intros r q result. eapply Forall_impl; [apply itemsOf_score|].
    by intros item [? _].
Qed.

(** C10, as the code has it. The weight looked up for a hop is the one
    last recorded under the key of the hop. When none is recorded, or when
    it is 0, the hop contributes [0.5 * 0.8]; otherwise it contributes
    that weight times 0.8, also when an earlier edge with the same key has
    weight 0. A node reached over one hop whose recorded weight is 0
    receives the score [0.5 * 0.8], which is positive. *)
Theorem hopWeight_zero_is_default (edges : list Edge.t) (a b : string) :
  (lastWeight edges a b = None →
     hopWeight (edgeWeights edges) a b = 0.5%float) ∧
  (∀ weight, lastWeight edges a b = Some weight →
     (weight =? 0)%float = true →
     hopWeight (edgeWeights edges) a b = 0.5%float) ∧
  (∀ weight, lastWeight edges a b = Some weight →
     (weight =? 0)%float = false →
     hopWeight (edgeWeights edges) a b = weight) ∧
  (hopWeight (edgeWeights edges) a b = 0.5%float →
     computePathScore [a; b] edges = (1 * (0.5 * 0.8))%float ∧
     (0 <? computePathScore [a; b] edges)%float = true).
Proof.
  rewrite hopWeight_usedWeight. unfold usedWeight. split_and!.
  - by intros ->.
  - by intros weight -> ->.
  - by intros weight -> ->.
  - intros Hw. rewrite computePathScore_hopProduct.
    unfold hopProduct, usedWeight. simpl. by rewrite Hw.
Qed.
End score_properties.

(** ** The examples of the specification *)

Section examples.
Import retrieve.

(** Fusion example: x = 0.8*0.6 + 0.6*0.4 and y = 0.5*0.4; with [TopK = 1]
    only x is returned. *)
Example fusion_scores :
  (λ item, (ContextItem.ID item, ContextItem.Score item)) <$>
    hybrid.mergeResults backwardRuntime
      (example.both hybrid.PolicyParallel) example.vectorItems
      example.graphItems =
  [("x", (0.8 * 0.6 + 0.6 * 0.4)%float); ("y", (0.5 * 0.4)%float)].
Proof. vm_compute. reflexivity. Qed.

Example fusion_top1 :
  example_graph.scores
    (hybrid.Retrieve forwardRuntime (example.both hybrid.PolicyParallel)
       (example.query 1)) =
  Some [("x", (0.8 * 0.6 + 0.6 * 0.4)%float)].
Proof. vm_compute. reflexivity. Qed.

(** Two absent retrievers: no items, and only "hybrid" among the modes. *)
Example no_retrievers :
  value (hybrid.Retrieve forwardRuntime (example.retriever None None "")
           (example.query 0)) =
  Some (Some (Result.mk [] (example.query 0)
                (ResultMetadata.mk 0 0 [ModeHybrid] false)),
        None).
Proof. vm_compute. reflexivity. Qed.

(** Traversal example: from A, depth 1 yields A and B, depth 2 yields A,
    B and C, with the decayed scores. *)
Example chain_depth1 :
  example_graph.scores
    (graph.Retrieve forwardRuntime
       (example_graph.retriever example_graph.chain 1)
       (example_graph.from ["A"])) =
  Some [("A", 1%float); ("B", (1 * (0.9 * 0.8))%float)].
Proof. vm_compute. reflexivity. Qed.

Example chain_depth2 :
  example_graph.scores
    (graph.Retrieve forwardRuntime
       (example_graph.retriever example_graph.chain 2)
       (example_graph.from ["A"])) =
  Some [("A", 1%float); ("B", (1 * (0.9 * 0.8))%float);
        ("C", (1 * (0.9 * 0.8) * (0.8 * 0.8))%float)].
Proof. vm_compute. reflexivity. Qed.

(** A duplicated identifier: the higher score replaces the first
    occurrence in place; on a tie the first occurrence stays. *)
Example deduplicate_run :
  hybrid.deduplicate
    [example.item "x" 0.6; example.item "y" 0.5; example.item "x" 0.7;
     ContextItem.mk "y" "later" "" 0.5 ∅ (Provenance.mk "" "" [] 0 0)] =
  Some [example.item "x" 0.7; example.item "y" 0.5].
Proof. vm_compute. reflexivity. Qed.
End examples.

(** ** Edges of weight zero *)

Section zero_weight.
Import retrieve graph memory.

(** C2 as stated fails for an edge of weight 0.0. In the graph A -> B with
    weight 0.0, B is reached from A over the path [A, B], whose only hop
    has the traversed edge of weight 0; the stated product is
    [1 * (0 * 0.8) = 0], and the retriever assigns [0.5 * 0.8]. *)
Lemma zero_weight_edge_counterexample :
  (∃ result,
     Traverse example_graph.zeroWeight ["A"] (example_graph.options 2) =
       (Some result, None) ∧
     TraversalResult.Paths result !! "B" = Some ["A"; "B"] ∧
     TraversalResult.Edges result =
       [example_graph.edge "A" "B" "relates_to" 0] ∧
     hopProduct (statedWeight (TraversalResult.Edges result)) ["A"; "B"] =
       0%float) ∧
  example_graph.scores
    (graph.Retrieve forwardRuntime
       (example_graph.retriever example_graph.zeroWeight 2)
       (example_graph.from ["A"])) =
    Some [("A", 1%float); ("B", (0.5 * 0.8)%float)] ∧
  (0.5 * 0.8 =? 0)%float = false.
Proof.
  split_and!.
  - eexists. split_and!; [vm_compute; reflexivity|..];
      vm_compute; reflexivity.
  - vm_compute. reflexivity.
  - vm_compute. reflexivity.
Qed.

(** C10 as stated fails when a later edge with the same endpoints has a
    non-zero weight. With the edges A -> B of weight 0.0 and then A -> B of
    weight 0.7, B is first reached over the edge of weight 0.0 and both
    edges are recorded; the hop from A to B contributes [0.7 * 0.8], not
    [0.5 * 0.8]. *)
Lemma shadowed_zero_weight_counterexample :
  (∃ result,
     Traverse example_graph.parallelEdges ["A"] (example_graph.options 2) =
       (Some result, None) ∧
     TraversalResult.Paths result !! "B" = Some ["A"; "B"] ∧
     TraversalResult.Edges result =
       [example_graph.edge "A" "B" "relates_to" 0;
        example_graph.edge "A" "B" "part_of" 0.7] ∧
     hopWeight (edgeWeights (TraversalResult.Edges result)) "A" "B" =
       0.7%float) ∧
  example_graph.scores
    (graph.Retrieve forwardRuntime
       (example_graph.retriever example_graph.parallelEdges 2)
       (example_graph.from ["A"])) =
    Some [("A", 1%float); ("B", (0.7 * 0.8)%float)] ∧
  (0.7 * 0.8 =? 0.5 * 0.8)%float = false.
Proof.
  split_and!.
  - eexists. split_and!; [vm_compute; reflexivity|..];
      vm_compute; reflexivity.
  - vm_compute. reflexivity.
  - vm_compute. reflexivity.
Qed.

(** C3 as stated fails for a negative depth. With [Depth = -1] the
    traversal of the chain A -> B -> C from A still returns A, with the
    recorded path [A] of one node, where the stated bound is [d+1 = 0]
    nodes. *)
Lemma negative_depth_counterexample :
  ∃ result,
    Traverse example_graph.chain ["A"] (example_graph.options (-1)) =
      (Some result, None) ∧
    TraversalResult.Nodes result = [example_graph.node "A"] ∧
    TraversalResult.Paths result !! "A" = Some ["A"] ∧
    -1 + 1 < Z.of_nat (length ["A"]).
Proof.
  eexists. split_and!; [vm_compute; reflexivity|..];
    vm_compute; reflexivity.
Qed.

(** C6 as stated fails for a score that is not a number. The vector
    retriever returns a (1), n (NaN) and b (2); these are the items left
    after deduplication, in this order. No comparison with the NaN holds,
    so the insertion sort that [sort.Slice] runs on a short slice moves
    nothing, and with [TopK = 1] the pipeline returns a, whose score 1 is
    less than the score 2 of the omitted b. *)
Lemma nan_score_counterexample :
  example.scoresOf
    <$> hybrid.deduplicate
          (hybrid.mergeResults forwardRuntime example.withNaN
             example.nanItems []) =
    Some [("a", 1%float); ("n", nan); ("b", 2%float)] ∧
  (∃ res,
     value (hybrid.Retrieve forwardRuntime example.withNaN
              (example.query 1)) = Some (Some res, None) ∧
     example.scoresOf (Result.Items res) = [("a", 1%float)]) ∧
  (1 <? 2)%float = true.
Proof.
  split_and!.
  - vm_compute. reflexivity.
  - eexists. split; vm_compute; reflexivity.
  - vm_compute. reflexivity.
Qed.
End zero_weight.

(** ** The properties at concrete inputs *)

Section instances.
Import retrieve.

(** The chain A -> B -> C from A with depth 1. *)
Lemma Traverse_depth_bound_witness :
  wellKeyed example_graph.chain ∧
  ∃ result,
    memory.Traverse example_graph.chain ["A"] (example_graph.options 1) =
      (Some result, None) ∧
    Forall (λ node,
      ∃ path,
        graph.TraversalResult.Paths result !! graph.Node.ID node =
          Some path ∧
        Z.of_nat (length path) ≤ 2 ∧ walk example_graph.chain path)
      (graph.TraversalResult.Nodes result).
Proof.
  split; [apply example_graph.build_wellKeyed|].
  destruct (Traverse_depth_bound example_graph.chain ["A"]
              (example_graph.options 1)) as (result & Hresult & Hnodes).
  - apply example_graph.build_wellKeyed.
  - exists result. split; [done|].
    eapply Forall_impl; [exact Hnodes|].
    intros node (path & Hpath & Hlen & _ & _ & Hwalk). eauto.
Defined.

(** The fusion example under the VectorThenGraph policy: the graph
    retriever is called with the hint x. *)
Lemma Retrieve_vector_then_graph_witness :
  ∃ graphQuery,
    retrieverCalls
      (hybrid.Retrieve forwardRuntime
         (example.both hybrid.PolicyVectorThenGraph) (example.query 0)) =
      [CallVector (example.query 0); CallGraph graphQuery] ∧
    Query.Entities graphQuery = [EntityHint.mk "x" "" "x" 0].
Proof.
  pose proof (Retrieve_vector_then_graph forwardRuntime
                (example.both hybrid.PolicyVectorThenGraph)
                (example.query 0) example.vectorRetriever
                example.graphRetriever eq_refl eq_refl eq_refl) as H.
  simpl in H. destruct H as (graphQuery & Hcalls & Hentities & _).
  exists graphQuery. by split.
Defined.

(** Both retrievers fail: the vector error is returned. *)
Lemma Retrieve_parallel_errors_witness :
  value
    (hybrid.Retrieve forwardRuntime
       (example.retriever (Some (example.failing "vector down"))
          (Some (example.failing "graph down")) hybrid.PolicyParallel)
       (example.query 0)) =
  Some (None, Some "vector down").
Proof.
  apply (proj1 (proj2
           (Retrieve_parallel_errors forwardRuntime
              (example.retriever (Some (example.failing "vector down"))
                 (Some (example.failing "graph down"))
                 hybrid.PolicyParallel)
              (example.query 0) eq_refl))
           (example.failing "vector down") "vector down");
    reflexivity.
Defined.

(** The fusion example with [TopK = 1]. *)
Lemma Retrieve_topK_witness :
  ∃ res (omitted : list ContextItem.t),
    hybrid.Retrieve forwardRuntime (example.both hybrid.PolicyParallel)
      (example.query 1) =
      (Some (Some res, None),
       [CallVector (example.query 1); CallGraph (example.query 1)]) ∧
    Z.of_nat (length (Result.Items res)) = 1 ∧
    (∀ a b, a ∈ Result.Items res → b ∈ omitted →
       (ContextItem.Score b <=? ContextItem.Score a)%float = true).
Proof.
  destruct (Retrieve_topK forwardRuntime
              (example.both hybrid.PolicyParallel) (example.query 1)
              (hybrid.mergeResults forwardRuntime
                 (example.both hybrid.PolicyParallel) example.vectorItems
                 example.graphItems)
              (hybrid.mergeResults forwardRuntime
                 (example.both hybrid.PolicyParallel) example.vectorItems
                 example.graphItems)
              [ModeHybrid; ModeVector; ModeGraph] 3
              [CallVector (example.query 1); CallGraph (example.query 1)])
    as (res & omitted & Hres & Hlen & _ & Horder).
  - done.
  - reflexivity.
  - vm_compute. reflexivity.
  - vm_compute. reflexivity.
  - exists res, omitted. split_and!; [done| |].
    + rewrite Hlen. vm_compute. reflexivity.
    + apply Horder. by_decision.
Defined.

(** The fusion example with [DedupByID] set. *)
Lemma deduplicate_keeps_best_witness :
  ∃ res,
    hybrid.Retrieve forwardRuntime (example.both hybrid.PolicyParallel)
      (example.query 0) =
      (Some (Some res, None),
       [CallVector (example.query 0); CallGraph (example.query 0)]) ∧
    NoDup (ContextItem.ID <$> Result.Items res) ∧
    Forall
      (bestOf
         (hybrid.mergeResults forwardRuntime
            (example.both hybrid.PolicyParallel) example.vectorItems
            example.graphItems))
      (Result.Items res).
Proof.
  apply (proj2 (proj2 deduplicate_keeps_best) forwardRuntime
           (example.both hybrid.PolicyParallel) (example.query 0) _
           [ModeHybrid; ModeVector; ModeGraph] 3).
  - reflexivity.
  - reflexivity.
  - vm_compute. reflexivity.
Defined.

(** The chain A -> B -> C with a start node that is not in the graph, and
    with no hint and a filter that matches no node. *)
Lemma empty_start_is_not_an_error_witness :
  memory.Traverse example_graph.chain ["Z"] (example_graph.options 2) =
    (Some (graph.TraversalResult.mk [] [] ∅), None) ∧
  (let q := Query.mk "" [] [] {["nonexistent" := "value"]} 0 0 [] 0 ∅ in
   graph.Retrieve forwardRuntime
     (example_graph.retriever example_graph.chain 2) q =
   ret (Some (Result.mk [] q (ResultMetadata.mk 0 0 [ModeGraph] false)),
        None)) ∧
  (∃ res,
     value (graph.Retrieve forwardRuntime
              (example_graph.retriever example_graph.chain 2)
              (example_graph.from ["Z"])) = Some (Some res, None) ∧
     Result.Items res = []).
Proof.
  destruct empty_start_is_not_an_error as (Htraverse & Hnone & Hmissing).
  split_and!.
  - apply Htraverse. intros id ->%list_elem_of_singleton.
    vm_compute. reflexivity.
  - apply Hnone; vm_compute; reflexivity.
  - destruct (Hmissing forwardRuntime forwardRuntime
                (example_graph.retriever example_graph.chain 2)
                (example_graph.from ["Z"]) example_graph.chain)
      as (res & Hres & Hitems & _).
    + reflexivity.
    + done.
    + intros id ->%list_elem_of_singleton. vm_compute. reflexivity.
    + by exists res.
Defined.

(** One edge A -> B of weight 0.0. *)
Lemma hopWeight_zero_is_default_witness :
  let edges := [example_graph.edge "A" "B" "relates_to" 0] in
  graph.hopWeight (graph.edgeWeights edges) "A" "B" = 0.5%float ∧
  graph.computePathScore ["A"; "B"] edges = (1 * (0.5 * 0.8))%float ∧
  (0 <? graph.computePathScore ["A"; "B"] edges)%float = true.
Proof.
  destruct (hopWeight_zero_is_default
              [example_graph.edge "A" "B" "relates_to" 0] "A" "B")
    as (_ & Hzero & _ & Hscore).
  assert (graph.hopWeight
            (graph.edgeWeights [example_graph.edge "A" "B" "relates_to" 0])
            "A" "B" = 0.5%float) as Hw.
  { apply (Hzero 0%float); vm_compute; reflexivity. }
  split; [exact Hw|]. by apply Hscore.
Defined.
End instances.

(** * The rest of the packages

    The methods of the in-memory graph that the traversal does not use, the
    vector retriever and the in-memory vector index behind it, and the
    rerankers that [hybrid.Retrieve] can be configured with. *)

(** ** Package [memory]: the other methods of the knowledge graph *)

Module memory_batch.
Import graph memory.

(** [kg.nodes[node.ID] = node] *)
Definition UpsertNode (kg : KnowledgeGraph) (node : Node.t)
    : KnowledgeGraph :=
  {| name := name kg;
     nodes := <[Node.ID node := node]> (nodes kg);
     edges := edges kg |}.

(** [for _, node := range nodes { kg.nodes[node.ID] = node }] *)
Definition AddNodeBatch (kg : KnowledgeGraph) (batch : list Node.t)
    : KnowledgeGraph :=
  {| name := name kg;
     nodes := foldl (λ m node, <[Node.ID node := node]> m) (nodes kg) batch;
     edges := edges kg |}.

Definition UpsertNodeBatch (kg : KnowledgeGraph) (batch : list Node.t)
    : KnowledgeGraph :=
  {| name := name kg;
     nodes := foldl (λ m node, <[Node.ID node := node]> m) (nodes kg) batch;
     edges := edges kg |}.

(** [kg.edges[edge.From] = append(kg.edges[edge.From], edge)] for every
    edge of the batch. *)
Definition AddEdgeBatch (kg : KnowledgeGraph) (batch : list Edge.t)
    : KnowledgeGraph :=
  {| name := name kg;
     nodes := nodes kg;
     edges :=
       foldl (λ m edge,
                <[Edge.From edge :=
                    default [] (m !! Edge.From edge) ++ [edge]]> m)
         (edges kg) batch |}.

Definition UpsertEdgeBatch (kg : KnowledgeGraph) (batch : list Edge.t)
    : KnowledgeGraph :=
  {| name := name kg;
     nodes := nodes kg;
     edges :=
       foldl (λ m edge,
                let existingEdges := default [] (m !! Edge.From edge) in
                let filtered :=
                  filter (λ e, Edge.To e ≠ Edge.To edge ∨
                               Edge.Type_ e ≠ Edge.Type_ edge)
                    existingEdges in
                <[Edge.From edge := filtered ++ [edge]]> m)
         (edges kg) batch |}.

(** The first loop deletes the nodes and their outward edges, the second
    collects the identifiers in [idSet], the third drops the edges that
    point to a deleted node. *)
Definition DeleteNodeBatch (kg : KnowledgeGraph) (ids : list string)
    : KnowledgeGraph :=
  let idSet : gset string := list_to_set ids in
  {| name := name kg;
     nodes := foldl (λ m id, delete id m) (nodes kg) ids;
     edges :=
       filter (λ e, Edge.To e ∉ idSet) <$>
         foldl (λ m id, delete id m) (edges kg) ids |}.
End memory_batch.

(** ** Package [vector]: the index interface and the vector retriever *)

Module vector.
Import retrieve.

Module Node.
(** [Embedding] holds [float32] values, read as [float64] wherever they
    are used. *)
Record t := mk {
  ID : string;
  Content : string;
  Embedding : list float;
  Source : string;
  Metadata : gmap string string
}.
End Node.

Module SearchResult.
Record t := mk { Node : Node.t; Score : float }.
End SearchResult.

(** The methods of the [Index] interface that the retriever calls; a
    search that panics returns [None]. *)
Module Index.
Record t := mk {
  Search : list float → Z → gmap string string →
           option (list SearchResult.t * option error);
  Name : string
}.
End Index.

(** [Embed(ctx, text)] of the [Embedder] interface. *)
Definition Embedder := string → list float * option error.

Module RetrieverConfig.
Record t := mk {
  Index : Index.t;
  Embedder : option vector.Embedder;
  DefaultTopK : Z;
  MinScore : float;
  Observer : bool
}.
End RetrieverConfig.

Record Retriever := { config : RetrieverConfig.t }.

Definition NewRetriever (cfg : RetrieverConfig.t) : Retriever :=
  let topK :=
    if RetrieverConfig.DefaultTopK cfg =? 0 then 10
    else RetrieverConfig.DefaultTopK cfg in
  {| config :=
       RetrieverConfig.mk (RetrieverConfig.Index cfg)
         (RetrieverConfig.Embedder cfg) topK (RetrieverConfig.MinScore cfg)
         (RetrieverConfig.Observer cfg) |}.

(** The notification sent to the observer. *)
Inductive Event :=
| OnVectorSearch (backend : string) (topK resultCount latencyMS : Z).

(** The loop turning the search results into context items. *)
Definition itemsOf (r : Retriever) (minScore : float)
    (results : list SearchResult.t) : list ContextItem.t :=
  omap (λ res,
    if (SearchResult.Score res <? minScore)%float then None
    else
      let node := SearchResult.Node res in
      Some (ContextItem.mk (Node.ID node) (Node.Content node)
              (Node.Source node) (SearchResult.Score res)
              (Node.Metadata node)
              (Provenance.mk ModeVector
                 (Index.Name (RetrieverConfig.Index (config r))) []
                 (SearchResult.Score res) 0%float)))
    results.

(** The value is [None] when the search panics; the list holds the
    notifications sent to the observer. *)
Definition Retrieve (rt : Runtime) (r : Retriever) (q : Query.t)
    : option (option Result.t * option error) * list Event :=
  let index := RetrieverConfig.Index (config r) in
  let embedded :=
    match RetrieverConfig.Embedder (config r) with
    | Some embedder =>
        if Z.of_nat (length (Query.Embedding q)) =? 0 then
          let '(embedding, err) := embedder (Query.Text q) in
          match err with
          | Some err => inl err
          | None => inr embedding
          end
        else inr (Query.Embedding q)
    | None => inr (Query.Embedding q)
    end in
  match embedded with
  | inl err => (Some (None, Some err), [])
  | inr embedding =>
      let topK :=
        if Query.TopK q =? 0 then RetrieverConfig.DefaultTopK (config r)
        else Query.TopK q in
      match Index.Search index embedding topK (Query.Filters q) with
      | None => (None, [])
      | Some (_, Some err) => (Some (None, Some err), [])
      | Some (results, None) =>
          let minScore :=
            if (Query.MinScore q =? 0)%float
            then RetrieverConfig.MinScore (config r)
            else Query.MinScore q in
          let items := itemsOf r minScore results in
          let latency := rt_elapsedMS rt in
          (Some (Some (Result.mk items q
                         (ResultMetadata.mk (Z.of_nat (length results))
                            latency [ModeVector] false)),
                 None),
           if RetrieverConfig.Observer (config r)
           then [OnVectorSearch (Index.Name index) topK
                   (Z.of_nat (length items)) latency]
           else [])
      end
  end.
End vector.

(** ** Package [memory]: the in-memory vector index *)

Module memory_vector.
Import vector.

Record VectorIndex := {
  name : string;
  nodes : gmap string Node.t
}.

Definition NewVectorIndex (name : string) : VectorIndex :=
  {| name := name; nodes := ∅ |}.

(** [Insert] and [Upsert]: [idx.nodes[node.ID] = node] *)
Definition Insert (idx : VectorIndex) (node : Node.t) : VectorIndex :=
  {| name := name idx; nodes := <[Node.ID node := node]> (nodes idx) |}.

Definition Upsert (idx : VectorIndex) (node : Node.t) : VectorIndex :=
  {| name := name idx; nodes := <[Node.ID node := node]> (nodes idx) |}.

Definition Delete (idx : VectorIndex) (id : string) : VectorIndex :=
  {| name := name idx; nodes := delete id (nodes idx) |}.

Definition InsertBatch (idx : VectorIndex) (batch : list Node.t)
    : VectorIndex :=
  {| name := name idx;
     nodes := foldl (λ m node, <[Node.ID node := node]> m) (nodes idx)
                batch |}.

Definition UpsertBatch (idx : VectorIndex) (batch : list Node.t)
    : VectorIndex :=
  {| name := name idx;
     nodes := foldl (λ m node, <[Node.ID node := node]> m) (nodes idx)
                batch |}.

Definition DeleteBatch (idx : VectorIndex) (ids : list string)
    : VectorIndex :=
  {| name := name idx;
     nodes := foldl (λ m id, delete id m) (nodes idx) ids |}.

Definition Name (idx : VectorIndex) : string := name idx.

Definition Count (idx : VectorIndex) : Z := Z.of_nat (size (nodes idx)).

(** The three sums of [cosineSimilarity], over the common indices. *)
Definition sums (a b : list float) : float * float * float :=
  foldl (λ acc xy,
           let '(dotProduct, normA, normB) := acc in
           ((dotProduct + xy.1 * xy.2)%float,
            (normA + xy.1 * xy.1)%float,
            (normB + xy.2 * xy.2)%float))
    (0%float, 0%float, 0%float) (zip a b).

Definition cosineSimilarity (a b : list float) : float :=
  if negb (Z.of_nat (length a) =? Z.of_nat (length b)) ||
     (Z.of_nat (length a) =? 0)
  then 0%float
  else
    let '(dotProduct, normA, normB) := sums a b in
    if (normA =? 0)%float || (normB =? 0)%float then 0%float
    else (dotProduct / (sqrt normA * sqrt normB))%float.

(** The local [scored] struct of [Search]. *)
Record scored := { node : Node.t; score : float }.

(** The loop over [idx.nodes]. *)
Definition candidatesOf (rt : Runtime) (idx : VectorIndex)
    (embedding : list float) (filters : gmap string string)
    : list scored :=
  omap (λ kv : string * Node.t,
    if memory.matchesFilters (Node.Metadata kv.2) filters
    then Some {| node := kv.2;
                 score := cosineSimilarity embedding (Node.Embedding kv.2) |}
    else None)
    (range (rt_range rt) (map_to_list (nodes idx))).

(** [make([]vector.SearchResult, k)] panics when [k] is negative. *)
Definition Search (rt : Runtime) (idx : VectorIndex)
    (embedding : list float) (k : Z) (filters : gmap string string)
    : option (list SearchResult.t * option retrieve.error) :=
  let candidates := candidatesOf rt idx embedding filters in
  let candidates :=
    sortSlice (rt_sort rt) (λ a b, (score b <? score a)%float) candidates in
  let k :=
    if Z.of_nat (length candidates) <? k then Z.of_nat (length candidates)
    else k in
  if k <? 0 then None
  else
    Some ((λ c, SearchResult.mk (node c) (score c)) <$>
            take (Z.to_nat k) candidates,
          None).

(** The in-memory index behind the [vector.Index] interface. *)
Definition asIndex (rt : Runtime) (idx : VectorIndex) : Index.t :=
  Index.mk (Search rt idx) (Name idx).
End memory_vector.

(** ** Package [rerank]: the cross-encoder reranker and the chain *)

Module rerank.
Import retrieve.

(** The [CrossEncoderScorer] interface. *)
Module CrossEncoderScorer.
Record t := mk {
  Score : string → list string → list float * option error;
  Model : string
}.
End CrossEncoderScorer.

Module CrossEncoderConfig.
Record t := mk {
  Scorer : CrossEncoderScorer.t;
  TopK : Z;
  MinScore : float
}.
End CrossEncoderConfig.

Record CrossEncoder := { config : CrossEncoderConfig.t }.

Definition NewCrossEncoder (cfg : CrossEncoderConfig.t) : CrossEncoder :=
  {| config := cfg |}.

(** The body of the scoring loop: the item at index [i] takes the score
    at index [i] when there is one. *)
Definition rescore (scores : list float) (i : nat) (item : ContextItem.t)
    : ContextItem.t :=
  match scores !! i with
  | Some s =>
      ContextItem.mk (ContextItem.ID item) (ContextItem.Content item)
        (ContextItem.Source item) s (ContextItem.Metadata item)
        (Provenance.mk (Provenance.Mode (ContextItem.Provenance item))
           (Provenance.Backend (ContextItem.Provenance item))
           (Provenance.GraphPath (ContextItem.Provenance item))
           (Provenance.SimilarityScore (ContextItem.Provenance item)) s)
  | None => item
  end.

Definition CrossEncoder_Rerank (rt : Runtime) (r : CrossEncoder)
    (q : Query.t) (items : list ContextItem.t)
    : list ContextItem.t * option error :=
  if Z.of_nat (length items) =? 0 then (items, None)
  else
    let documents := ContextItem.Content <$> items in
    let '(scores, err) :=
      CrossEncoderScorer.Score (CrossEncoderConfig.Scorer (config r))
        (Query.Text q) documents in
    match err with
    | Some err => ([], Some err)
    | None =>
        let result :=
          filter (λ item,
                    (CrossEncoderConfig.MinScore (config r) <=?
                       ContextItem.Score item)%float = true)
            (imap (rescore scores) items) in
        let result :=
          sortSlice (rt_sort rt)
            (λ a b, (ContextItem.Score b <? ContextItem.Score a)%float)
            result in
        let result :=
          if (0 <? CrossEncoderConfig.TopK (config r)) &&
             (CrossEncoderConfig.TopK (config r) <?
                Z.of_nat (length result))
          then take (Z.to_nat (CrossEncoderConfig.TopK (config r))) result
          else result in
        (result, None)
    end.

(** [Chain]: the rerankers run in order, each on the output of the one
    before; the first error ends the chain. *)
Record Chain := { rerankers : list retrieve.Reranker }.

Definition NewChain (rerankers : list retrieve.Reranker) : Chain :=
  {| rerankers := rerankers |}.

Fixpoint chainLoop (rs : list retrieve.Reranker) (q : Query.t)
    (items : list ContextItem.t) : list ContextItem.t * option error :=
  match rs with
  | [] => (items, None)
  | r :: rest =>
      let '(items, err) := r q items in
      match err with
      | Some err => ([], Some err)
      | None => chainLoop rest q items
      end
  end.

Definition Chain_Rerank (c : Chain) : retrieve.Reranker :=
  chainLoop (rerankers c).
End rerank.

(** * Further properties *)

(** ** What a traversal returns *)

Section traverse_result.
Import graph memory.
Context (kg : KnowledgeGraph) (opts : TraversalOptions.t).

Lemma containsString_elem_of (slice : list string) (s : string) :
  containsString slice s = true ↔ s ∈ slice.
Proof.
  induction slice as [|item rest IH]; simpl.
  { split; [done|by intros ?%elem_of_nil]. }
  destruct (String.eqb item s) eqn:Heq.
  - apply String.eqb_eq in Heq as ->. split; [left|done].
  - apply String.eqb_neq in Heq. rewrite IH, elem_of_cons. naive_solver.
Qed.

(** The filter [containsString] implements: an empty list allows every
    type. *)
Definition typeAllowed (types : list string) (type : string) : Prop :=
  types = [] ∨ type ∈ types.

Lemma typeAllowed_spec (types : list string) (type : string) :
  (0 <? Z.of_nat (length types)) && negb (containsString types type) = false
  ↔ typeAllowed types type.
Proof.
  unfold typeAllowed. destruct types as [|t types].
  { simpl. split; [by left|done]. }
  change (0 <? Z.of_nat (length (t :: types))) with
    (0 <? Z.pos (Pos.of_succ_nat (length types))).
  simpl (0 <? _). rewrite andb_true_l, negb_false_iff.
  rewrite containsString_elem_of. naive_solver.
Qed.

(** An edge that the traversal may follow. *)
Definition edgeAllowed (e : Edge.t) : Prop :=
  typeAllowed (TraversalOptions.EdgeTypes opts) (Edge.Type_ e) ∧
  (Edge.Weight e <? TraversalOptions.MinWeight opts)%float = false.

Definition recorded (st : bfsState) (e : Edge.t) : Prop :=
  edgeAllowed e ∧
  ∃ k, k ∈ visited st ∧ e ∈ default [] (edges kg !! k).

(** The result so far: the nodes stored under distinct visited keys, each
    with a path, and edges that pass the filters. *)
Definition resultInv (st : bfsState) : Prop :=
  (∃ keys, NoDup keys ∧
     Forall2 (λ k n, nodes kg !! k = Some n) keys (resultNodes st) ∧
     dom (paths st) = list_to_set keys ∧
     (∀ k, k ∈ keys → k ∈ visited st)) ∧
  Forall (λ n, typeAllowed (TraversalOptions.NodeTypes opts) (Node.Type_ n))
    (resultNodes st) ∧
  Forall (recorded st) (resultEdges st).

Lemma traverseEdge_result current st e :
  nodeID current ∈ visited st →
  e ∈ default [] (edges kg !! nodeID current) →
  resultInv st → resultInv (traverseEdge opts current st e).
Proof.
  intros Hcur He (Hnodes & Htypes & Hedges). unfold traverseEdge.
  destruct (_ && _) eqn:Htype; [done|].
  destruct (_ <? _)%float eqn:Hweight; [done|].
  case_bool_decide; [done|].
  split_and!; simpl; [done..|].
  apply Forall_app. split; [done|]. constructor; [|constructor].
  split; [|by exists (nodeID current)].
  split; [by apply typeAllowed_spec|done].
Qed.

Lemma foldl_traverseEdge_result current es st :
  nodeID current ∈ visited st →
  (∀ e, e ∈ es → e ∈ default [] (edges kg !! nodeID current)) →
  resultInv st → resultInv (foldl (traverseEdge opts current) st es).
Proof.
  revert st. induction es as [|e es IH]; intros st Hcur Hes Hinv; [done|].
  simpl. apply IH.
  - by rewrite (proj1 (traverseEdge_queue opts current st e)).
  - intros e' He'. apply Hes. by right.
  - apply traverseEdge_result; [done|apply Hes; by left|done].
Qed.

Lemma recorded_mono st st' e :
  (∀ k, k ∈ visited st → k ∈ visited st') →
  recorded st e → recorded st' e.
Proof. intros Hsub (Ha & k & Hk & He). split; [done|]. exists k. auto. Qed.

Lemma visit_result st current :
  resultInv st → resultInv (visit kg opts st current).
Proof.
  intros ((keys & Hnd & Hkeys & Hdom & Hvis) & Htypes & Hedges).
  unfold visit. case_bool_decide as Hseen.
  { split; [by exists keys|done]. }
  assert (Forall
            (recorded
               {| visited := {[nodeID current]} ∪ visited st;
                  paths := paths st; resultNodes := resultNodes st;
                  resultEdges := resultEdges st; queue := queue st |})
            (resultEdges st)) as Hedges'.
  { eapply Forall_impl; [exact Hedges|]. intros e.
    apply recorded_mono. simpl. set_solver. }
  assert (resultInv
            {| visited := {[nodeID current]} ∪ visited st;
               paths := paths st; resultNodes := resultNodes st;
               resultEdges := resultEdges st; queue := queue st |})
    as Hmarked.
  { split_and!; simpl; [|done..]. exists keys. split_and!; [done..|].
    intros k Hk. set_solver. }
  assert (nodeID current ∉ keys) as Hfresh by (intros Hin; auto).
  assert (∀ node, nodes kg !! nodeID current = Some node →
            typeAllowed (TraversalOptions.NodeTypes opts) (Node.Type_ node) →
            resultInv
              {| visited := {[nodeID current]} ∪ visited st;
                 paths := <[nodeID current := path current]> (paths st);
                 resultNodes := resultNodes st ++ [node];
                 resultEdges := resultEdges st; queue := queue st |})
    as Haccepted.
  { intros node Hnode Htype. split_and!; simpl;
      [|apply Forall_app; split; [done|by apply Forall_singleton]|done].
    exists (keys ++ [nodeID current]). split_and!.
    - apply NoDup_app. split_and!; [done| |apply NoDup_singleton].
      intros k Hk ->%list_elem_of_singleton. done.
    - apply Forall2_app; [done|]. by constructor.
    - rewrite dom_insert_L, Hdom, list_to_set_app_L. simpl. set_solver.
    - intros k [Hk|Hk]%elem_of_app; [set_solver|].
      apply list_elem_of_singleton in Hk as ->. set_solver. }
  destruct (nodes kg !! nodeID current) as [node|] eqn:Hnode; simpl.
  - destruct (_ && _) eqn:Htype; simpl; [done|].
    apply typeAllowed_spec in Htype.
    destruct (_ <=? _); [by apply Haccepted|].
    apply foldl_traverseEdge_result; [simpl; set_solver|done|].
    by apply Haccepted.
  - destruct (_ <=? _); [done|].
    apply foldl_traverseEdge_result; [simpl; set_solver|done..].
Qed.

Lemma visit_resultNodes st current :
  (length (resultNodes (visit kg opts st current)) ≤
     S (length (resultNodes st)))%nat.
Proof.
  assert (∀ es st', resultNodes (foldl (traverseEdge opts current) st' es)
                    = resultNodes st') as Hfold.
  { induction es as [|e es IH]; intros st'; simpl; [done|].
    rewrite IH. unfold traverseEdge. by repeat case_match. }
  unfold visit. case_bool_decide; [lia|].
  destruct (nodes kg !! nodeID current); simpl.
  - destruct (_ && _); simpl; [lia|].
    destruct (_ <=? _); rewrite ?Hfold; simpl; rewrite length_app; simpl; lia.
  - destruct (_ <=? _); rewrite ?Hfold; simpl; lia.
Qed.

Lemma bfsLoop_result fuel st st' :
  resultInv st →
  Z.of_nat (length (resultNodes st)) ≤
    Z.max 0 (TraversalOptions.MaxNodes opts) →
  bfsLoop kg opts fuel st = Some st' →
  resultInv st' ∧
  Z.of_nat (length (resultNodes st')) ≤
    Z.max 0 (TraversalOptions.MaxNodes opts).
Proof.
  revert st. induction fuel as [|fuel IH]; intros st Hinv Hlen; simpl.
  - destruct (queue st); [by intros [= <-]|].
    destruct (_ <? _); [done|by intros [= <-]].
  - destruct (queue st) as [|current rest] eqn:Hq; [by intros [= <-]|].
    destruct (_ <? _) eqn:Hroom; [|by intros [= <-]].
    apply IH.
    + apply visit_result. destruct Hinv as (Hn & Ht & He).
      split_and!; [done..|].
      eapply Forall_impl; [exact He|]. intros e. by apply recorded_mono.
    + pose proof (visit_resultNodes (dequeue st rest) current) as Hgrow.
      simpl in Hgrow. lia.
Qed.

Lemma initial_result startNodes : resultInv (initial kg startNodes).
Proof.
  split_and!; simpl; [|done..]. exists []. split_and!.
  - constructor.
  - constructor.
  - by rewrite dom_empty_L.
  - by intros k ?%elem_of_nil.
Qed.

(** The final state of the loop behind a result of [Traverse]. *)
Lemma Traverse_final startNodes :
  ∃ st,
    Traverse kg startNodes opts =
      (Some (TraversalResult.mk (resultNodes st) (resultEdges st)
               (paths st)), None) ∧
    resultInv st ∧
    Z.of_nat (length (resultNodes st)) ≤
      Z.max 0 (TraversalOptions.MaxNodes opts).
Proof.
  destruct (Traverse_total kg opts startNodes) as (st & Hloop & Ht).
  exists st. split; [done|].
  eapply bfsLoop_result; [apply initial_result| |exact Hloop].
  simpl. lia.
Qed.
End traverse_result.

(** *** Identifiers on recorded paths *)

Section traverse_mentions.
Import graph memory.
Context (kg : KnowledgeGraph) (opts : TraversalOptions.t).

(** [x] is the key of a stored node or the target of a stored edge. *)
Definition mentioned (x : string) : Prop :=
  is_Some (nodes kg !! x) ∨
  ∃ k e, e ∈ default [] (edges kg !! k) ∧ Edge.To e = x.

Definition mentionInv (st : bfsState) : Prop :=
  Forall (λ item, Forall mentioned (path item)) (queue st) ∧
  map_Forall (λ _ p, Forall mentioned p) (paths st).

Lemma foldl_traverseEdge_mentions current es st :
  Forall mentioned (path current) →
  (∀ e, e ∈ es → e ∈ default [] (edges kg !! nodeID current)) →
  mentionInv st → mentionInv (foldl (traverseEdge opts current) st es).
Proof.
  intros Hcur. revert st.
  induction es as [|e es IH]; intros st Hes Hinv; simpl; [done|].
  apply IH; [intros e' He'; apply Hes; by right|].
  destruct Hinv as [Hq Hp]. unfold traverseEdge.
  repeat case_match; try done.
  split; simpl; [|done].
  apply Forall_app. split; [done|]. apply Forall_singleton. simpl.
  apply Forall_app. split; [done|]. apply Forall_singleton.
  right. exists (nodeID current), e. split; [|done]. apply Hes. by left.
Qed.

Lemma visit_mentions st current :
  Forall mentioned (path current) →
  mentionInv st → mentionInv (visit kg opts st current).
Proof.
  intros Hcur [Hq Hp]. unfold visit. case_bool_decide; [done|].
  destruct (nodes kg !! nodeID current) as [node|]; simpl.
  - destruct (_ && _); simpl; [done|].
    assert (mentionInv
              {| visited := {[nodeID current]} ∪ visited st;
                 paths := <[nodeID current := path current]> (paths st);
                 resultNodes := resultNodes st ++ [node];
                 resultEdges := resultEdges st; queue := queue st |}).
    { split; simpl; [done|]. by apply map_Forall_insert_2. }
    destruct (_ <=? _); [done|].
    by apply foldl_traverseEdge_mentions.
  - destruct (_ <=? _); [done|].
    by apply foldl_traverseEdge_mentions.
Qed.

Lemma bfsLoop_mentions fuel st st' :
  mentionInv st → bfsLoop kg opts fuel st = Some st' → mentionInv st'.
Proof.
  revert st. induction fuel as [|fuel IH]; intros st Hinv; simpl.
  - destruct (queue st); [by intros [= <-]|].
    destruct (_ <? _); [done|by intros [= <-]].
  - destruct (queue st) as [|current rest] eqn:Hq; [by intros [= <-]|].
    destruct (_ <? _); [|by intros [= <-]].
    apply IH. destruct Hinv as [Hqueue Hp].
    rewrite Hq in Hqueue. apply Forall_cons in Hqueue as [Hc Hrest].
    by apply visit_mentions.
Qed.

Lemma initial_mentions startNodes : mentionInv (initial kg startNodes).
Proof.
  split; simpl; [|apply map_Forall_empty].
  apply Forall_forall. intros item. unfold seed.
  rewrite list_elem_of_omap. intros (id & Hid & Hitem).
  destruct (nodes kg !! id) eqn:Hnode; [|done]. injection Hitem as <-.
  simpl. apply Forall_singleton. left. by rewrite Hnode.
Qed.

Lemma Traverse_mentions startNodes result id p :
  Traverse kg startNodes opts = (Some result, None) →
  TraversalResult.Paths result !! id = Some p →
  Forall mentioned p.
Proof.
  destruct (Traverse_total kg opts startNodes) as (st & Hloop & ->).
  intros [= <-]. simpl.
  destruct (bfsLoop_mentions _ _ _ (initial_mentions startNodes) Hloop)
    as [_ Hp].
  apply Hp.
Qed.
End traverse_mentions.

Section traverse_theorems.
Import retrieve graph memory.

(** X1. Node limit. [Traverse] always returns a result without an error,
    and the result holds at most [MaxNodes] nodes; none when [MaxNodes]
    is zero or negative. *)
Theorem Traverse_max_nodes (kg : KnowledgeGraph)
    (startNodes : list string) (opts : TraversalOptions.t) :
  ∃ result,
    Traverse kg startNodes opts = (Some result, None) ∧
    Z.of_nat (length (TraversalResult.Nodes result)) ≤
      Z.max 0 (TraversalOptions.MaxNodes opts).
Proof.
  destruct (Traverse_final kg opts startNodes) as (st & -> & _ & Hlen).
  eexists. split; [done|]. done.
Qed.

(** X2. Result nodes. For a graph whose nodes are stored under their
    identifiers, the nodes [Traverse] returns are nodes of the graph with
    pairwise distinct identifiers, and [Paths] has an entry for exactly
    their identifiers. *)
Theorem Traverse_nodes_distinct (kg : KnowledgeGraph)
    (startNodes : list string) (opts : TraversalOptions.t) :
  wellKeyed kg →
  ∃ result,
    Traverse kg startNodes opts = (Some result, None) ∧
    NoDup (Node.ID <$> TraversalResult.Nodes result) ∧
    Forall (λ node, nodes kg !! Node.ID node = Some node)
      (TraversalResult.Nodes result) ∧
    dom (TraversalResult.Paths result) =
      list_to_set (Node.ID <$> TraversalResult.Nodes result).
Proof.
  intros Hkg.
  destruct (Traverse_final kg opts startNodes)
    as (st & -> & ((keys & Hnd & Hkeys & Hdom & _) & _) & _).
  eexists. split; [done|]. simpl.
  assert (Node.ID <$> resultNodes st = keys) as Hids.
  { clear Hnd Hdom. induction Hkeys as [|k n ks ns Hk _ IH]; [done|].
    by rewrite fmap_cons, IH, (Hkg k n Hk). }
  rewrite Hids. split_and!; [done| |done].
  apply Forall_forall. intros n Hn.
  apply list_elem_of_lookup in Hn as [i Hi].
  destruct (Forall2_lookup_r _ _ _ _ _ Hkeys Hi) as (k & _ & Hk).
  by rewrite (Hkg k n Hk).
Qed.

(** X3. Filters. Every node [Traverse] returns has a type that
    [NodeTypes] allows, and every edge it returns is an edge stored in
    the graph whose type [EdgeTypes] allows and whose weight is not below
    [MinWeight]; an empty list of types allows every type. *)
Theorem Traverse_filters (kg : KnowledgeGraph)
    (startNodes : list string) (opts : TraversalOptions.t) :
  ∃ result,
    Traverse kg startNodes opts = (Some result, None) ∧
    Forall (λ node,
      TraversalOptions.NodeTypes opts = [] ∨
      Node.Type_ node ∈ TraversalOptions.NodeTypes opts)
      (TraversalResult.Nodes result) ∧
    Forall (λ edge,
      (∃ from stored, edges kg !! from = Some stored ∧ edge ∈ stored) ∧
      (TraversalOptions.EdgeTypes opts = [] ∨
       Edge.Type_ edge ∈ TraversalOptions.EdgeTypes opts) ∧
      (Edge.Weight edge <? TraversalOptions.MinWeight opts)%float = false)
      (TraversalResult.Edges result).
Proof.
  destruct (Traverse_final kg opts startNodes)
    as (st & -> & (_ & Htypes & Hedges) & _).
  eexists. split; [done|]. simpl. split; [done|].
  eapply Forall_impl; [exact Hedges|].
  intros e ([Htype Hweight] & k & _ & He). split_and!; [|done..].
  destruct (edges kg !! k) as [stored|] eqn:Hk; simpl in He.
  - by exists k, stored.
  - by apply elem_of_nil in He.
Qed.

(** X4. A deleted node is gone. After [DeleteNode kg id] on a graph whose
    nodes are stored under their identifiers, a traversal returns no node
    with the identifier [id], no edge that leads to [id], and no path
    through [id], whatever the start nodes and options. *)
Theorem DeleteNode_unreachable (kg : KnowledgeGraph) (id : string)
    (startNodes : list string) (opts : TraversalOptions.t) :
  wellKeyed kg →
  ∃ result,
    Traverse (DeleteNode kg id) startNodes opts = (Some result, None) ∧
    Forall (λ node, Node.ID node ≠ id) (TraversalResult.Nodes result) ∧
    Forall (λ edge, Edge.To edge ≠ id) (TraversalResult.Edges result) ∧
    map_Forall (λ _ path, id ∉ path) (TraversalResult.Paths result).
Proof.
  intros Hkg.
  assert (∀ k e, e ∈ default [] (edges (DeleteNode kg id) !! k) →
                 Edge.To e ≠ id) as Hto.
  { intros k e. simpl. rewrite lookup_fmap.
    destruct (delete id (edges kg) !! k) as [es|]; simpl.
    - by intros [? _]%list_elem_of_filter.
    - by intros ?%elem_of_nil. }
  destruct (Traverse_final (DeleteNode kg id) opts startNodes)
    as (st & Ht & ((keys & _ & Hkeys & _) & _ & Hedges) & _).
  eexists. split; [exact Ht|]. simpl. split_and!.
  - apply Forall_forall. intros n Hn.
    apply list_elem_of_lookup in Hn as [i Hi].
    destruct (Forall2_lookup_r _ _ _ _ _ Hkeys Hi) as (k & _ & Hk).
    simpl in Hk. apply lookup_delete_Some in Hk as [Hne Hk].
    by rewrite (Hkg k n Hk).
  - eapply Forall_impl; [exact Hedges|].
    intros e (_ & k & _ & He). by apply (Hto k).
  - intros k p Hp Hin.
    pose proof (Traverse_mentions _ _ _ _ k p Ht Hp) as Hm.
    rewrite Forall_forall in Hm.
    destruct (Hm id Hin) as [[n Hn]|(k' & e & He & Heq)].
    + simpl in Hn. by rewrite lookup_delete_eq in Hn.
    + by apply (Hto k' e).
Qed.
End traverse_theorems.

(** ** Completeness of the traversal *)

Section traverse_complete.
Import graph memory.
Context (kg : KnowledgeGraph) (opts : TraversalOptions.t).
Context (startNodes : list string).

(** The traversal follows the edges of [x]: [x] is not stored, or its
    type passes the node type filter. *)
Definition expandable (x : string) : Prop :=
  match nodes kg !! x with
  | Some node =>
      typeAllowed (TraversalOptions.NodeTypes opts) (Node.Type_ node)
  | None => True
  end.

(** An edge from [a] to [b] that passes the edge filters. *)
Definition allowedHop (a b : string) : Prop :=
  ∃ e, e ∈ default [] (edges kg !! a) ∧ edgeAllowed opts e ∧
       Edge.To e = b.

(** [x] is [n] allowed hops away from a stored start node, through nodes
    whose edges the traversal follows. *)
Inductive reachable : nat → string → Prop :=
| reachable_start s :
    s ∈ startNodes → is_Some (nodes kg !! s) → reachable 0 s
| reachable_hop n a b :
    reachable n a → expandable a → allowedHop a b → reachable (S n) b.

(** The items that the loop over the edges of [current] appends. *)
Definition enqueued (current : queueItem) (vis : gset string)
    (es : list Edge.t) : list queueItem :=
  omap (λ edge,
    if (0 <? Z.of_nat (length (TraversalOptions.EdgeTypes opts))) &&
       negb (containsString (TraversalOptions.EdgeTypes opts)
               (Edge.Type_ edge))
    then None
    else if (Edge.Weight edge <? TraversalOptions.MinWeight opts)%float
    then None
    else if bool_decide (Edge.To edge ∈ vis) then None
    else Some {| nodeID := Edge.To edge;
                 path := path current ++ [Edge.To edge];
                 depth := depth current + 1 |}) es.

Lemma foldl_traverseEdge_state current es st :
  visited (foldl (traverseEdge opts current) st es) = visited st ∧
  paths (foldl (traverseEdge opts current) st es) = paths st ∧
  resultNodes (foldl (traverseEdge opts current) st es) = resultNodes st ∧
  queue (foldl (traverseEdge opts current) st es) =
    queue st ++ enqueued current (visited st) es.
Proof.
  revert st. induction es as [|e es IH]; intros st.
  { simpl. by rewrite app_nil_r. }
  cbn [foldl]. destruct (IH (traverseEdge opts current st e))
    as (-> & -> & -> & ->).
  unfold enqueued. cbn [omap list_omap]. unfold traverseEdge.
  destruct (_ && _); [done|].
  destruct (_ <? _)%float; [done|].
  case_bool_decide; [done|].
  simpl. by rewrite <-(assoc_L (++)).
Qed.

Lemma enqueued_spec current vis es :
  Forall (λ item,
    depth item = depth current + 1 ∧
    length (path item) = S (length (path current)))
    (enqueued current vis es) ∧
  (∀ e, e ∈ es → edgeAllowed opts e →
     Edge.To e ∈ vis ∨
     ∃ item, item ∈ enqueued current vis es ∧ nodeID item = Edge.To e).
Proof.
  split.
  - apply Forall_forall. intros item. unfold enqueued.
    rewrite list_elem_of_omap. intros (e & _ & Hitem).
    repeat case_match; try done. injection Hitem as <-. simpl.
    rewrite length_app. simpl. split; [done|lia].
  - intros e He [Htype Hweight].
    destruct (decide (Edge.To e ∈ vis)) as [|Hnew]; [by left|]. right.
    exists {| nodeID := Edge.To e; path := path current ++ [Edge.To e];
              depth := depth current + 1 |}.
    split; [|done]. unfold enqueued.
    apply list_elem_of_omap. exists e. split; [done|].
    apply typeAllowed_spec in Htype. rewrite Htype, Hweight.
    by rewrite bool_decide_eq_false_2.
Qed.

(** What a visit of a node that has not been visited does. *)
Lemma visit_new st current :
  nodeID current ∉ visited st →
  let st' := visit kg opts st current in
  visited st' = {[nodeID current]} ∪ visited st ∧
  (∀ node,
     nodes kg !! nodeID current = Some node →
     typeAllowed (TraversalOptions.NodeTypes opts) (Node.Type_ node) →
     resultNodes st' = resultNodes st ++ [node] ∧
     paths st' = <[nodeID current := path current]> (paths st)) ∧
  (∀ node, node ∈ resultNodes st → node ∈ resultNodes st') ∧
  (∀ x, x ≠ nodeID current → paths st' !! x = paths st !! x) ∧
  ∃ new,
    queue st' = queue st ++ new ∧
    Forall (λ item,
      depth item = depth current + 1 ∧
      length (path item) = S (length (path current))) new ∧
    (expandable (nodeID current) →
     depth current < TraversalOptions.Depth opts →
     ∀ e, e ∈ default [] (edges kg !! nodeID current) →
          edgeAllowed opts e →
          Edge.To e ∈ {[nodeID current]} ∪ visited st ∨
          ∃ item, item ∈ new ∧ nodeID item = Edge.To e).
Proof.
  intros Hnew. unfold visit, expandable.
  rewrite bool_decide_eq_false_2 by done.
  set (es := default [] (edges kg !! nodeID current)).
  destruct (nodes kg !! nodeID current) as [node|] eqn:Hnode; simpl.
  - destruct (_ && _) eqn:Htype; simpl.
    + split_and!; [done| |done|done|].
      * intros node' [= <-] Hallowed.
        apply typeAllowed_spec in Hallowed. congruence.
      * exists []. rewrite app_nil_r. split_and!; [done|constructor|].
        intros Hallowed. apply typeAllowed_spec in Hallowed. congruence.
    + destruct (_ <=? _) eqn:Hdepth; simpl.
      * split_and!; [done| |set_solver| |].
        -- by intros node' [= <-] _.
        -- intros x Hx. by rewrite lookup_insert_ne.
        -- exists []. rewrite app_nil_r. split_and!; [done|constructor|].
           intros _ Hlt. apply Z.leb_le in Hdepth. lia.
      * match goal with
        | |- context [foldl _ ?s es] =>
            destruct (foldl_traverseEdge_state current es s)
              as (-> & -> & -> & ->)
        end.
        simpl. split_and!; [done| |set_solver| |].
        -- by intros node' [= <-] _.
        -- intros x Hx. by rewrite lookup_insert_ne.
        -- eexists. split; [done|].
           destruct (enqueued_spec current
                       ({[nodeID current]} ∪ visited st) es) as [H1 H2].
           split; [done|]. intros _ _. apply H2.
  - destruct (_ <=? _) eqn:Hdepth; simpl.
    + split_and!; [done..|].
      exists []. rewrite app_nil_r. split_and!; [done|constructor|].
      intros _ Hlt. apply Z.leb_le in Hdepth. lia.
    + match goal with
      | |- context [foldl _ ?s es] =>
          destruct (foldl_traverseEdge_state current es s)
            as (-> & -> & -> & ->)
      end.
      simpl. split_and!; [done..|].
      eexists. split; [done|].
      destruct (enqueued_spec current
                  ({[nodeID current]} ∪ visited st) es) as [H1 H2].
      split; [done|]. intros _ _. apply H2.
Qed.

(** *** The loop invariant

    [dm] records the depth at which each visited identifier was taken off
    the queue, [d] is the depth of the last item taken off. *)

Definition covered (dm : gmap string Z) (q : list queueItem) (b : string)
    (bound : Z) : Prop :=
  (∃ db, dm !! b = Some db ∧ db ≤ bound) ∨
  (∃ item, item ∈ q ∧ nodeID item = b ∧ depth item ≤ bound).

Definition completeInv (d : Z) (dm : gmap string Z) (st : bfsState)
    : Prop :=
  dom dm = visited st ∧
  (∀ v dv, dm !! v = Some dv → dv ≤ d) ∧
  Forall (λ item,
    d ≤ depth item ≤ d + 1 ∧
    Z.of_nat (length (path item)) = depth item + 1) (queue st) ∧
  StronglySorted (λ a b, depth a ≤ depth b) (queue st) ∧
  (∀ s, s ∈ startNodes → is_Some (nodes kg !! s) →
        covered dm (queue st) s 0) ∧
  (∀ a da b,
     dm !! a = Some da → expandable a →
     da < TraversalOptions.Depth opts → allowedHop a b →
     covered dm (queue st) b (da + 1)) ∧
  (∀ x dx node,
     dm !! x = Some dx → nodes kg !! x = Some node →
     typeAllowed (TraversalOptions.NodeTypes opts) (Node.Type_ node) →
     node ∈ resultNodes st ∧
     ∃ p, paths st !! x = Some p ∧ Z.of_nat (length p) = dx + 1).

Lemma covered_step dm dm' current rest new b bound dc :
  covered dm (current :: rest) b bound →
  dm ⊆ dm' →
  dm' !! nodeID current = Some dc → dc ≤ depth current →
  covered dm' (rest ++ new) b bound.
Proof.
  intros [(db & Hb & Hle)|(item & Hin & Hid & Hle)] Hsub Hcur Hdc.
  - left. exists db. split; [|done]. by eapply lookup_weaken.
  - apply elem_of_cons in Hin as [->|Hin].
    + left. exists dc. rewrite <-Hid. split; [done|lia].
    + right. exists item. split; [|done]. apply elem_of_app. by left.
Qed.

Lemma visit_complete d dm st current rest :
  queue st = current :: rest →
  completeInv d dm st →
  ∃ dm', completeInv (depth current) dm'
           (visit kg opts (dequeue st rest) current).
Proof.
  intros Hq (Hdom & Hvis & Hqueue & Hsorted & Hseeds & Hhops & Hresults).
  rewrite Hq in Hqueue, Hsorted, Hseeds, Hhops.
  apply Forall_cons in Hqueue as [[Hd Hlen] Hrest].
  apply StronglySorted_inv in Hsorted as [Hsorted Hhead].
  assert (Forall (λ item,
            depth current ≤ depth item ≤ depth current + 1 ∧
            Z.of_nat (length (path item)) = depth item + 1) rest)
    as Hrest'.
  { rewrite Forall_forall in Hrest, Hhead |- *. intros item Hitem.
    destruct (Hrest item Hitem) as [? ?].
    pose proof (Hhead item Hitem). split; [lia|done]. }
  destruct (decide (nodeID current ∈ visited st)) as [Hseen|Hnew].
  - (* already visited: the item is dropped *)
    assert (visit kg opts (dequeue st rest) current = dequeue st rest)
      as ->.
    { unfold visit. by rewrite bool_decide_eq_true_2. }
    assert (∃ dc, dm !! nodeID current = Some dc ∧ dc ≤ depth current)
      as (dc & Hdc & Hle).
    { rewrite <-Hdom in Hseen. apply elem_of_dom in Hseen as [dc Hdc].
      exists dc. split; [done|]. pose proof (Hvis _ _ Hdc). lia. }
    exists dm. split_and!; simpl; [done| |done|done| | |done].
    + intros v dv Hv. pose proof (Hvis v dv Hv). lia.
    + intros s Hs Hstored. rewrite <-(app_nil_r rest).
      eapply covered_step; [by apply Hseeds|done|exact Hdc|exact Hle].
    + intros a da b Ha Hexp Hda Hhop. rewrite <-(app_nil_r rest).
      eapply covered_step; [by eapply Hhops|done|exact Hdc|exact Hle].
  - (* a new node *)
    destruct (visit_new (dequeue st rest) current Hnew)
      as (Hv' & Haccept & Hkeep & Hpaths & new & Hq' & Hnewitems & Hexpand).
    simpl in Hv', Haccept, Hkeep, Hpaths, Hq', Hexpand.
    assert (dm !! nodeID current = None) as Hfresh.
    { apply not_elem_of_dom. by rewrite Hdom. }
    assert (dm ⊆ <[nodeID current := depth current]> dm) as Hsub.
    { by apply insert_subseteq. }
    exists (<[nodeID current := depth current]> dm).
    split_and!.
    + rewrite dom_insert_L, Hdom, Hv'. done.
    + intros v dv.
      intros [[_ <-]|[_ Hv]]%lookup_insert_Some; [lia|].
      pose proof (Hvis v dv Hv). lia.
    + rewrite Hq'. apply Forall_app. split; [done|].
      eapply Forall_impl; [exact Hnewitems|].
      intros item [-> Hpath]. split; [lia|]. rewrite Hpath. lia.
    + rewrite Hq'. apply StronglySorted_app_2; [|done|].
      * intros a b Ha Hb. rewrite Forall_forall in Hrest', Hnewitems.
        destruct (Hrest' a Ha) as [? _].
        destruct (Hnewitems b Hb) as [-> _]. lia.
      * clear -Hnewitems.
        induction Hnewitems as [|a l [Ha _] Hl IH]; constructor; [done|].
        eapply Forall_impl; [exact Hl|]. intros b [-> _]. lia.
    + intros s Hs Hstored. rewrite Hq'.
      eapply covered_step; [by apply Hseeds|done| |reflexivity].
      apply lookup_insert_eq.
    + intros a da b Ha Hexp Hda Hhop. rewrite Hq'.
      apply lookup_insert_Some in Ha as [[<- <-]|[Hne Ha]].
      * destruct Hhop as (e & He & Hallowed & <-).
        destruct (Hexpand Hexp Hda e He Hallowed)
          as [Hin|(item & Hitem & Hid)].
        -- left.
           assert (Edge.To e ∈
                     dom (<[nodeID current := depth current]> dm))
             as [db Hdb]%elem_of_dom.
           { rewrite dom_insert_L, Hdom. set_solver. }
           exists db. split; [done|].
           apply lookup_insert_Some in Hdb as [[_ <-]|[_ Hdb]]; [lia|].
           pose proof (Hvis _ _ Hdb). lia.
        -- right. exists item. split; [set_solver|]. split; [done|].
           rewrite Forall_forall in Hnewitems.
           destruct (Hnewitems item Hitem) as [-> _]. lia.
      * eapply covered_step; [by eapply Hhops|done| |reflexivity].
        apply lookup_insert_eq.
    + intros x dx node Hx Hnode Htype.
      apply lookup_insert_Some in Hx as [[<- <-]|[Hne Hx]].
      * destruct (Haccept node Hnode Htype) as [-> ->].
        split; [set_solver|]. exists (path current).
        by rewrite lookup_insert_eq.
      * destruct (Hresults x dx node Hx Hnode Htype) as (Hin & p & Hp & Hl).
        split; [by apply Hkeep|]. exists p.
        by rewrite Hpaths.
Qed.

Lemma bfsLoop_complete fuel d dm st st' :
  completeInv d dm st →
  bfsLoop kg opts fuel st = Some st' →
  Z.of_nat (length (resultNodes st')) < TraversalOptions.MaxNodes opts →
  queue st' = [] ∧ ∃ d' dm', completeInv d' dm' st'.
Proof.
  revert d dm st. induction fuel as [|fuel IH]; intros d dm st Hinv; simpl.
  - destruct (queue st) eqn:Hq; [intros [= <-]; eauto|].
    destruct (_ <? _) eqn:Hroom; [done|]. intros [= <-] Hcap.
    apply Z.ltb_ge in Hroom. lia.
  - destruct (queue st) as [|current rest] eqn:Hq; [intros [= <-]; eauto|].
    destruct (_ <? _) eqn:Hroom.
    + destruct (visit_complete d dm st current rest Hq Hinv) as [dm' Hinv'].
      by eapply IH.
    + intros [= <-] Hcap. apply Z.ltb_ge in Hroom. lia.
Qed.

Lemma initial_complete : completeInv 0 ∅ (initial kg startNodes).
Proof.
  split_and!; simpl.
  - by rewrite dom_empty_L.
  - intros v dv. by rewrite lookup_empty.
  - apply Forall_forall. intros item. unfold seed.
    rewrite list_elem_of_omap. intros (id & _ & Hitem).
    destruct (nodes kg !! id); [|done]. by injection Hitem as <-.
  - unfold seed. induction startNodes as [|s l IH]; [constructor|].
    cbn [omap list_omap]. destruct (nodes kg !! s); [|done].
    constructor; [done|].
    apply Forall_forall. intros item.
    rewrite list_elem_of_omap. intros (id & _ & Hitem).
    destruct (nodes kg !! id); [|done]. by injection Hitem as <-.
  - intros s Hs [node Hnode]. right.
    exists {| nodeID := s; path := [s]; depth := 0 |}.
    split; [|done]. unfold seed. apply list_elem_of_omap.
    exists s. split; [done|]. by rewrite Hnode.
  - intros a da b. by rewrite lookup_empty.
  - intros x dx node. by rewrite lookup_empty.
Qed.

Lemma completeInv_reachable d dm st n x :
  completeInv d dm st → queue st = [] →
  reachable n x → Z.of_nat n ≤ TraversalOptions.Depth opts →
  ∃ dx, dm !! x = Some dx ∧ dx ≤ Z.of_nat n.
Proof.
  intros (_ & _ & _ & _ & Hseeds & Hhops & _) Hq Hreach.
  rewrite Hq in Hseeds, Hhops.
  induction Hreach as [s Hs Hstored|n a b Hreach IH Hexp Hhop]; intros Hn.
  - destruct (Hseeds s Hs Hstored) as [(db & Hb & Hle)|(item & Hin & _)].
    + exists db. split; [done|lia].
    + by apply elem_of_nil in Hin.
  - destruct IH as (da & Ha & Hle); [lia|].
    destruct (Hhops a da b Ha Hexp ltac:(lia) Hhop)
      as [(db & Hb & Hle')|(item & Hin & _)].
    + exists db. split; [done|lia].
    + by apply elem_of_nil in Hin.
Qed.
End traverse_complete.

Section traverse_complete_theorem.
Import graph memory.

(** X5. Completeness and shortest paths. When [Traverse] returns fewer
    nodes than [MaxNodes], it has missed nothing: every stored node of an
    allowed type that can be reached from a stored start node in [n] hops,
    with [n] at most [Depth], along edges that pass the edge filters and
    through nodes whose edges are followed, is in the result, and its
    recorded path has at most [n] hops. *)
Theorem Traverse_complete (kg : KnowledgeGraph) (startNodes : list string)
    (opts : TraversalOptions.t) (result : TraversalResult.t) :
  Traverse kg startNodes opts = (Some result, None) →
  Z.of_nat (length (TraversalResult.Nodes result)) <
    TraversalOptions.MaxNodes opts →
  ∀ n x node,
    reachable kg opts startNodes n x →
    Z.of_nat n ≤ TraversalOptions.Depth opts →
    nodes kg !! x = Some node →
    typeAllowed (TraversalOptions.NodeTypes opts) (Node.Type_ node) →
    node ∈ TraversalResult.Nodes result ∧
    ∃ path,
      TraversalResult.Paths result !! x = Some path ∧
      (length path ≤ n + 1)%nat.
Proof.
  intros Htraverse Hcap n x node Hreach Hn Hnode Htype.
  destruct (Traverse_total kg opts startNodes) as (st & Hloop & Hst).
  rewrite Hst in Htraverse. injection Htraverse as <-. simpl in *.
  destruct (bfsLoop_complete kg opts startNodes _ _ _ _ _
              (initial_complete kg opts startNodes) Hloop Hcap)
    as (Hq & d & dm & Hinv).
  destruct (completeInv_reachable kg opts startNodes d dm st n x Hinv Hq
              Hreach Hn) as (dx & Hx & Hle).
  destruct Hinv as (_ & _ & _ & _ & _ & _ & Hresults).
  destruct (Hresults x dx node Hx Hnode Htype) as (Hin & p & Hp & Hlen).
  split; [done|]. exists p. split; [done|lia].
Qed.
End traverse_complete_theorem.

(** ** The methods of the in-memory graph *)

Section graph_store.
Import graph memory memory_batch.

(** *** Batches *)

Lemma AddNodeBatch_foldl kg batch :
  AddNodeBatch kg batch = foldl AddNode kg batch.
Proof.
  revert kg. induction batch as [|node batch IH]; intros kg; simpl.
  - by destruct kg.
  - by rewrite <-IH.
Qed.

Lemma UpsertNodeBatch_foldl kg batch :
  UpsertNodeBatch kg batch = foldl UpsertNode kg batch.
Proof.
  revert kg. induction batch as [|node batch IH]; intros kg; simpl.
  - by destruct kg.
  - by rewrite <-IH.
Qed.

Lemma AddEdgeBatch_foldl kg batch :
  AddEdgeBatch kg batch = foldl AddEdge kg batch.
Proof.
  revert kg. induction batch as [|edge batch IH]; intros kg; simpl.
  - by destruct kg.
  - by rewrite <-IH.
Qed.

Lemma UpsertEdgeBatch_foldl kg batch :
  UpsertEdgeBatch kg batch = foldl UpsertEdge kg batch.
Proof.
  revert kg. induction batch as [|edge batch IH]; intros kg; simpl.
  - by destruct kg.
  - by rewrite <-IH.
Qed.

Lemma foldl_delete_fmap {A B} (f : A → B) (m : gmap string A) ids :
  foldl (λ m id, delete id m) (f <$> m) ids =
  f <$> foldl (λ m id, delete id m) m ids.
Proof.
  revert m. induction ids as [|id ids IH]; intros m; simpl; [done|].
  by rewrite <-fmap_delete, IH.
Qed.

Lemma DeleteNodeBatch_foldl kg ids :
  DeleteNodeBatch kg ids = foldl DeleteNode kg ids.
Proof.
  revert kg. induction ids as [|id ids IH]; intros kg; simpl.
  - destruct kg as [n ns es]. unfold DeleteNodeBatch. simpl. f_equal.
    rewrite <-(map_fmap_id es) at 2. apply map_fmap_ext.
    intros k l _. simpl. induction l as [|e l IHl]; [done|].
    rewrite filter_cons_True by set_solver. by rewrite IHl.
  - rewrite <-IH. unfold DeleteNodeBatch. simpl. f_equal.
    rewrite foldl_delete_fmap, <-map_fmap_compose.
    apply map_fmap_ext. intros k l _. simpl.
    rewrite list_filter_filter. apply list_filter_iff.
    intros e. set_solver.
Qed.

(** *** Keys of the two maps *)

(** Every edge is stored under its source. *)
Definition edgesKeyed (kg : KnowledgeGraph) : Prop :=
  ∀ k es e, edges kg !! k = Some es → e ∈ es → Edge.From e = k.

Lemma edgesKeyed_AddEdge kg edge :
  edgesKeyed kg → edgesKeyed (AddEdge kg edge).
Proof.
  intros Hkg k es e. simpl.
  intros [[<- <-]|[Hne Hk]]%lookup_insert_Some; [|by apply (Hkg k)].
  intros [He| ->%list_elem_of_singleton]%elem_of_app; [|done].
  destruct (edges kg !! Edge.From edge) as [old|] eqn:Hold; simpl in He.
  - by apply (Hkg _ old).
  - by apply elem_of_nil in He.
Qed.

Lemma edgesKeyed_UpsertEdge kg edge :
  edgesKeyed kg → edgesKeyed (UpsertEdge kg edge).
Proof.
  intros Hkg k es e. simpl.
  intros [[<- <-]|[Hne Hk]]%lookup_insert_Some; [|by apply (Hkg k)].
  intros [He| ->%list_elem_of_singleton]%elem_of_app; [|done].
  apply list_elem_of_filter in He as [_ He].
  destruct (edges kg !! Edge.From edge) as [old|] eqn:Hold; simpl in He.
  - by apply (Hkg _ old).
  - by apply elem_of_nil in He.
Qed.

Lemma edgesKeyed_DeleteEdge kg from to edgeType :
  edgesKeyed kg → edgesKeyed (DeleteEdge kg from to edgeType).
Proof.
  intros Hkg k es e. simpl.
  intros [[<- <-]|[Hne Hk]]%lookup_insert_Some; [|by apply (Hkg k)].
  intros [_ He]%list_elem_of_filter.
  destruct (edges kg !! from) as [old|] eqn:Hold; simpl in He.
  - by apply (Hkg _ old).
  - by apply elem_of_nil in He.
Qed.

Lemma edgesKeyed_DeleteNode kg id :
  edgesKeyed kg → edgesKeyed (DeleteNode kg id).
Proof.
  intros Hkg k es e. simpl. rewrite lookup_fmap.
  destruct (delete id (edges kg) !! k) as [old|] eqn:Hold; [|done].
  simpl. intros [= <-] [_ He]%list_elem_of_filter.
  apply lookup_delete_Some in Hold as [_ Hold]. by apply (Hkg _ old).
Qed.

(** *** Sequences of calls *)

(** A call of one of the mutating methods. *)
Inductive Op :=
| OpAddNode (node : Node.t)
| OpUpsertNode (node : Node.t)
| OpAddEdge (edge : Edge.t)
| OpUpsertEdge (edge : Edge.t)
| OpDeleteNode (id : string)
| OpDeleteEdge (from to edgeType : string)
| OpAddNodeBatch (batch : list Node.t)
| OpUpsertNodeBatch (batch : list Node.t)
| OpAddEdgeBatch (batch : list Edge.t)
| OpUpsertEdgeBatch (batch : list Edge.t)
| OpDeleteNodeBatch (ids : list string).

Definition applyOp (kg : KnowledgeGraph) (op : Op) : KnowledgeGraph :=
  match op with
  | OpAddNode node => AddNode kg node
  | OpUpsertNode node => UpsertNode kg node
  | OpAddEdge edge => AddEdge kg edge
  | OpUpsertEdge edge => UpsertEdge kg edge
  | OpDeleteNode id => DeleteNode kg id
  | OpDeleteEdge from to edgeType => DeleteEdge kg from to edgeType
  | OpAddNodeBatch batch => AddNodeBatch kg batch
  | OpUpsertNodeBatch batch => UpsertNodeBatch kg batch
  | OpAddEdgeBatch batch => AddEdgeBatch kg batch
  | OpUpsertEdgeBatch batch => UpsertEdgeBatch kg batch
  | OpDeleteNodeBatch ids => DeleteNodeBatch kg ids
  end.

Definition keyed (kg : KnowledgeGraph) : Prop :=
  wellKeyed kg ∧ edgesKeyed kg.

Lemma keyed_foldl {A} (f : KnowledgeGraph → A → KnowledgeGraph) l kg :
  (∀ kg a, keyed kg → keyed (f kg a)) → keyed kg → keyed (foldl f kg l).
Proof.
  intros Hf. revert kg. induction l as [|a l IH]; intros kg Hkg; simpl; auto.
Qed.

Lemma keyed_AddNode kg node : keyed kg → keyed (AddNode kg node).
Proof. intros [Hn He]. split; [by apply wellKeyed_AddNode|done]. Qed.

Lemma keyed_AddEdge kg edge : keyed kg → keyed (AddEdge kg edge).
Proof.
  intros [Hn He].
  split; [by apply wellKeyed_AddEdge|by apply edgesKeyed_AddEdge].
Qed.

Lemma keyed_UpsertEdge kg edge : keyed kg → keyed (UpsertEdge kg edge).
Proof.
  intros [Hn He].
  split; [by apply wellKeyed_UpsertEdge|by apply edgesKeyed_UpsertEdge].
Qed.

Lemma keyed_DeleteNode kg id : keyed kg → keyed (DeleteNode kg id).
Proof.
  intros [Hn He].
  split; [by apply wellKeyed_DeleteNode|by apply edgesKeyed_DeleteNode].
Qed.

Lemma keyed_DeleteEdge kg from to edgeType :
  keyed kg → keyed (DeleteEdge kg from to edgeType).
Proof.
  intros [Hn He].
  split; [by apply wellKeyed_DeleteEdge|by apply edgesKeyed_DeleteEdge].
Qed.

Lemma keyed_applyOp kg op : keyed kg → keyed (applyOp kg op).
Proof.
  intros Hkg. destruct op; simpl.
  - by apply keyed_AddNode.
  - by apply (keyed_AddNode kg).
  - by apply keyed_AddEdge.
  - by apply keyed_UpsertEdge.
  - by apply keyed_DeleteNode.
  - by apply keyed_DeleteEdge.
  - rewrite AddNodeBatch_foldl. apply keyed_foldl; [|done].
    apply keyed_AddNode.
  - rewrite UpsertNodeBatch_foldl. apply keyed_foldl; [|done].
    intros kg' node. apply (keyed_AddNode kg').
  - rewrite AddEdgeBatch_foldl. apply keyed_foldl; [|done].
    apply keyed_AddEdge.
  - rewrite UpsertEdgeBatch_foldl. apply keyed_foldl; [|done].
    apply keyed_UpsertEdge.
  - rewrite DeleteNodeBatch_foldl. apply keyed_foldl; [|done].
    apply keyed_DeleteNode.
Qed.

(** *** Counting edges *)

Definition edgeSum (m : gmap string (list Edge.t)) : nat :=
  sum_list_with (λ kv, length kv.2) (map_to_list m).

Lemma edgeSum_insert m k (es : list Edge.t) :
  (edgeSum (<[k := es]> m) + length (default [] (m !! k)) =
   edgeSum m + length es)%nat.
Proof.
  unfold edgeSum. destruct (m !! k) as [old|] eqn:Hk; simpl.
  - rewrite <-insert_delete_eq.
    rewrite map_to_list_insert by apply lookup_delete_eq.
    rewrite <-(map_to_list_delete m k old Hk). simpl. lia.
  - rewrite map_to_list_insert by done. simpl. lia.
Qed.

Lemma edgeSum_delete m k :
  (edgeSum (delete k m) + length (default [] (m !! k)) = edgeSum m)%nat.
Proof.
  unfold edgeSum. destruct (m !! k) as [old|] eqn:Hk; simpl.
  - rewrite <-(map_to_list_delete m k old Hk). simpl. lia.
  - rewrite delete_id by done. lia.
Qed.

Lemma edgeSum_fmap_filter (P : Edge.t → Prop) `{!∀ e, Decision (P e)} m :
  (edgeSum (filter P <$> m) ≤ edgeSum m)%nat.
Proof.
  induction m as [|k es m Hk IH] using map_ind.
  { by rewrite fmap_empty. }
  rewrite fmap_insert.
  pose proof (edgeSum_insert m k es) as H1.
  pose proof (edgeSum_insert (filter P <$> m) k (filter P es)) as H2.
  rewrite lookup_fmap, Hk in H2. rewrite Hk in H1. simpl in *.
  pose proof (length_filter P es). lia.
Qed.

(** *** Finding nodes *)

Lemma FindNodes_perm rt kg nodeType filters :
  (FindNodes rt kg nodeType filters).1 ≡ₚ
  filter (λ node,
    (nodeType = "" ∨ Node.Type_ node = nodeType) ∧
    matchesFilters (Node.Metadata node) filters = true)
    (snd <$> map_to_list (nodes kg)).
Proof. unfold FindNodes. simpl. by rewrite (range_perm (rt_range rt)). Qed.

Lemma FindNodes_elem_of rt kg nodeType filters node :
  node ∈ (FindNodes rt kg nodeType filters).1 ↔
  (∃ k, nodes kg !! k = Some node) ∧
  (nodeType = "" ∨ Node.Type_ node = nodeType) ∧
  matchesFilters (Node.Metadata node) filters = true.
Proof.
  rewrite FindNodes_perm, list_elem_of_filter, list_elem_of_fmap.
  split.
  - intros [[? ?] ([k n] & -> & Hin%elem_of_map_to_list)]. eauto.
  - intros ([k Hk] & ? & ?). split; [done|].
    exists (k, node). split; [done|]. by apply elem_of_map_to_list.
Qed.
End graph_store.

Section graph_store_theorems.
Import retrieve graph memory memory_batch.

(** X6. Batches. Each batch method leaves the graph in the state that
    calling the single method on the elements of the batch, in order,
    would leave it in; [DeleteNodeBatch], which filters the edges once at
    the end, is no exception. *)
Theorem batches_are_folds (kg : KnowledgeGraph) :
  (∀ batch, AddNodeBatch kg batch = foldl AddNode kg batch) ∧
  (∀ batch, UpsertNodeBatch kg batch = foldl UpsertNode kg batch) ∧
  (∀ batch, AddEdgeBatch kg batch = foldl AddEdge kg batch) ∧
  (∀ batch, UpsertEdgeBatch kg batch = foldl UpsertEdge kg batch) ∧
  (∀ ids, DeleteNodeBatch kg ids = foldl DeleteNode kg ids).
Proof.
  split_and!; intros.
  - apply AddNodeBatch_foldl.
  - apply UpsertNodeBatch_foldl.
  - apply AddEdgeBatch_foldl.
  - apply UpsertEdgeBatch_foldl.
  - apply DeleteNodeBatch_foldl.
Qed.

(** X7. Keys. Whatever sequence of mutating methods is called on a new
    graph, every node is stored under its identifier and every edge in
    the list of its source. *)
Theorem methods_keep_keys (name : string) (ops : list Op) :
  let kg := foldl applyOp (NewKnowledgeGraph name) ops in
  (∀ k node, nodes kg !! k = Some node → Node.ID node = k) ∧
  (∀ k stored edge,
     edges kg !! k = Some stored → edge ∈ stored → Edge.From edge = k).
Proof.
  apply (keyed_foldl applyOp ops); [apply keyed_applyOp|].
  split; [apply wellKeyed_New|].
  intros k es e. simpl. by rewrite lookup_empty.
Qed.

(** X8. Upsert of an edge. After [UpsertEdge kg edge] the list of the
    source of [edge] holds exactly one edge with the target and type of
    [edge], namely [edge] itself, in last position; the other edges of
    the list are kept in their order; a second upsert of the same edge
    changes nothing. *)
Theorem UpsertEdge_replaces (kg : KnowledgeGraph) (edge : Edge.t) :
  let same e :=
    Edge.To e = Edge.To edge ∧ Edge.Type_ e = Edge.Type_ edge in
  let before := default [] (edges kg !! Edge.From edge) in
  let after := default [] (edges (UpsertEdge kg edge) !! Edge.From edge) in
  filter same after = [edge] ∧
  last after = Some edge ∧
  filter (λ e, ¬ same e) after = filter (λ e, ¬ same e) before ∧
  UpsertEdge (UpsertEdge kg edge) edge = UpsertEdge kg edge.
Proof.
  intros same before after.
  assert (∀ l : list Edge.t,
            filter (λ e, Edge.To e ≠ Edge.To edge ∨
                         Edge.Type_ e ≠ Edge.Type_ edge) l =
            filter (λ e, ¬ same e) l) as Hother.
  { intros l. apply list_filter_iff. intros e. unfold same.
    destruct (decide (Edge.To e = Edge.To edge));
      destruct (decide (Edge.Type_ e = Edge.Type_ edge)); naive_solver. }
  assert (after = filter (λ e, ¬ same e) before ++ [edge]) as Hafter.
  { unfold after. simpl. rewrite lookup_insert_eq. simpl.
    by rewrite Hother. }
  assert (∀ l : list Edge.t,
            filter same (filter (λ e, ¬ same e) l) = []) as Hnone.
  { intros l. rewrite list_filter_filter. apply elem_of_nil_inv.
    intros e [[? ?] _]%list_elem_of_filter. done. }
  assert (∀ l : list Edge.t,
            filter (λ e, ¬ same e) (filter (λ e, ¬ same e) l) =
            filter (λ e, ¬ same e) l) as Hidem.
  { intros l. rewrite list_filter_filter. apply list_filter_iff.
    naive_solver. }
  split_and!.
  - rewrite Hafter, filter_app, Hnone.
    rewrite filter_cons_True by done. done.
  - by rewrite Hafter, last_snoc.
  - rewrite Hafter, filter_app, Hidem.
    rewrite filter_cons_False by (intros Hn; by apply Hn).
    by rewrite app_nil_r.
  - unfold UpsertEdge at 1 3. simpl. f_equal.
    rewrite lookup_insert_eq. simpl. rewrite insert_insert_eq.
    f_equal. rewrite !Hother, filter_app, Hidem.
    rewrite filter_cons_False by (intros Hn; by apply Hn).
    by rewrite app_nil_r.
Qed.

(** X9. Counting edges. [AddEdge] never replaces: every call raises
    [EdgeCount] by one, and [AddEdgeBatch] by the length of the batch,
    also for an edge that is already stored; [UpsertEdge] raises it by at
    most one, and [DeleteNode] and [DeleteEdge] never raise it. *)
Theorem EdgeCount_changes (kg : KnowledgeGraph) :
  (∀ edge, EdgeCount (AddEdge kg edge) = S (EdgeCount kg)) ∧
  (∀ batch,
     EdgeCount (AddEdgeBatch kg batch) =
       (EdgeCount kg + length batch)%nat) ∧
  (∀ edge, (EdgeCount (UpsertEdge kg edge) ≤ S (EdgeCount kg))%nat) ∧
  (∀ id, (EdgeCount (DeleteNode kg id) ≤ EdgeCount kg)%nat) ∧
  (∀ from to edgeType,
     (EdgeCount (DeleteEdge kg from to edgeType) ≤ EdgeCount kg)%nat).
Proof.
  assert (∀ kg edge, EdgeCount (AddEdge kg edge) = S (EdgeCount kg))
    as Hadd.
  { intros kg' edge.
    pose proof (edgeSum_insert (edges kg') (Edge.From edge)
                  (default [] (edges kg' !! Edge.From edge) ++ [edge]))
      as Hsum.
    rewrite length_app in Hsum. simpl in Hsum.
    unfold EdgeCount, edgeSum in *. simpl. lia. }
  split_and!.
  - apply Hadd.
  - intros batch. rewrite AddEdgeBatch_foldl. revert kg.
    induction batch as [|edge batch IH]; intros kg; simpl; [lia|].
    rewrite IH, Hadd. lia.
  - intros edge.
    pose proof (edgeSum_insert (edges kg) (Edge.From edge)
      (filter (λ e, Edge.To e ≠ Edge.To edge ∨
                    Edge.Type_ e ≠ Edge.Type_ edge)
         (default [] (edges kg !! Edge.From edge)) ++ [edge])) as Hsum.
    rewrite length_app in Hsum. simpl in Hsum.
    pose proof (length_filter
      (λ e, Edge.To e ≠ Edge.To edge ∨ Edge.Type_ e ≠ Edge.Type_ edge)
      (default [] (edges kg !! Edge.From edge))).
    unfold EdgeCount, edgeSum in *. simpl. lia.
  - intros id.
    pose proof (edgeSum_fmap_filter (λ e, Edge.To e ≠ id)
                  (delete id (edges kg))) as Hfilter.
    pose proof (edgeSum_delete (edges kg) id) as Hdelete.
    unfold EdgeCount, edgeSum in *. simpl. lia.
  - intros from to edgeType.
    pose proof (edgeSum_insert (edges kg) from
      (filter (λ e, Edge.To e ≠ to ∨ Edge.Type_ e ≠ edgeType)
         (default [] (edges kg !! from)))) as Hsum.
    pose proof (length_filter
      (λ e, Edge.To e ≠ to ∨ Edge.Type_ e ≠ edgeType)
      (default [] (edges kg !! from))).
    unfold EdgeCount, edgeSum in *. simpl. lia.
Qed.

(** X10. Deleting an edge. [DeleteEdge] removes every copy of the edge,
    so deleting an edge right after adding or upserting it gives the
    state that deleting it from the original graph gives, and a second
    [DeleteEdge] changes nothing. *)
Theorem DeleteEdge_after_add (kg : KnowledgeGraph) (edge : Edge.t) :
  let delete kg :=
    DeleteEdge kg (Edge.From edge) (Edge.To edge) (Edge.Type_ edge) in
  delete (AddEdge kg edge) = delete kg ∧
  delete (UpsertEdge kg edge) = delete kg ∧
  delete (delete kg) = delete kg ∧
  Forall (λ e, Edge.To e ≠ Edge.To edge ∨ Edge.Type_ e ≠ Edge.Type_ edge)
    (default [] (edges (delete kg) !! Edge.From edge)).
Proof.
  intros delete. unfold delete, DeleteEdge. simpl.
  set (keep := λ e : Edge.t,
         Edge.To e ≠ Edge.To edge ∨ Edge.Type_ e ≠ Edge.Type_ edge).
  assert (¬ keep edge) as Hdrop by (unfold keep; naive_solver).
  assert (∀ l : list Edge.t,
            filter keep (filter keep l) = filter keep l) as Hidem.
  { intros l. rewrite list_filter_filter. apply list_filter_iff.
    naive_solver. }
  split_and!.
  - f_equal. rewrite lookup_insert_eq, insert_insert_eq. simpl.
    rewrite filter_app, filter_cons_False by done.
    by rewrite app_nil_r.
  - f_equal. rewrite lookup_insert_eq, insert_insert_eq. simpl.
    rewrite filter_app, filter_cons_False by done.
    by rewrite app_nil_r, Hidem.
  - f_equal. rewrite lookup_insert_eq, insert_insert_eq. simpl.
    by rewrite Hidem.
  - rewrite lookup_insert_eq. simpl. apply Forall_forall.
    by intros e [? _]%list_elem_of_filter.
Qed.

(** X11. Finding nodes after changes. [FindNodes] never fails, and what
    it returns does not depend on the order in which the map of nodes is
    enumerated, up to the order of the result; without a type and
    without filters it returns as many nodes as [NodeCount] says. A node
    that was just added is found whenever it has the type asked for and
    passes the filters. In a graph whose nodes are stored under their
    identifiers, the nodes found have pairwise distinct identifiers, and
    after [DeleteNode kg id] no node with the identifier [id] is found. *)
Theorem FindNodes_round_trip (rt : Runtime) (kg : KnowledgeGraph)
    (nodeType : string) (filters : gmap string string) :
  (FindNodes rt kg nodeType filters).2 = None ∧
  (∀ rt', (FindNodes rt kg nodeType filters).1 ≡ₚ
          (FindNodes rt' kg nodeType filters).1) ∧
  Z.of_nat (length (FindNodes rt kg "" ∅).1) = NodeCount kg ∧
  (∀ node,
     nodeType = "" ∨ Node.Type_ node = nodeType →
     matchesFilters (Node.Metadata node) filters = true →
     node ∈ (FindNodes rt (AddNode kg node) nodeType filters).1) ∧
  (wellKeyed kg →
   NoDup (Node.ID <$> (FindNodes rt kg nodeType filters).1) ∧
   ∀ id,
     Forall (λ node, Node.ID node ≠ id)
       (FindNodes rt (DeleteNode kg id) nodeType filters).1).
Proof.
  split_and!.
  - done.
  - intros rt'. by rewrite !FindNodes_perm.
  - rewrite FindNodes_perm. unfold NodeCount. f_equal.
    rewrite <-length_map_to_list, <-(length_fmap snd).
    induction (snd <$> map_to_list (nodes kg)) as [|node l IH]; [done|].
    rewrite filter_cons_True; [by rewrite !length_cons, IH|].
    split; [by left|].
    unfold matchesFilters. rewrite bool_decide_eq_true.
    apply map_Forall_empty.
  - intros node Htype Hfilters. apply FindNodes_elem_of.
    split_and!; [|done..]. exists (Node.ID node). simpl.
    apply lookup_insert_eq.
  - intros Hkg. split.
    + rewrite FindNodes_perm.
      eapply sublist_NoDup; [|apply fmap_sublist, sublist_filter].
      rewrite <-list_fmap_compose.
      assert ((Node.ID ∘ snd) <$> map_to_list (nodes kg) =
              (map_to_list (nodes kg)).*1) as ->.
      { apply list_fmap_ext. intros i [k n] Hi. simpl.
        apply list_elem_of_lookup_2, elem_of_map_to_list in Hi.
        by apply Hkg. }
      apply NoDup_fst_map_to_list.
    + intros id. apply Forall_forall.
      intros node [[k Hk] _]%FindNodes_elem_of. simpl in Hk.
      apply lookup_delete_Some in Hk as [Hne Hk].
      by rewrite (Hkg k node Hk).
Qed.
End graph_store_theorems.

(** ** The graph retriever *)

Section graph_retriever.
Import retrieve graph.

(** The traversal options [Retrieve] builds from the query and the
    configuration. *)
Definition traversalOptions (r : Retriever) (q : Query.t)
    : TraversalOptions.t :=
  TraversalOptions.mk
    (if Query.MaxDepth q =? 0
     then RetrieverConfig.DefaultDepth (config r)
     else Query.MaxDepth q)
    (RetrieverConfig.EdgeTypes (config r)) []
    (if Query.TopK q =? 0
     then RetrieverConfig.DefaultMaxNodes (config r)
     else Query.TopK q)
    (Query.MinScore q).

Lemma length_zero {A} (l : list A) :
  (Z.of_nat (length l) =? 0) = bool_decide (l = []).
Proof. by destruct l. Qed.

(** A successful call converts the nodes of some traversal result. *)
Lemma Retrieve_success rt r q res :
  value (Retrieve rt r q) = Some (Some res, None) →
  ∃ startNodes result,
    (startNodes = [] ∧ result = TraversalResult.mk [] [] ∅ ∨
     KnowledgeGraph.Traverse (RetrieverConfig.Graph (config r))
       startNodes (traversalOptions r q) = (Some result, None)) ∧
    (startNodes = hintedStartNodes q ∨
     hintedStartNodes q = [] ∧
     ∃ found,
       KnowledgeGraph.FindNodes (RetrieverConfig.Graph (config r)) ""
         (Query.Filters q) = (found, None) ∧
       startNodes = Node.ID <$> found) ∧
    Result.Items res = itemsOf r q result ∧
    Result.Query res = q ∧
    ResultMetadata.ModesUsed (Result.Metadata res) = [ModeGraph] ∧
    ResultMetadata.TotalCandidates (Result.Metadata res) =
      Z.of_nat (length (TraversalResult.Nodes result)).
Proof.
  unfold Retrieve. fold (traversalOptions r q).
  set (kg := RetrieverConfig.Graph (config r)).
  rewrite length_zero. case_bool_decide as Hhints.
  - destruct (KnowledgeGraph.FindNodes kg "" (Query.Filters q))
      as [found [err|]] eqn:Hfind; [done|].
    rewrite Hhints. simpl. rewrite length_zero.
    case_bool_decide as Hempty.
    + intros [= <-].
      exists (Node.ID <$> found), (TraversalResult.mk [] [] ∅).
      split_and!; eauto.
    + destruct (KnowledgeGraph.Traverse kg _ _)
        as [[result|] [err|]] eqn:Htraverse; try done.
      destruct (RetrieverConfig.Observer (config r)); simpl;
        intros [= <-]; exists (Node.ID <$> found), result;
        split_and!; eauto.
  - cbv iota beta. rewrite length_zero, bool_decide_eq_false_2 by done.
    destruct (KnowledgeGraph.Traverse kg _ _)
      as [[result|] [err|]] eqn:Htraverse; try done.
    destruct (RetrieverConfig.Observer (config r)); simpl;
      intros [= <-]; exists (hintedStartNodes q), result;
      split_and!; eauto.
Qed.

Lemma itemsOf_elem_of r q result item :
  item ∈ itemsOf r q result →
  ∃ node,
    node ∈ TraversalResult.Nodes result ∧
    ((0 <? Query.MinScore q)%float = true →
     (ContextItem.Score item <? Query.MinScore q)%float = false) ∧
    item =
      ContextItem.mk (Node.ID node) (Node.Content node) (Node.Source node)
        (computePathScore
           (default [] (TraversalResult.Paths result !! Node.ID node))
           (TraversalResult.Edges result))
        (Node.Metadata node)
        (Provenance.mk ModeGraph
           (KnowledgeGraph.Name (RetrieverConfig.Graph (config r)))
           (default [] (TraversalResult.Paths result !! Node.ID node))
           0%float 0%float).
Proof.
  unfold itemsOf. rewrite list_elem_of_omap. intros (node & Hnode & Hitem).
  exists node. split; [done|].
  destruct (_ <? Query.MinScore q)%float eqn:Hlow;
    destruct (0 <? Query.MinScore q)%float eqn:Hpos;
    simpl in Hitem; try done; injection Hitem as <-; simpl;
    (split; [congruence|done]).
Qed.

Lemma itemsOf_sublist r q result :
  sublist (ContextItem.ID <$> itemsOf r q result)
    (Node.ID <$> TraversalResult.Nodes result).
Proof.
  unfold itemsOf.
  induction (TraversalResult.Nodes result) as [|node ns IH]; [done|].
  simpl. destruct (_ && _); simpl.
  - by apply sublist_cons.
  - by apply sublist_skip.
Qed.

(** X12. Items of the graph retriever. Whatever graph backs it, a result
    of the graph retriever echoes the query, names the graph mode alone,
    holds at most [TotalCandidates] items, each attributed to the graph
    mode and the backend's name, and when the query's [MinScore] is
    positive no item scores below it. *)
Theorem graph_Retrieve_items (rt : Runtime) (r : Retriever) (q : Query.t)
    (res : Result.t) :
  value (Retrieve rt r q) = Some (Some res, None) →
  Result.Query res = q ∧
  ResultMetadata.ModesUsed (Result.Metadata res) = [ModeGraph] ∧
  Z.of_nat (length (Result.Items res)) ≤
    ResultMetadata.TotalCandidates (Result.Metadata res) ∧
  Forall (λ item,
    Provenance.Mode (ContextItem.Provenance item) = ModeGraph ∧
    Provenance.Backend (ContextItem.Provenance item) =
      KnowledgeGraph.Name (RetrieverConfig.Graph (config r)) ∧
    ((0 <? Query.MinScore q)%float = true →
     (ContextItem.Score item <? Query.MinScore q)%float = false))
    (Result.Items res).
Proof.
  intros (startNodes & result & _ & _ & -> & -> & -> & ->)%Retrieve_success.
  split_and!; [done..| |].
  - pose proof (sublist_length _ _ (itemsOf_sublist r q result)) as Hlen.
    rewrite !length_fmap in Hlen. lia.
  - apply Forall_forall. intros item Hitem.
    destruct (itemsOf_elem_of _ _ _ _ Hitem) as (node & _ & Hscore & ->).
    done.
Qed.

(** X13. Errors of the graph. When no entity hint has an identifier and
    [FindNodes] fails, [Retrieve] returns that error. When [Traverse]
    fails, [Retrieve] returns that error, whether the start nodes are the
    hinted identifiers or the identifiers of the nodes that [FindNodes]
    returned. In both cases there is no result and the observer is not
    notified. When a hint has an identifier, [FindNodes] is not
    consulted: the outcome does not depend on it. When there is no start
    node at all, [Traverse] is not called: the result is empty, whatever
    [Traverse] would answer. *)
Theorem graph_Retrieve_errors (rt : Runtime) (r : Retriever) (q : Query.t) :
  let kg := RetrieverConfig.Graph (config r) in
  (∀ found err,
     hintedStartNodes q = [] →
     KnowledgeGraph.FindNodes kg "" (Query.Filters q) = (found, Some err) →
     Retrieve rt r q = ret (None, Some err)) ∧
  (∀ startNodes err,
     hintedStartNodes q ≠ [] ∧ startNodes = hintedStartNodes q ∨
     hintedStartNodes q = [] ∧
     (∃ found,
        KnowledgeGraph.FindNodes kg "" (Query.Filters q) = (found, None) ∧
        found ≠ [] ∧ startNodes = Node.ID <$> found) →
     (KnowledgeGraph.Traverse kg startNodes (traversalOptions r q)).2 =
       Some err →
     Retrieve rt r q = ret (None, Some err)) ∧
  (∀ findNodes,
     hintedStartNodes q ≠ [] →
     Retrieve rt r q =
     Retrieve rt
       {| config :=
            RetrieverConfig.mk
              (KnowledgeGraph.mk (KnowledgeGraph.Traverse kg) findNodes
                 (KnowledgeGraph.Name kg))
              (RetrieverConfig.DefaultDepth (config r))
              (RetrieverConfig.DefaultMaxNodes (config r))
              (RetrieverConfig.EdgeTypes (config r))
              (RetrieverConfig.Observer (config r)) |} q) ∧
  (hintedStartNodes q = [] →
   KnowledgeGraph.FindNodes kg "" (Query.Filters q) = ([], None) →
   Retrieve rt r q =
   ret (Some (Result.mk [] q (ResultMetadata.mk 0 0 [ModeGraph] false)),
        None)).
Proof.
  intros kg. split_and!.
  - intros found err Hhints Hfind. unfold Retrieve. fold kg.
    rewrite Hhints. simpl. by rewrite Hfind.
  - intros startNodes err Hstart Herr. unfold Retrieve. fold kg.
    fold (traversalOptions r q).
    destruct Hstart as [[Hhints ->]|(Hhints & found & Hfind & Hne & ->)].
    + rewrite length_zero, bool_decide_eq_false_2 by done. cbv iota beta.
      rewrite length_zero, bool_decide_eq_false_2 by done.
      destruct (KnowledgeGraph.Traverse kg _ _) as [result [err'|]];
        simpl in Herr; [|done].
      injection Herr as ->. by destruct result.
    + rewrite Hhints. simpl. rewrite Hfind. simpl.
      rewrite length_zero, bool_decide_eq_false_2
        by (by destruct found).
      destruct (KnowledgeGraph.Traverse kg _ _) as [result [err'|]];
        simpl in Herr; [|done].
      injection Herr as ->. by destruct result.
  - intros findNodes Hhints. unfold Retrieve. fold kg. simpl.
    by rewrite length_zero, bool_decide_eq_false_2 by done.
  - intros Hhints Hfind. unfold Retrieve. fold kg.
    rewrite Hhints. simpl. by rewrite Hfind.
Qed.
End graph_retriever.

(** ** The graph retriever over the in-memory graph *)

Section graph_retriever_in_memory.
Import retrieve graph.
Context (rt rt' : Runtime) (kg : memory.KnowledgeGraph).
Context (depth maxNodes : Z) (edgeTypes : list string) (observer : bool).

Definition inMemoryRetriever : Retriever :=
  {| config :=
       RetrieverConfig.mk (memory.asKnowledgeGraph rt' kg) depth maxNodes
         edgeTypes observer |}.

Lemma Retrieve_in_memory q :
  ∃ res startNodes result,
    value (Retrieve rt inMemoryRetriever q) = Some (Some res, None) ∧
    memory.Traverse kg startNodes (traversalOptions inMemoryRetriever q) =
      (Some result, None) ∧
    (startNodes = hintedStartNodes q ∨
     hintedStartNodes q = [] ∧
     startNodes =
       Node.ID <$> (memory.FindNodes rt' kg "" (Query.Filters q)).1) ∧
    Result.Items res = itemsOf inMemoryRetriever q result ∧
    ResultMetadata.TotalCandidates (Result.Metadata res) =
      Z.of_nat (length (TraversalResult.Nodes result)).
Proof.
  assert (∃ res, value (Retrieve rt inMemoryRetriever q) =
                 Some (Some res, None)) as [res Hres].
  { unfold Retrieve. fold (traversalOptions inMemoryRetriever q).
    simpl (RetrieverConfig.Graph _). simpl (KnowledgeGraph.FindNodes _).
    unfold memory.FindNodes at 1.
    assert (∀ startNodes,
      ∃ res,
        value
          (if Z.of_nat (length startNodes) =? 0
           then ret (Some (Result.mk [] q
                             (ResultMetadata.mk 0 0 [ModeGraph] false)),
                     None)
           else
             match KnowledgeGraph.Traverse
                     (memory.asKnowledgeGraph rt' kg) startNodes
                     (traversalOptions inMemoryRetriever q) with
             | (_, Some err) => ret (None, Some err)
             | (None, None) => panic
             | (Some result, None) =>
                 do _ <-
                   (if RetrieverConfig.Observer (config inMemoryRetriever)
                    then call
                           (CallOnGraphTraverse
                              (KnowledgeGraph.Name
                                 (memory.asKnowledgeGraph rt' kg))
                              (TraversalOptions.Depth
                                 (traversalOptions inMemoryRetriever q))
                              (Z.of_nat
                                 (length
                                    (itemsOf inMemoryRetriever q result)))
                              (rt_elapsedMS rt)) tt
                    else ret tt);
                 ret (Some (Result.mk (itemsOf inMemoryRetriever q result) q
                              (ResultMetadata.mk
                                 (Z.of_nat
                                    (length
                                       (TraversalResult.Nodes result)))
                                 (rt_elapsedMS rt) [ModeGraph] false)),
                      None)
             end) = Some (Some res, None)) as Hrest.
    { intros startNodes. destruct (_ =? 0); [by eexists|].
      simpl (KnowledgeGraph.Traverse _).
      destruct (Traverse_total kg (traversalOptions inMemoryRetriever q)
                  startNodes) as (st & _ & ->).
      simpl. destruct observer; by eexists. }
    destruct (_ =? 0); apply Hrest. }
  exists res.
  destruct (Retrieve_success _ _ _ _ Hres)
    as (startNodes & result & Htraverse & Hstart & Hitems & _ & _ & Htotal).
  exists startNodes, result. split_and!; [done| | |done..].
  - destruct Htraverse as [[-> ->]|Htraverse]; [|done].
    unfold memory.Traverse. simpl. by destruct (memory.EdgeCount kg).
  - destruct Hstart as [->|(Hhints & found & Hfind & ->)]; [by left|].
    right. split; [done|]. simpl in Hfind. by rewrite Hfind.
Qed.
End graph_retriever_in_memory.

Section traverse_paths.
Import graph memory.

Lemma Forall2_keys kg (keys : list string) (ns : list Node.t) :
  wellKeyed kg →
  Forall2 (λ k n, nodes kg !! k = Some n) keys ns →
  Node.ID <$> ns = keys.
Proof.
  intros Hkg. induction 1 as [|k n ks ns' Hk _ IH]; [done|].
  by rewrite fmap_cons, IH, (Hkg k n Hk).
Qed.

(** The recorded paths of the nodes of a result, for a graph whose nodes
    are stored under their identifiers. *)
Lemma Traverse_paths kg startNodes opts result node :
  wellKeyed kg →
  Traverse kg startNodes opts = (Some result, None) →
  node ∈ TraversalResult.Nodes result →
  ∃ path,
    TraversalResult.Paths result !! Node.ID node = Some path ∧
    pathTo kg startNodes (Node.ID node) path ∧
    Z.of_nat (length path) ≤ Z.max 0 (TraversalOptions.Depth opts) + 1 ∧
    Forall (mentioned kg) path.
Proof.
  intros Hkg Htraverse Hnode.
  destruct (Traverse_total kg opts startNodes) as (st & Hloop & Hst).
  rewrite Hst in Htraverse. injection Htraverse as <-. simpl in *.
  destruct (bfsLoop_inv kg opts startNodes _ _ _
              (initial_inv kg opts startNodes) Hloop)
    as (_ & Hpaths & Hnodes).
  destruct (bfsLoop_mentions kg opts _ _ _
              (initial_mentions kg startNodes) Hloop) as [_ Hmentions].
  destruct (Hnodes node Hnode) as (k & Hk & [path Hpath]).
  rewrite (Hkg k node Hk). exists path.
  destruct (Hpaths k path Hpath) as [Hto Hlen].
  split_and!; [done..|]. by apply (Hmentions k).
Qed.
End traverse_paths.

Section graph_retriever_in_memory_theorems.
Import retrieve graph.

(** X14. The graph retriever over the in-memory graph always returns a
    result: it neither fails nor panics, whatever the query, and it
    returns at most [TopK] items ([DefaultMaxNodes] when [TopK] is zero),
    none when that limit is negative. *)
Theorem graph_Retrieve_in_memory_limit (rt rt' : Runtime)
    (kg : memory.KnowledgeGraph) (depth maxNodes : Z)
    (edgeTypes : list string) (observer : bool) (q : Query.t) :
  ∃ res,
    value (Retrieve rt
             (inMemoryRetriever rt' kg depth maxNodes edgeTypes observer)
             q) = Some (Some res, None) ∧
    Z.of_nat (length (Result.Items res)) ≤
      ResultMetadata.TotalCandidates (Result.Metadata res) ∧
    ResultMetadata.TotalCandidates (Result.Metadata res) ≤
      Z.max 0 (if Query.TopK q =? 0 then maxNodes else Query.TopK q).
Proof.
  destruct (Retrieve_in_memory rt rt' kg depth maxNodes edgeTypes observer
              q)
    as (res & startNodes & result & Hres & Ht & _ & Hitems & Htotal).
  exists res. split; [done|]. rewrite Hitems, Htotal. split.
  - pose proof (sublist_length _ _
      (itemsOf_sublist
         (inMemoryRetriever rt' kg depth maxNodes edgeTypes observer)
         q result)) as Hlen.
    rewrite !length_fmap in Hlen. lia.
  - destruct (Traverse_final kg
                (traversalOptions
                   (inMemoryRetriever rt' kg depth maxNodes edgeTypes
                      observer) q) startNodes) as (st & Hst & _ & Hlen).
    rewrite Hst in Ht. injection Ht as <-. done.
Qed.

(** X15. Items over the in-memory graph. For a graph whose nodes are
    stored under their identifiers, the items have pairwise distinct
    identifiers; each item copies the content, source and metadata of
    the stored node with its identifier; and its [GraphPath] starts at a
    start node, follows edges of the graph, ends at the item's node and
    has at most [MaxDepth] hops ([DefaultDepth] when [MaxDepth] is zero,
    none when the depth is negative). The start node is a hinted
    identifier or, when no hint has an identifier, a stored node that
    passes the filters of the query. *)
Theorem graph_Retrieve_in_memory_items (rt rt' : Runtime)
    (kg : memory.KnowledgeGraph) (depth maxNodes : Z)
    (edgeTypes : list string) (observer : bool) (q : Query.t) :
  wellKeyed kg →
  ∃ res,
    value (Retrieve rt
             (inMemoryRetriever rt' kg depth maxNodes edgeTypes observer)
             q) = Some (Some res, None) ∧
    NoDup (ContextItem.ID <$> Result.Items res) ∧
    Forall (λ item,
      (∃ node,
         memory.nodes kg !! ContextItem.ID item = Some node ∧
         ContextItem.Content item = Node.Content node ∧
         ContextItem.Source item = Node.Source node ∧
         ContextItem.Metadata item = Node.Metadata node) ∧
      let path := Provenance.GraphPath (ContextItem.Provenance item) in
      (∃ start,
         head path = Some start ∧
         (start ∈ hintedStartNodes q ∨
          hintedStartNodes q = [] ∧
          ∃ node,
            memory.nodes kg !! start = Some node ∧
            memory.matchesFilters (Node.Metadata node) (Query.Filters q) =
              true)) ∧
      last path = Some (ContextItem.ID item) ∧
      walk kg path ∧
      Z.of_nat (length path) ≤
        Z.max 0
          (if Query.MaxDepth q =? 0 then depth else Query.MaxDepth q) + 1)
      (Result.Items res).
Proof.
  intros Hkg.
  set (r := inMemoryRetriever rt' kg depth maxNodes edgeTypes observer).
  destruct (Retrieve_in_memory rt rt' kg depth maxNodes edgeTypes observer
              q)
    as (res & startNodes & result & Hres & Ht & Hstart & Hitems & _).
  fold r in Hres, Ht, Hitems.
  exists res. split; [done|]. rewrite Hitems.
  destruct (Traverse_final kg (traversalOptions r q) startNodes)
    as (st & Hst & ((keys & Hnd & Hkeys & _) & _) & _).
  split.
  - eapply sublist_NoDup; [|apply itemsOf_sublist].
    rewrite Hst in Ht. injection Ht as <-. simpl.
    by rewrite (Forall2_keys kg keys _ Hkg Hkeys).
  - apply Forall_forall. intros item Hitem.
    destruct (itemsOf_elem_of _ _ _ _ Hitem) as (node & Hnode & _ & ->).
    destruct (Traverse_paths kg startNodes (traversalOptions r q) result
                node Hkg Ht Hnode)
      as (path & Hpath & ((s & Hs & Hhead) & Hlast & Hwalk) & Hlen & _).
    simpl. rewrite Hpath. simpl. split_and!; [| |done..].
    + exists node. split_and!; [|done..].
      rewrite Hst in Ht. injection Ht as <-. simpl in Hnode.
      apply list_elem_of_lookup in Hnode as [i Hi].
      destruct (Forall2_lookup_r _ _ _ _ _ Hkeys Hi) as (k & _ & Hk).
      by rewrite (Hkg k node Hk).
    + exists s. split; [done|].
      destruct Hstart as [->|[Hhints ->]]; [by left|].
      right. split; [done|].
      apply list_elem_of_fmap in Hs as (found & -> & Hfound).
      apply FindNodes_elem_of in Hfound as ([k Hk] & _ & Hmatch).
      exists found. split; [|done]. by rewrite (Hkg k found Hk).
Qed.
End graph_retriever_in_memory_theorems.

(** ** Fusion of lists with repeated identifiers *)

Section fusion_general.
Import retrieve hybrid.
Context (w : Weights.t).

(** The items of [l] with the identifier [x], in order. *)
Definition occurrences (x : string) (l : list ContextItem)
    : list ContextItem :=
  filter (λ i, ContextItem.ID i = x) l.

Lemma loop_lookup_fold
    (entry : option ContextItem → ContextItem → ContextItem)
    (step : gmap string ContextItem → ContextItem →
            gmap string ContextItem) :
  (∀ m item,
     step m item =
     <[ContextItem.ID item := entry (m !! ContextItem.ID item) item]> m) →
  ∀ l m x,
    foldl step m l !! x =
    foldl (λ old item, Some (entry old item)) (m !! x) (occurrences x l).
Proof.
  intros Hstep. induction l as [|item l IH]; intros m x; simpl; [done|].
  rewrite IH, Hstep. unfold occurrences. rewrite filter_cons.
  destruct (decide (ContextItem.ID item = x)) as [<-|Hne]; simpl.
  - by rewrite lookup_insert_eq.
  - by rewrite lookup_insert_ne.
Qed.

(** [first] with another score and graph path. *)
Definition fusedItem (first : ContextItem) (score : float)
    (graphPath : list string) : ContextItem :=
  ContextItem.mk (ContextItem.ID first) (ContextItem.Content first)
    (ContextItem.Source first) score (ContextItem.Metadata first)
    (Provenance.mk (Provenance.Mode (ContextItem.Provenance first))
       (Provenance.Backend (ContextItem.Provenance first)) graphPath
       (Provenance.SimilarityScore (ContextItem.Provenance first))
       (Provenance.RerankerScore (ContextItem.Provenance first))).

Definition graphPathOf (item : ContextItem) : list string :=
  Provenance.GraphPath (ContextItem.Provenance item).

Definition vectorTerms (l : list ContextItem) : list float :=
  (λ i, ContextItem.Score i * Weights.Vector w)%float <$> l.

Definition graphTerms (l : list ContextItem) : list float :=
  (λ i, ContextItem.Score i * Weights.Graph w)%float <$> l.

Definition sumFrom (first : float) (rest : list float) : float :=
  foldl (λ acc term, acc + term)%float first rest.

(** The last path of [paths] that is not empty, [path] if there is
    none. *)
Definition lastPath (path : list string) (paths : list (list string))
    : list string :=
  default path (last (filter (λ p, p ≠ []) paths)).

Lemma fusedItem_id item :
  fusedItem item (ContextItem.Score item) (graphPathOf item) = item.
Proof. by destruct item as [? ? ? ? ? []]. Qed.

Lemma vectorEntry_None item :
  vectorEntry w None item =
  fusedItem item (ContextItem.Score item * Weights.Vector w)%float
    (graphPathOf item).
Proof. by destruct item as [? ? ? ? ? []]. Qed.

Lemma graphEntry_None item :
  graphEntry w None item =
  fusedItem item (ContextItem.Score item * Weights.Graph w)%float
    (graphPathOf item).
Proof. by destruct item as [? ? ? ? ? []]. Qed.

Lemma vector_fold first score path l :
  foldl (λ old item, Some (vectorEntry w old item))
    (Some (fusedItem first score path)) l =
  Some (fusedItem first (sumFrom score (vectorTerms l)) path).
Proof.
  revert score. induction l as [|item l IH]; intros score; [done|].
  simpl. unfold ContextItem.withScore. simpl. by rewrite <-IH.
Qed.

Lemma lastPath_cons path p paths :
  lastPath path (p :: paths) =
  lastPath (if 0 <? Z.of_nat (length p) then p else path) paths.
Proof.
  unfold lastPath. destruct p as [|a p].
  { by rewrite filter_cons_False by naive_solver. }
  rewrite filter_cons_True by done.
  change (0 <? Z.of_nat (length (a :: p))) with true. cbv iota.
  rewrite last_cons. by destruct (last _).
Qed.

Lemma graph_fold first score path l :
  foldl (λ old item, Some (graphEntry w old item))
    (Some (fusedItem first score path)) l =
  Some (fusedItem first (sumFrom score (graphTerms l))
          (lastPath path (graphPathOf <$> l))).
Proof.
  revert score path. induction l as [|item l IH]; intros score path.
  { done. }
  rewrite fmap_cons, lastPath_cons. simpl. rewrite <-IH. f_equal.
  unfold graphEntry, graphPathOf. by destruct (0 <? _).
Qed.

Lemma sumFrom_app first l1 l2 :
  sumFrom (sumFrom first l1) l2 = sumFrom first (l1 ++ l2).
Proof. unfold sumFrom. by rewrite foldl_app. Qed.

(** The entry of [merged] for [x] after both loops. *)
Lemma mergedMap_lookup v g x :
  mergedMap w v g !! x =
  match occurrences x v, occurrences x g with
  | first :: vs, gs =>
      Some (fusedItem first
              (sumFrom (ContextItem.Score first * Weights.Vector w)%float
                 (vectorTerms vs ++ graphTerms gs))
              (lastPath (graphPathOf first) (graphPathOf <$> gs)))
  | [], first :: gs =>
      Some (fusedItem first
              (sumFrom (ContextItem.Score first * Weights.Graph w)%float
                 (graphTerms gs))
              (lastPath (graphPathOf first) (graphPathOf <$> gs)))
  | [], [] => None
  end.
Proof.
  unfold mergedMap.
  rewrite (loop_lookup_fold (graphEntry w) _ (mergeGraphItem_eq w)).
  rewrite (loop_lookup_fold (vectorEntry w) _ (mergeVectorItem_eq w)).
  rewrite lookup_empty.
  destruct (occurrences x v) as [|first vs]; cbn [foldl].
  - destruct (occurrences x g) as [|first gs]; cbn [foldl]; [done|].
    by rewrite graphEntry_None, graph_fold.
  - by rewrite vectorEntry_None, vector_fold, graph_fold, sumFrom_app.
Qed.
End fusion_general.

Section fusion_general_theorems.
Import retrieve hybrid.

Lemma occurrences_nil x (l : list ContextItem) :
  occurrences x l = [] ↔ x ∉ ContextItem.ID <$> l.
Proof.
  unfold occurrences. split.
  - intros Hnil (i & -> & Hi)%list_elem_of_fmap.
    assert (i ∈ filter (λ i', ContextItem.ID i' = ContextItem.ID i) l)
      as Hin by (by apply list_elem_of_filter).
    rewrite Hnil in Hin. by apply elem_of_nil in Hin.
  - intros Hx. apply elem_of_nil_inv. intros i [<- Hi]%list_elem_of_filter.
    apply Hx. by apply list_elem_of_fmap_2.
Qed.

(** X16. Identifiers after fusion. Whatever the two lists hold, also
    with identifiers repeated within a list, the output of [mergeResults]
    has pairwise distinct identifiers, and they are exactly the
    identifiers of the input items: nothing is dropped and nothing
    invented. *)
Theorem mergeResults_identifiers (rt : Runtime) (r : Retriever)
    (vectorItems graphItems : list ContextItem) :
  NoDup (ContextItem.ID <$> mergeResults rt r vectorItems graphItems) ∧
  ∀ x,
    x ∈ ContextItem.ID <$> mergeResults rt r vectorItems graphItems ↔
    x ∈ ContextItem.ID <$> vectorItems ∨
    x ∈ ContextItem.ID <$> graphItems.
Proof.
  split; [apply mergeResults_NoDup|].
  intros x.
  pose proof (mergedMap_lookup (RetrieverConfig.Weights (config r))
                vectorItems graphItems x) as Hx.
  pose proof (occurrences_nil x vectorItems) as Hv.
  pose proof (occurrences_nil x graphItems) as Hg.
  rewrite list_elem_of_fmap. split.
  - intros (o & -> & (c & Hc & ->)%elem_of_mergeResults).
    change (ContextItem.ID (markHybrid c)) with (ContextItem.ID c) in *.
    rewrite Hc in Hx.
    destruct (occurrences (ContextItem.ID c) vectorItems) as [|? ?].
    + destruct (occurrences (ContextItem.ID c) graphItems) as [|? ?];
        [done|].
      right. destruct (decide (ContextItem.ID c ∈
                                 ContextItem.ID <$> graphItems)); [done|].
      by apply Hg in n.
    + left. destruct (decide (ContextItem.ID c ∈
                                ContextItem.ID <$> vectorItems)); [done|].
      by apply Hv in n.
  - intros Hin.
    assert (∃ c, mergedMap (RetrieverConfig.Weights (config r))
                   vectorItems graphItems !! x = Some c) as [c Hc].
    { rewrite Hx.
      destruct (occurrences x vectorItems) as [|? ?]; [|by eexists].
      destruct (occurrences x graphItems) as [|? ?]; [|by eexists].
      destruct Hin as [Hin|Hin]; [by apply Hv in Hin|by apply Hg in Hin]. }
    destruct (mergedMap_framed _ vectorItems graphItems _ _ Hc) as [Hid _].
    exists (markHybrid c). split; [done|].
    apply elem_of_mergeResults. exists c. by rewrite Hid.
Qed.

(** X17. Fused score in general. The score of an output item of
    [mergeResults] is the sum, from left to right, of the weighted scores
    of all input items with its identifier: those of the vector list, in
    order, each times the vector weight, then those of the graph list,
    each times the graph weight. *)
Theorem mergeResults_sums (rt : Runtime) (r : Retriever)
    (vectorItems graphItems : list ContextItem) :
  let w := RetrieverConfig.Weights (config r) in
  Forall (λ o,
    ∃ first rest,
      vectorTerms w (occurrences (ContextItem.ID o) vectorItems) ++
      graphTerms w (occurrences (ContextItem.ID o) graphItems) =
        first :: rest ∧
      ContextItem.Score o = sumFrom first rest)
    (mergeResults rt r vectorItems graphItems).
Proof.
  intros w. apply Forall_forall.
  intros o (c & Hc & ->)%elem_of_mergeResults.
  change (ContextItem.ID (markHybrid c)) with (ContextItem.ID c).
  change (ContextItem.Score (markHybrid c)) with (ContextItem.Score c).
  rewrite mergedMap_lookup in Hc. fold w in Hc.
  remember (ContextItem.ID c) as x eqn:Hx.
  destruct (occurrences x vectorItems) as [|first vs].
  - destruct (occurrences x graphItems) as [|first gs]; [done|].
    injection Hc as <-. eexists _, _. split; reflexivity.
  - injection Hc as <-. eexists _, _. split; reflexivity.
Qed.

(** X18. What fusion keeps. An output item of [mergeResults] has the
    content, source, metadata, backend and similarity score of the first
    input item with its identifier, vector list first; its mode is
    "hybrid"; and its graph path is the last non-empty graph path of the
    graph items with its identifier, that of the first item when there
    is none. *)
Theorem mergeResults_first_wins (rt : Runtime) (r : Retriever)
    (vectorItems graphItems : list ContextItem) :
  Forall (λ o,
    ∃ first,
      head (occurrences (ContextItem.ID o) (vectorItems ++ graphItems)) =
        Some first ∧
      ContextItem.Content o = ContextItem.Content first ∧
      ContextItem.Source o = ContextItem.Source first ∧
      ContextItem.Metadata o = ContextItem.Metadata first ∧
      Provenance.Backend (ContextItem.Provenance o) =
        Provenance.Backend (ContextItem.Provenance first) ∧
      Provenance.SimilarityScore (ContextItem.Provenance o) =
        Provenance.SimilarityScore (ContextItem.Provenance first) ∧
      Provenance.Mode (ContextItem.Provenance o) = ModeHybrid ∧
      Provenance.GraphPath (ContextItem.Provenance o) =
        lastPath (graphPathOf first)
          (graphPathOf <$> occurrences (ContextItem.ID o) graphItems))
    (mergeResults rt r vectorItems graphItems).
Proof.
  apply Forall_forall.
  intros o (c & Hc & ->)%elem_of_mergeResults.
  change (ContextItem.ID (markHybrid c)) with (ContextItem.ID c).
  rewrite mergedMap_lookup in Hc.
  remember (ContextItem.ID c) as x eqn:Hx.
  unfold occurrences at 1. rewrite filter_app.
  fold (occurrences x vectorItems). fold (occurrences x graphItems).
  destruct (occurrences x vectorItems) as [|first vs].
  - destruct (occurrences x graphItems) as [|first gs] eqn:Hgs; [done|].
    injection Hc as <-. exists first. split_and!; try done.
    rewrite fmap_cons, lastPath_cons. by destruct (0 <? _).
  - injection Hc as <-. by exists first.
Qed.
End fusion_general_theorems.

(** ** The hybrid pipeline *)

Section pipeline_general.
Import retrieve hybrid.

(** *** Deduplication of distinct identifiers *)

Lemma dedupLoop_distinct seen result items :
  (∀ i, i ∈ items → seen !! ContextItem.ID i = None) →
  NoDup (ContextItem.ID <$> items) →
  ∃ seen', dedupLoop (seen, result) items = Some (seen', result ++ items).
Proof.
  revert seen result.
  induction items as [|item items IH]; intros seen result Hnew Hnd.
  { exists seen. by rewrite app_nil_r. }
  rewrite fmap_cons, NoDup_cons in Hnd. destruct Hnd as [Hfresh Hnd].
  simpl. rewrite (Hnew item) by left.
  destruct (IH (<[ContextItem.ID item := length result]> seen)
              (result ++ [item])) as [seen' Hloop]; [|done|].
  - intros i Hi. rewrite lookup_insert_ne.
    + apply Hnew. by right.
    + intros Heq. apply Hfresh. rewrite Heq. by apply list_elem_of_fmap_2.
  - exists seen'. by rewrite Hloop, <-(assoc_L (++)).
Qed.

Lemma deduplicate_distinct items :
  NoDup (ContextItem.ID <$> items) → deduplicate items = Some items.
Proof.
  intros Hnd. unfold deduplicate.
  destruct (dedupLoop_distinct ∅ [] items) as [seen' ->]; [|done..].
  intros i _. apply lookup_empty.
Qed.

(** *** What the policies return *)

(** The retriever that [c] calls is configured and returns a result for
    the query of the call. *)
Definition answered (r : Retriever) (c : Call) : Prop :=
  match c with
  | CallVector q =>
      ∃ v res, RetrieverConfig.Vector (config r) = Some v ∧ v q = Ok res
  | CallGraph q =>
      ∃ g res, RetrieverConfig.Graph (config r) = Some g ∧ g q = Ok res
  | _ => True
  end.

Lemma retrieveParallel_outcome rt r q :
  ∃ out t,
    retrieveParallel rt r q = (Some out, t) ∧
    (out.2 = None →
     (∃ vectorItems graphItems,
        out.1.1.1 = mergeResults rt r vectorItems graphItems) ∧
     Forall (answered r) t).
Proof.
  unfold retrieveParallel, bothBranches, vectorBranch, graphBranch.
  destruct (RetrieverConfig.Vector (config r)) as [v|] eqn:Hv;
    destruct (RetrieverConfig.Graph (config r)) as [g|] eqn:Hg;
    try destruct (v q) as [rv|ev] eqn:Hvq;
    try destruct (g q) as [rg|eg] eqn:Hgq;
    destruct (rt_vectorFirst rt); simpl;
    eexists _, _; (split; [reflexivity|]); simpl; intros Herr;
    try discriminate Herr;
    (split; [by eexists _, _|]);
    repeat (apply Forall_cons; split; [simpl; eauto|]);
    apply Forall_nil_2.
Qed.

Lemma retrieveVectorThenGraph_outcome rt r q :
  ∃ out t,
    retrieveVectorThenGraph rt r q = (Some out, t) ∧
    (out.2 = None →
     (∃ vectorItems graphItems,
        out.1.1.1 = mergeResults rt r vectorItems graphItems) ∧
     Forall (answered r) t).
Proof.
  unfold retrieveVectorThenGraph.
  destruct (RetrieverConfig.Vector (config r)) as [v|] eqn:Hv;
    destruct (RetrieverConfig.Graph (config r)) as [g|] eqn:Hg; simpl;
    try destruct (v q) as [rv|ev] eqn:Hvq; simpl;
    try destruct (0 <? _); simpl;
    try destruct (g _) as [rg|eg] eqn:Hgq; simpl;
    eexists _, _; (split; [reflexivity|]); simpl; intros Herr;
    try discriminate Herr;
    (split; [by eexists _, _|]);
    repeat (apply Forall_cons; split; [simpl; eauto|]);
    apply Forall_nil_2.
Qed.

Lemma retrieveGraphThenVector_outcome rt r q :
  ∃ out t,
    retrieveGraphThenVector rt r q = (Some out, t) ∧
    (out.2 = None →
     (∃ vectorItems graphItems,
        out.1.1.1 = mergeResults rt r vectorItems graphItems) ∧
     Forall (answered r) t).
Proof.
  unfold retrieveGraphThenVector.
  destruct (RetrieverConfig.Vector (config r)) as [v|] eqn:Hv;
    destruct (RetrieverConfig.Graph (config r)) as [g|] eqn:Hg; simpl;
    try destruct (g q) as [rg|eg] eqn:Hgq; simpl;
    try destruct (v q) as [rv|ev] eqn:Hvq; simpl;
    eexists _, _; (split; [reflexivity|]); simpl; intros Herr;
    try discriminate Herr;
    (split; [by eexists _, _|]);
    repeat (apply Forall_cons; split; [simpl; eauto|]);
    apply Forall_nil_2.
Qed.

Lemma dispatch_outcome rt r q :
  ∃ out t,
    dispatch rt r q = (Some out, t) ∧
    (out.2 = None →
     (∃ vectorItems graphItems,
        out.1.1.1 = mergeResults rt r vectorItems graphItems) ∧
     Forall (answered r) t).
Proof.
  unfold dispatch. repeat case_match;
    auto using retrieveParallel_outcome, retrieveVectorThenGraph_outcome,
      retrieveGraphThenVector_outcome.
Qed.

(** The deduplication stage leaves distinct identifiers alone. *)
Lemma dedupStage_distinct r items :
  NoDup (ContextItem.ID <$> items) → dedupStage r items = ret items.
Proof.
  intros Hnd. unfold dedupStage.
  destruct (RetrieverConfig.DedupByID _); [|done].
  by rewrite deduplicate_distinct.
Qed.
End pipeline_general.

Section pipeline_general_theorems.
Import retrieve hybrid.

(** [Retrieve] reads the configuration through the policy's outcome, the
    deduplication flag, the reranker and the observer only. *)
Lemma Retrieve_ext rt r1 r2 q :
  dispatch rt r1 q = dispatch rt r2 q →
  RetrieverConfig.Reranker (config r1) =
    RetrieverConfig.Reranker (config r2) →
  RetrieverConfig.Observer (config r1) =
    RetrieverConfig.Observer (config r2) →
  Retrieve rt r1 q = Retrieve rt r2 q.
Proof.
  intros Hd Hr Ho. unfold Retrieve. rewrite Hd, Hr, Ho.
  destruct (dispatch_outcome rt r2 q)
    as ([[[items modes] total] err] & t & -> & Hok).
  destruct err as [err|]; simpl; [done|].
  destruct (Hok eq_refl) as [(vi & gi & Hitems) _]. simpl in Hitems.
  by rewrite Hitems, !dedupStage_distinct by apply mergeResults_NoDup.
Qed.

Lemma dispatch_graph_then_vector rt r q :
  RetrieverConfig.Policy (config r) = PolicyGraphThenVector →
  dispatch rt r q = retrieveGraphThenVector rt r q.
Proof. unfold dispatch. by intros ->. Qed.

(** X19. Deduplication of distinct identifiers. [deduplicate] returns a
    list of pairwise distinct identifiers unchanged, in its order; so
    deduplicating twice is deduplicating once. *)
Theorem deduplicate_fixed_points :
  (∀ items,
     NoDup (ContextItem.ID <$> items) → deduplicate items = Some items) ∧
  (∀ items out,
     deduplicate items = Some out → deduplicate out = Some out).
Proof.
  split; [apply deduplicate_distinct|].
  intros items out Hout.
  destruct (deduplicate_spec items) as (out' & Hout' & Hnd & _).
  rewrite Hout in Hout'. injection Hout' as <-.
  by apply deduplicate_distinct.
Qed.

(** X20. The deduplication flag changes nothing. Every policy returns the
    output of [mergeResults], whose identifiers are already distinct, so
    [Retrieve] computes the same value and makes the same calls with
    [DedupByID] set as without it. *)
Theorem DedupByID_is_redundant (rt : Runtime) (q : Query.t)
    (v g : option retrieve.Retriever) (policy : Policy) (w : Weights.t)
    (reranker : option retrieve.Reranker) (observer : bool) :
  Retrieve rt
    {| config := RetrieverConfig.mk v g policy w reranker true observer |}
    q =
  Retrieve rt
    {| config := RetrieverConfig.mk v g policy w reranker false observer |}
    q.
Proof.
  by apply Retrieve_ext.
Qed.

(** X21. GraphThenVector. With both retrievers configured the graph
    retriever is called first, with the query itself. If it fails, its
    error is returned and the vector retriever is not called. Otherwise
    the vector retriever is called next with the same, unchanged query,
    whether or not the graph retriever returned items, and an error of
    the vector retriever is returned. *)
Theorem Retrieve_graph_then_vector (rt : Runtime) (r : Retriever)
    (q : Query.t) (v g : retrieve.Retriever) :
  RetrieverConfig.Policy (config r) = PolicyGraphThenVector →
  RetrieverConfig.Vector (config r) = Some v →
  RetrieverConfig.Graph (config r) = Some g →
  match g q with
  | Fail err =>
      retrieverCalls (Retrieve rt r q) = [CallGraph q] ∧
      value (Retrieve rt r q) = Some (None, Some err)
  | Ok _ =>
      retrieverCalls (Retrieve rt r q) = [CallGraph q; CallVector q] ∧
      match v q with
      | Fail err => value (Retrieve rt r q) = Some (None, Some err)
      | Ok _ => True
      end
  end.
Proof.
  intros Hp Hv Hg.
  rewrite Retrieve_retrieverCalls.
  unfold Retrieve. rewrite dispatch_graph_then_vector by done.
  unfold retrieverCalls, retrieveGraphThenVector. rewrite Hv, Hg.
  destruct (g q) as [rg|eg]; simpl; [|done].
  by destruct (v q) as [rv|ev].
Qed.

(** The configuration of [r] without its reranker. *)
Definition withoutReranker (r : Retriever) : Retriever :=
  {| config :=
       RetrieverConfig.mk (RetrieverConfig.Vector (config r))
         (RetrieverConfig.Graph (config r))
         (RetrieverConfig.Policy (config r))
         (RetrieverConfig.Weights (config r)) None
         (RetrieverConfig.DedupByID (config r))
         (RetrieverConfig.Observer (config r)) |}.

(** X22. The reranker stage. A configured reranker is called once, after
    everything else, with the query and the items that [Retrieve] would
    return without it, and only if that is a result. The items it
    returns replace the list as they are: they are neither sorted nor
    cut to [TopK] again. Its error is returned without a result. The
    observer is notified only on success, with the number of returned
    items as both counts. *)
Theorem Retrieve_with_reranker (rt : Runtime) (r : Retriever) (q : Query.t)
    (reranker : retrieve.Reranker) :
  RetrieverConfig.Reranker (config r) = Some reranker →
  match Retrieve rt (withoutReranker r) q with
  | (Some (Some res, None), t) =>
      match reranker q (Result.Items res) with
      | (items, None) =>
          Retrieve rt r q =
          (Some (Some (Result.mk items q (Result.Metadata res)), None),
           t ++ [CallRerank q (Result.Items res)] ++
             (if RetrieverConfig.Observer (config r)
              then [CallOnRerank "hybrid" (Z.of_nat (length items))
                      (Z.of_nat (length items)) (rt_rerankElapsedMS rt)]
              else []))
      | (_, Some err) =>
          Retrieve rt r q =
          (Some (None, Some err), t ++ [CallRerank q (Result.Items res)])
      end
  | other => Retrieve rt r q = other
  end.
Proof.
  intros Hr. unfold Retrieve. rewrite Hr.
  change (dispatch rt (withoutReranker r) q) with (dispatch rt r q).
  destruct (dispatch rt r q)
    as [[[[[items modesUsed] total] [err|]]|] t]; simpl; [done| |done].
  change (dedupStage (withoutReranker r) items) with (dedupStage r items).
  destruct (dedupStage_total r items) as (candidates & -> & _). simpl.
  destruct (reranker q _) as [items' [err|]]; simpl.
  - by rewrite !app_nil_r.
  - destruct (RetrieverConfig.Observer (config r)); simpl;
      by rewrite ?app_nil_r.
Qed.

(** X23. No error is swallowed. Under every policy, when [Retrieve]
    returns a result, every retriever it called returned a result: a
    failure of any retriever that is called makes [Retrieve] fail. And
    [Retrieve] never returns neither a result nor an error. *)
Theorem Retrieve_success_all_answered (rt : Runtime) (r : Retriever)
    (q : Query.t) :
  (∀ res,
     value (Retrieve rt r q) = Some (Some res, None) →
     Forall (answered r) (calls (Retrieve rt r q))) ∧
  value (Retrieve rt r q) ≠ Some (None, None).
Proof.
  unfold Retrieve, value, calls.
  destruct (dispatch_outcome rt r q) as ([[[items modes] total] err] & t &
    -> & Hok).
  destruct err as [err|]; simpl; [done|].
  destruct (Hok eq_refl) as [_ Ht].
  destruct (dedupStage_total r items) as (candidates & -> & _). simpl.
  destruct (RetrieverConfig.Reranker (config r)) as [rr|]; simpl.
  - destruct (rr q _) as [items' [err|]]; simpl; [done|].
    destruct (RetrieverConfig.Observer (config r)); simpl;
      (split; [|done]); intros _ _;
      rewrite ?app_nil_r; repeat (apply Forall_app; split); try done;
      by repeat constructor.
  - split; [|done]. intros _ _. by rewrite !app_nil_r.
Qed.

(** A retriever made by [NewRetriever] with an
    empty policy, or with any policy other than the two sequential ones,
    behaves as one made with the parallel policy. *)
Lemma unknown_policy_runs_parallel (rt : Runtime) (q : Query.t)
    (v g : option retrieve.Retriever) (policy : Policy) (w : Weights.t)
    (reranker : option retrieve.Reranker) (dedup observer : bool) :
  policy ≠ PolicyVectorThenGraph →
  policy ≠ PolicyGraphThenVector →
  Retrieve rt
    (NewRetriever
       (RetrieverConfig.mk v g policy w reranker dedup observer)) q =
  Retrieve rt
    (NewRetriever
       (RetrieverConfig.mk v g PolicyParallel w reranker dedup observer))
    q.
Proof.
  intros Hvg Hgv. apply Retrieve_ext; try done.
  unfold dispatch, NewRetriever. simpl.
  destruct (String.eqb policy "") eqn:Hempty; [done|].
  destruct (String.eqb policy PolicyParallel); [done|].
  apply String.eqb_neq in Hvg, Hgv. by rewrite Hvg, Hgv.
Qed.
End pipeline_general_theorems.

(** ** The vector retriever *)

Section vector_retriever.
Import retrieve vector.

(** The threshold [Retrieve] applies: the query's, the configured one
    when the query's is zero. *)
Definition effectiveMinScore (r : Retriever) (q : Query.t) : float :=
  if (Query.MinScore q =? 0)%float
  then RetrieverConfig.MinScore (config r)
  else Query.MinScore q.

Definition effectiveTopK (r : Retriever) (q : Query.t) : Z :=
  if Query.TopK q =? 0 then RetrieverConfig.DefaultTopK (config r)
  else Query.TopK q.

Lemma vector_itemsOf_sublist r minScore results :
  sublist (ContextItem.ID <$> itemsOf r minScore results)
    ((λ res, Node.ID (SearchResult.Node res)) <$> results).
Proof.
  unfold itemsOf. induction results as [|res results IH]; [done|].
  simpl. destruct (_ <? _)%float; simpl.
  - by apply sublist_cons.
  - by apply sublist_skip.
Qed.

(** The embedding [Retrieve] searches with: the query's, or the
    embedder's answer to the text of the query when there is an embedder
    and the query carries no embedding. *)
Definition embeddingUsed (r : Retriever) (q : Query.t)
    (embedding : list float) : Prop :=
  match RetrieverConfig.Embedder (config r) with
  | Some embedder =>
      if bool_decide (Query.Embedding q = [])
      then embedder (Query.Text q) = (embedding, None)
      else embedding = Query.Embedding q
  | None => embedding = Query.Embedding q
  end.

(** The item made of a search result. *)
Definition itemOf (r : Retriever) (sr : SearchResult.t) : ContextItem.t :=
  ContextItem.mk (Node.ID (SearchResult.Node sr))
    (Node.Content (SearchResult.Node sr))
    (Node.Source (SearchResult.Node sr)) (SearchResult.Score sr)
    (Node.Metadata (SearchResult.Node sr))
    (Provenance.mk ModeVector
       (Index.Name (RetrieverConfig.Index (config r))) []
       (SearchResult.Score sr) 0%float).

Lemma itemsOf_filter r minScore results :
  itemsOf r minScore results =
  itemOf r <$>
    filter (λ sr, (SearchResult.Score sr <? minScore)%float = false)
      results.
Proof.
  unfold itemsOf. induction results as [|sr results IH]; [done|].
  simpl. destruct (_ <? _)%float eqn:Hlow.
  - by rewrite filter_cons_False by (by rewrite Hlow).
  - rewrite filter_cons_True by done. by rewrite fmap_cons, <- IH.
Qed.

(** Once the embedding is settled, the outcome is that of the search. *)
Lemma Retrieve_embedded rt r q embedding :
  embeddingUsed r q embedding →
  Retrieve rt r q =
  match Index.Search (RetrieverConfig.Index (config r)) embedding
          (effectiveTopK r q) (Query.Filters q) with
  | None => (None, [])
  | Some (_, Some err) => (Some (None, Some err), [])
  | Some (results, None) =>
      let items := itemsOf r (effectiveMinScore r q) results in
      (Some (Some (Result.mk items q
                     (ResultMetadata.mk (Z.of_nat (length results))
                        (rt_elapsedMS rt) [ModeVector] false)),
             None),
       if RetrieverConfig.Observer (config r)
       then [OnVectorSearch
               (Index.Name (RetrieverConfig.Index (config r)))
               (effectiveTopK r q) (Z.of_nat (length items))
               (rt_elapsedMS rt)]
       else [])
  end.
Proof.
  unfold embeddingUsed, Retrieve.
  fold (effectiveTopK r q). fold (effectiveMinScore r q).
  destruct (RetrieverConfig.Embedder (config r)) as [embedder|].
  - rewrite length_zero. case_bool_decide as Hq.
    + intros ->. done.
    + intros ->. done.
  - intros ->. done.
Qed.

(** Either the embedder fails or an embedding is settled. *)
Lemma embedding_cases r q :
  (∃ embedder embedding err,
     RetrieverConfig.Embedder (config r) = Some embedder ∧
     Query.Embedding q = [] ∧
     embedder (Query.Text q) = (embedding, Some err)) ∨
  ∃ embedding, embeddingUsed r q embedding.
Proof.
  unfold embeddingUsed.
  destruct (RetrieverConfig.Embedder (config r)) as [embedder|];
    [|right; by eexists].
  case_bool_decide as Hq; [|right; by eexists].
  destruct (embedder (Query.Text q)) as [embedding [err|]] eqn:Hembed.
  - left. by exists embedder, embedding, err.
  - right. by exists embedding.
Qed.

Lemma Retrieve_embedder_error rt r q embedder embedding err :
  RetrieverConfig.Embedder (config r) = Some embedder →
  Query.Embedding q = [] →
  embedder (Query.Text q) = (embedding, Some err) →
  Retrieve rt r q = (Some (None, Some err), []).
Proof.
  intros He Hq Hembed. unfold Retrieve. by rewrite He, Hq, Hembed.
Qed.
End vector_retriever.

Section vector_retriever_theorems.
Import retrieve vector.

(** X24. Items of the vector retriever. A result of the vector retriever
    comes from a search of the index, with the embedding of the query,
    or with the embedder's answer to the text of the query when there is
    an embedder and the query carries no embedding. The result echoes
    the query and names the vector mode alone; [TotalCandidates] is the
    number of search results; and the items are, in the order of the
    search results, those results whose score is not below the
    threshold, which is the query's [MinScore], or the configured one
    when the query's is zero: each with the node's identifier, content,
    source and metadata, the score of the result, the vector mode, the
    index's name, an empty graph path and its score as similarity
    score. *)
Theorem vector_Retrieve_items (rt : Runtime) (r : Retriever) (q : Query.t)
    (res : Result.t) :
  (Retrieve rt r q).1 = Some (Some res, None) →
  ∃ embedding results,
    embeddingUsed r q embedding ∧
    Index.Search (RetrieverConfig.Index (config r)) embedding
      (if Query.TopK q =? 0 then RetrieverConfig.DefaultTopK (config r)
       else Query.TopK q) (Query.Filters q) = Some (results, None) ∧
    Result.Query res = q ∧
    ResultMetadata.ModesUsed (Result.Metadata res) = [ModeVector] ∧
    ResultMetadata.TotalCandidates (Result.Metadata res) =
      Z.of_nat (length results) ∧
    Result.Items res =
      (λ sr,
         ContextItem.mk (Node.ID (SearchResult.Node sr))
           (Node.Content (SearchResult.Node sr))
           (Node.Source (SearchResult.Node sr)) (SearchResult.Score sr)
           (Node.Metadata (SearchResult.Node sr))
           (Provenance.mk ModeVector
              (Index.Name (RetrieverConfig.Index (config r))) []
              (SearchResult.Score sr) 0%float)) <$>
      filter (λ sr,
        (SearchResult.Score sr <?
           (if (Query.MinScore q =? 0)%float
            then RetrieverConfig.MinScore (config r)
            else Query.MinScore q))%float = false) results ∧
    Z.of_nat (length (Result.Items res)) ≤
      ResultMetadata.TotalCandidates (Result.Metadata res).
Proof.
  intros Hres.
  destruct (embedding_cases r q)
    as [(embedder & embedding & err & He & Hq & Hembed)|
        [embedding Hembedding]].
  { by rewrite (Retrieve_embedder_error rt r q embedder embedding err)
      in Hres. }
  rewrite (Retrieve_embedded rt r q embedding Hembedding) in Hres.
  unfold effectiveTopK in Hres.
  destruct (Index.Search _ _ _ _) as [[results [err|]]|] eqn:Hsearch;
    try done.
  simpl in Hres. injection Hres as <-. simpl.
  exists embedding, results. split_and!; [done..| |].
  - apply itemsOf_filter.
  - pose proof (sublist_length _ _
      (vector_itemsOf_sublist r (effectiveMinScore r q) results)) as Hlen.
    rewrite !length_fmap in Hlen. lia.
Qed.

(** X25. Embedding and errors of the vector retriever. The embedder is
    used only when the query carries no embedding; its error is returned
    without a result and without a notification of the observer.
    So is the error of the index, whichever embedding the search ran
    with: the query's, also when it is empty and there is no embedder,
    or the embedder's answer. A search that panics makes [Retrieve]
    panic. With an embedding in the query the outcome does not depend on
    the embedder. *)
Theorem vector_Retrieve_errors (rt : Runtime) (r : Retriever)
    (q : Query.t) :
  (∀ embedder embedding err,
     RetrieverConfig.Embedder (config r) = Some embedder →
     Query.Embedding q = [] →
     embedder (Query.Text q) = (embedding, Some err) →
     Retrieve rt r q = (Some (None, Some err), [])) ∧
  (∀ embedding results err,
     embeddingUsed r q embedding →
     Index.Search (RetrieverConfig.Index (config r)) embedding
       (if Query.TopK q =? 0 then RetrieverConfig.DefaultTopK (config r)
        else Query.TopK q) (Query.Filters q) = Some (results, Some err) →
     Retrieve rt r q = (Some (None, Some err), [])) ∧
  (∀ embedding,
     embeddingUsed r q embedding →
     Index.Search (RetrieverConfig.Index (config r)) embedding
       (if Query.TopK q =? 0 then RetrieverConfig.DefaultTopK (config r)
        else Query.TopK q) (Query.Filters q) = None →
     Retrieve rt r q = (None, [])) ∧
  (∀ embedder,
     Query.Embedding q ≠ [] →
     Retrieve rt r q =
     Retrieve rt
       {| config :=
            RetrieverConfig.mk (RetrieverConfig.Index (config r)) embedder
              (RetrieverConfig.DefaultTopK (config r))
              (RetrieverConfig.MinScore (config r))
              (RetrieverConfig.Observer (config r)) |} q).
Proof.
  split_and!.
  - apply Retrieve_embedder_error.
  - intros embedding results err Hembedding Hsearch.
    rewrite (Retrieve_embedded rt r q embedding Hembedding).
    unfold effectiveTopK. by rewrite Hsearch.
  - intros embedding Hembedding Hsearch.
    rewrite (Retrieve_embedded rt r q embedding Hembedding).
    unfold effectiveTopK. by rewrite Hsearch.
  - intros embedder Hne.
    assert (∀ r', embeddingUsed r' q (Query.Embedding q)) as Hgiven.
    { intros r'. unfold embeddingUsed.
      destruct (RetrieverConfig.Embedder (config r')); [|done].
      by rewrite bool_decide_eq_false_2. }
    by rewrite !(Retrieve_embedded rt _ q _ (Hgiven _)).
Qed.
End vector_retriever_theorems.

(** ** The in-memory vector index *)

Section descending.
Context {A : Type} (score : A → float).

Definition scoreDesc (a b : A) : bool := (score b <? score a)%float.

Lemma scoreDesc_StrictWeakOn (l : list A) :
  Forall (λ a, F64.is_nan (score a) = false) l →
  StrictWeakOn scoreDesc l.
Proof.
  rewrite Forall_forall. intros Hnan. unfold scoreDesc. split_and!.
  - intros a _. apply F64.ltb_irrefl.
  - intros a b c _ _ _ Hab Hbc. by eapply F64.ltb_trans.
  - intros a b c _ Hb _ Hac.
    destruct (F64.ltb_cotrans _ (score b) _ (Hnan b Hb) Hac); auto.
Qed.

(** Sorting by descending score puts scores that are numbers in
    descending order. *)
Lemma sortSlice_descending (sorter : SliceSorter) (l : list A) :
  Forall (λ a, F64.is_nan (score a) = false) l →
  StronglySorted (λ a b, (score b <=? score a)%float = true)
    (sortSlice sorter scoreDesc l).
Proof.
  intros Hnan.
  pose proof (sortSlice_perm sorter _ scoreDesc l) as Hperm.
  pose proof (sortSlice_sorted sorter _ scoreDesc l
                (scoreDesc_StrictWeakOn l Hnan)) as Hsorted.
  rewrite <-Hperm in Hnan. rewrite Forall_forall in Hnan. clear Hperm.
  induction Hsorted as [|a l' Hs IH Ha]; [constructor|].
  constructor.
  - apply IH. intros x Hx. apply Hnan. by right.
  - rewrite Forall_forall in Ha |- *. intros b Hb.
    apply F64.ltb_total; [apply Hnan; by left|apply Hnan; by right|].
    by apply Ha.
Qed.
End descending.

Section vector_index.
Import retrieve vector memory_vector.

Definition toResult (c : scored) : SearchResult.t :=
  SearchResult.mk (node c) (score c).

(** The stored nodes that pass the filters, each with its similarity to
    [embedding], in the order of [map_to_list]. *)
Definition matchesOf (idx : VectorIndex) (embedding : list float)
    (filters : gmap string string) : list SearchResult.t :=
  (λ n, SearchResult.mk n (cosineSimilarity embedding (Node.Embedding n)))
    <$> filter (λ n, memory.matchesFilters (Node.Metadata n) filters = true)
          (snd <$> map_to_list (nodes idx)).

Lemma candidatesOf_matchesOf rt idx embedding filters :
  toResult <$> candidatesOf rt idx embedding filters ≡ₚ
  matchesOf idx embedding filters.
Proof.
  unfold candidatesOf, matchesOf.
  rewrite (range_perm (rt_range rt)).
  induction (map_to_list (nodes idx)) as [|[k n] l IH]; [done|].
  rewrite (fmap_cons snd). cbn [omap list_omap snd].
  destruct (memory.matchesFilters (Node.Metadata n) filters) eqn:Hm.
  - rewrite filter_cons_True by done.
    by rewrite !fmap_cons, IH.
  - by rewrite filter_cons_False by (by rewrite Hm).
Qed.

Lemma Search_negative rt idx embedding k filters :
  k < 0 → Search rt idx embedding k filters = None.
Proof.
  intros Hk. unfold Search.
  destruct (_ <? k) eqn:Hlen; [apply Z.ltb_lt in Hlen; lia|].
  by rewrite (proj2 (Z.ltb_lt _ _)) by lia.
Qed.

(** The value of [Search] for a [k] that is not negative. *)
Lemma Search_eq rt idx embedding k filters :
  0 ≤ k →
  Search rt idx embedding k filters =
  Some (toResult <$>
          take (Z.to_nat k)
            (sortSlice (rt_sort rt) (scoreDesc score)
               (candidatesOf rt idx embedding filters)),
        None).
Proof.
  intros Hk. unfold Search.
  fold (scoreDesc score). fold toResult.
  set (sorted := sortSlice (rt_sort rt) (scoreDesc score) _).
  destruct (Z.of_nat (length sorted) <? k) eqn:Hlen.
  - rewrite (proj2 (Z.ltb_ge _ _)) by lia.
    rewrite Nat2Z.id, !take_ge by lia. done.
  - by rewrite (proj2 (Z.ltb_ge _ _)) by lia.
Qed.
End vector_index.

Section vector_index_theorems.
Import retrieve vector memory_vector.

(** X26. Negative limits. The in-memory index panics when it is asked
    for a negative number of results, and in no other case. The vector
    retriever passes a negative [TopK] of the query on unchanged, so over
    the in-memory index it panics on such a query once it has an
    embedding. *)
Theorem Search_negative_k_panics (rt : Runtime) (idx : VectorIndex)
    (embedding : list float) (k : Z) (filters : gmap string string) :
  (Search rt idx embedding k filters = None ↔ k < 0) ∧
  (∀ rt' r q,
     RetrieverConfig.Index (config r) = asIndex rt idx →
     RetrieverConfig.Embedder (config r) = None →
     Query.TopK q < 0 →
     Retrieve rt' r q = (None, [])).
Proof.
  split.
  - split.
    + intros Hnone. destruct (decide (k < 0)) as [|Hk]; [done|].
      by rewrite Search_eq in Hnone by lia.
    + apply Search_negative.
  - intros rt' r q Hindex Hembedder Hk. unfold Retrieve.
    rewrite Hembedder, Hindex. simpl.
    rewrite (proj2 (Z.eqb_neq _ _)) by lia.
    by rewrite Search_negative.
Qed.

(** X27. Search in the in-memory index. For [k] not negative, [Search]
    returns without error the [min(k, m)] first of the [m] stored nodes
    that pass the filters, each with its cosine similarity to the query
    embedding as score; when the scores are numbers the results are in
    descending order of score and no omitted node scores higher than a
    returned one. *)
Theorem Search_top_k (rt : Runtime) (idx : VectorIndex)
    (embedding : list float) (k : Z) (filters : gmap string string) :
  0 ≤ k →
  ∃ results omitted,
    Search rt idx embedding k filters = Some (results, None) ∧
    results ++ omitted ≡ₚ matchesOf idx embedding filters ∧
    Z.of_nat (length results) =
      Z.min k (Z.of_nat (length (matchesOf idx embedding filters))) ∧
    (Forall (λ res, F64.is_nan (SearchResult.Score res) = false)
       (matchesOf idx embedding filters) →
     StronglySorted
       (λ a b, (SearchResult.Score b <=? SearchResult.Score a)%float = true)
       results ∧
     ∀ a b, a ∈ results → b ∈ omitted →
       (SearchResult.Score b <=? SearchResult.Score a)%float = true).
Proof.
  intros Hk. rewrite Search_eq by done.
  set (candidates := candidatesOf rt idx embedding filters).
  set (sorted := sortSlice (rt_sort rt) (scoreDesc score) candidates).
  pose proof (sortSlice_perm (rt_sort rt) _ (scoreDesc score) candidates)
    as Hperm. fold sorted in Hperm.
  pose proof (candidatesOf_matchesOf rt idx embedding filters) as Hmatch.
  fold candidates in Hmatch.
  exists (toResult <$> take (Z.to_nat k) sorted),
         (toResult <$> drop (Z.to_nat k) sorted).
  split; [done|]. split_and!.
  - by rewrite <-fmap_app, take_drop, Hperm.
  - rewrite <-Hmatch, !length_fmap, length_take, <-Hperm. lia.
  - intros Hnan.
    assert (Forall (λ c, F64.is_nan (score c) = false) candidates)
      as Hnan'.
    { rewrite <-Hmatch in Hnan. rewrite Forall_fmap in Hnan.
      eapply Forall_impl; [exact Hnan|]. done. }
    pose proof (sortSlice_descending score (rt_sort rt) candidates Hnan')
      as Hdesc.
    fold sorted in Hdesc. rewrite <-(take_drop (Z.to_nat k) sorted) in Hdesc.
    apply StronglySorted_app in Hdesc as (Hcross & Hkept & _).
    split.
    + clear Hcross. induction Hkept as [|a l Hs IH Ha]; [constructor|].
      rewrite fmap_cons. constructor; [done|].
      rewrite Forall_fmap. eapply Forall_impl; [exact Ha|]. done.
    + intros a b (ca & -> & Ha)%list_elem_of_fmap
        (cb & -> & Hb)%list_elem_of_fmap.
      by apply Hcross.
Qed.

(** X28. Insert, search, delete. A search that asks for at least as many
    results as the index holds nodes returns every node that passes the
    filters; in particular it returns a node that was just inserted, if
    it passes them. And after [Delete idx id] no search returns the node
    that was stored under [id]. *)
Theorem Search_after_Insert_and_Delete (rt : Runtime) (idx : VectorIndex)
    (embedding : list float) (k : Z) (filters : gmap string string) :
  (∀ inserted,
     Z.of_nat (size (nodes (Insert idx inserted))) ≤ k →
     memory.matchesFilters (Node.Metadata inserted) filters = true →
     ∃ results,
       Search rt (Insert idx inserted) embedding k filters =
         Some (results, None) ∧
       SearchResult.mk inserted
         (cosineSimilarity embedding (Node.Embedding inserted)) ∈ results) ∧
  (∀ id results,
     Search rt (Delete idx id) embedding k filters = Some (results, None) →
     Forall (λ res,
       ∃ key, key ≠ id ∧ nodes idx !! key = Some (SearchResult.Node res))
       results).
Proof.
  split.
  - intros inserted Hsize Hmatch.
    pose proof (candidatesOf_matchesOf rt (Insert idx inserted) embedding
                  filters) as Hc.
    rewrite Search_eq by lia. eexists. split; [done|].
    rewrite take_ge.
    + rewrite (sortSlice_perm (rt_sort rt)), Hc. unfold matchesOf.
      apply list_elem_of_fmap_2'
        with (x := inserted); [|done].
      apply list_elem_of_filter. split; [done|].
      apply list_elem_of_fmap. exists (Node.ID inserted, inserted).
      split; [done|]. apply elem_of_map_to_list. simpl.
      apply lookup_insert_eq.
    + rewrite (sortSlice_perm (rt_sort rt)).
      rewrite <-(length_fmap toResult), Hc. unfold matchesOf.
      rewrite length_fmap.
      etrans; [apply length_filter|].
      rewrite length_fmap, length_map_to_list. lia.
  - intros id results Hsearch.
    destruct (decide (k < 0)) as [Hneg|Hk].
    { by rewrite Search_negative in Hsearch. }
    rewrite Search_eq in Hsearch by lia. injection Hsearch as <-.
    apply Forall_forall. intros res (c & -> & Hc)%list_elem_of_fmap.
    apply elem_of_take in Hc as (i & Hc & _).
    apply list_elem_of_lookup_2 in Hc.
    rewrite (sortSlice_perm (rt_sort rt)) in Hc.
    unfold candidatesOf in Hc.
    apply list_elem_of_omap in Hc as ([key n] & Hin & Hsome).
    rewrite (range_perm (rt_range rt)) in Hin.
    apply elem_of_map_to_list in Hin. simpl in Hin.
    apply lookup_delete_Some in Hin as [Hne Hin].
    destruct (memory.matchesFilters _ _); [|done].
    injection Hsome as <-. by exists key.
Qed.
End vector_index_theorems.

(** ** Rerankers *)

Section comparisons.
(** A comparison that holds has no NaN operand. *)
Lemma leb_numbers (x y : float) :
  (x <=? y)%float = true →
  F64.is_nan x = false ∧ F64.is_nan y = false.
Proof.
  unfold F64.is_nan.
  rewrite !negb_false_iff, FloatAxioms.leb_spec, !FloatAxioms.eqb_spec.
  generalize (Prim2SF x) (Prim2SF y). intros a b. F64.sf_order2 a b.
Qed.
End comparisons.

Section rerankers.
Import retrieve rerank.

Lemma chainLoop_app rs1 rs2 q items :
  chainLoop (rs1 ++ rs2) q items =
  match chainLoop rs1 q items with
  | (out, None) => chainLoop rs2 q out
  | (_, Some err) => ([], Some err)
  end.
Proof.
  revert items. induction rs1 as [|r rs1 IH]; intros items; simpl; [done|].
  destruct (r q items) as [out [err|]]; [done|]. apply IH.
Qed.

(** X29. Chains of rerankers. A chain runs its rerankers in order, each
    on the items the one before returned; the first error ends it and is
    returned without items. So the empty chain returns its input, and the
    chain of two lists of rerankers is the chain of the second after the
    chain of the first. *)
Theorem Chain_Rerank_composes (q : Query.t) (items : list ContextItem.t) :
  Chain_Rerank (NewChain []) q items = (items, None) ∧
  (∀ r,
     Chain_Rerank (NewChain [r]) q items =
     match r q items with
     | (out, None) => (out, None)
     | (_, Some err) => ([], Some err)
     end) ∧
  (∀ rs1 rs2,
     Chain_Rerank (NewChain (rs1 ++ rs2)) q items =
     match Chain_Rerank (NewChain rs1) q items with
     | (out, None) => Chain_Rerank (NewChain rs2) q out
     | (_, Some err) => ([], Some err)
     end).
Proof.
  split_and!; [done| |].
  - intros r. unfold Chain_Rerank. simpl.
    by destruct (r q items) as [out [err|]].
  - intros rs1 rs2. apply chainLoop_app.
Qed.

(** X30. The cross-encoder reranker. An empty list is returned as it is,
    whatever the scorer would answer; an error of the scorer is returned
    without items. Otherwise every returned item is an input item in
    which the score and the reranker score, and nothing else, are
    replaced by the score the scorer gave for its position, or, where
    the scorer returned fewer scores than items, the input item
    unchanged; no returned item scores below [MinScore]; at most [TopK]
    items are returned when [TopK] is positive; and the items are in
    descending order of score (an item whose score is not a number never
    passes the threshold). *)
Theorem CrossEncoder_Rerank_spec (rt : Runtime) (r : CrossEncoder)
    (q : Query.t) (items : list ContextItem.t) :
  let scorer := CrossEncoderConfig.Scorer (config r) in
  let answer :=
    CrossEncoderScorer.Score scorer (Query.Text q)
      (ContextItem.Content <$> items) in
  CrossEncoder_Rerank rt r q [] = ([], None) ∧
  (∀ err,
     items ≠ [] → answer.2 = Some err →
     CrossEncoder_Rerank rt r q items = ([], Some err)) ∧
  (items ≠ [] → answer.2 = None →
   ∃ out,
     CrossEncoder_Rerank rt r q items = (out, None) ∧
     Forall (λ o,
       (∃ i item,
          items !! i = Some item ∧
          o =
            match answer.1 !! i with
            | Some s =>
                let p := ContextItem.Provenance item in
                ContextItem.mk (ContextItem.ID item)
                  (ContextItem.Content item) (ContextItem.Source item) s
                  (ContextItem.Metadata item)
                  (Provenance.mk (Provenance.Mode p) (Provenance.Backend p)
                     (Provenance.GraphPath p)
                     (Provenance.SimilarityScore p) s)
            | None => item
            end) ∧
       (CrossEncoderConfig.MinScore (config r) <=?
          ContextItem.Score o)%float = true) out ∧
     (length out ≤ length items)%nat ∧
     (0 < CrossEncoderConfig.TopK (config r) →
      Z.of_nat (length out) ≤ CrossEncoderConfig.TopK (config r)) ∧
     StronglySorted
       (λ a b, (ContextItem.Score b <=? ContextItem.Score a)%float = true)
       out).
Proof.
  intros scorer answer. split_and!; [done| |].
  - intros err Hne Herr. unfold CrossEncoder_Rerank.
    rewrite length_zero, bool_decide_eq_false_2 by done.
    fold scorer. fold answer. destruct answer as [scores e].
    simpl in Herr. by subst e.
  - intros Hne Herr. unfold CrossEncoder_Rerank.
    rewrite length_zero, bool_decide_eq_false_2 by done.
    fold scorer. fold answer. destruct answer as [scores e] eqn:Hanswer.
    simpl in Herr. subst e. simpl (_.1).
    set (rescored := imap (rescore scores) items).
    set (kept := filter _ rescored).
    fold (scoreDesc ContextItem.Score).
    set (sorted := sortSlice (rt_sort rt) (scoreDesc ContextItem.Score)
                     kept).
    pose proof (sortSlice_perm (rt_sort rt) _
                  (scoreDesc ContextItem.Score) kept) as Hperm.
    fold sorted in Hperm.
    set (out := if _ && _ then take _ sorted else sorted).
    assert (∃ rest, sorted = out ++ rest) as [rest Hsplit].
    { unfold out. destruct (_ && _).
      - exists (drop (Z.to_nat (CrossEncoderConfig.TopK (config r)))
                  sorted). by rewrite take_drop.
      - exists []. by rewrite app_nil_r. }
    assert (∀ o, o ∈ out → o ∈ kept) as Hkept.
    { intros o Ho. rewrite <-Hperm, Hsplit. set_solver. }
    exists out. split; [done|]. split_and!.
    + apply Forall_forall. intros o [Hmin Ho]%Hkept%list_elem_of_filter.
      split; [|done].
      apply list_elem_of_lookup in Ho as [i Hi].
      unfold rescored in Hi. rewrite list_lookup_imap in Hi.
      destruct (items !! i) as [item|] eqn:Hitem; [|done].
      injection Hi as <-. by exists i, item.
    + assert (length out ≤ length sorted)%nat as Hle.
      { rewrite Hsplit, length_app. lia. }
      rewrite Hperm in Hle.
      etrans; [exact Hle|]. etrans; [apply length_filter|].
      unfold rescored. by rewrite length_imap.
    + intros Hk. unfold out.
      destruct (0 <? _) eqn:Hpos; [|lia]. simpl.
      destruct (_ <? Z.of_nat _) eqn:Hlt.
      * rewrite length_take. lia.
      * apply Z.ltb_ge in Hlt. lia.
    + assert (Forall (λ o, F64.is_nan (ContextItem.Score o) = false) kept)
        as Hnan.
      { apply Forall_forall. intros o [Hmin _]%list_elem_of_filter.
        by apply leb_numbers in Hmin as [_ ?]. }
      pose proof (sortSlice_descending ContextItem.Score (rt_sort rt) kept
                    Hnan) as Hdesc.
      fold sorted in Hdesc. rewrite Hsplit in Hdesc.
      by apply StronglySorted_app in Hdesc as (_ & ? & _).
Qed.
End rerankers.

(** ** Instances *)

Module example_index.
Import retrieve vector memory_vector.

Definition node (id : string) (embedding : list float) : Node.t :=
  Node.mk id "" embedding "test" ∅.

(** Three nodes in two dimensions. *)
Definition index : VectorIndex :=
  InsertBatch (NewVectorIndex "idx")
    [node "a" [1%float; 0%float]; node "b" [0%float; 1%float];
     node "c" [1%float; 1%float]].

Definition retriever : Retriever :=
  NewRetriever
    (RetrieverConfig.mk (asIndex forwardRuntime index) None 0 0 false).

Definition query (embedding : list float) (topK : Z) : Query.t :=
  Query.mk "" embedding [] ∅ 0 topK [] 0 ∅.

Definition failingEmbedder : Embedder := λ text, ([], Some "no model").

Definition constantEmbedder : Embedder :=
  λ text, ([1%float; 0%float], None).

(** An index whose search fails. *)
Definition failingIndex : Index.t :=
  Index.mk (λ _ _ _, Some ([], Some "index down")) "down".

Definition failing (embedder : option Embedder) : Retriever :=
  NewRetriever (RetrieverConfig.mk failingIndex embedder 0 0 true).
End example_index.

Module example_pipeline.
Import retrieve.

(** The result of a run that returned one. *)
Definition resultOf (run : Run (option Result.t * option error))
    : Result.t :=
  match value run with
  | Some (Some res, _) => res
  | _ => Result.mk [] (example.query 0) (ResultMetadata.mk 0 0 [] false)
  end.

(** A graph whose methods fail. *)
Definition brokenGraph : graph.KnowledgeGraph.t :=
  graph.KnowledgeGraph.mk (λ _ _, (None, Some "traverse failed"))
    (λ _ _, ([], Some "find failed")) "broken".

Definition brokenRetriever : graph.Retriever :=
  graph.NewRetriever (graph.RetrieverConfig.mk brokenGraph 0 0 [] true).

(** A graph that finds the node A and fails to traverse. *)
Definition findingGraph : graph.KnowledgeGraph.t :=
  graph.KnowledgeGraph.mk (λ _ _, (None, Some "traverse failed"))
    (λ _ _, ([example_graph.node "A"], None)) "finding".

Definition findingRetriever : graph.Retriever :=
  graph.NewRetriever (graph.RetrieverConfig.mk findingGraph 0 0 [] true).

Definition reverseReranker : Reranker := λ q items, (reverse items, None).

(** Both retrievers, the parallel policy, a reranker and an observer. *)
Definition reranking : hybrid.Retriever :=
  hybrid.NewRetriever
    (hybrid.RetrieverConfig.mk (Some example.vectorRetriever)
       (Some example.graphRetriever) hybrid.PolicyParallel
       (hybrid.Weights.mk 0.6 0.4) (Some reverseReranker) false true).

(** A scorer that answers 0.2 and 0.9 whatever it is asked. *)
Definition scorer : rerank.CrossEncoderScorer.t :=
  rerank.CrossEncoderScorer.mk
    (λ _ _, ([0.2%float; 0.9%float], None)) "model".

Definition crossEncoder : rerank.CrossEncoder :=
  rerank.NewCrossEncoder (rerank.CrossEncoderConfig.mk scorer 1 0.5).
End example_pipeline.

Section instances.
Import retrieve.

(** The chain A -> B -> C from A. *)
Lemma Traverse_nodes_distinct_witness :
  wellKeyed example_graph.chain ∧
  ∃ result,
    memory.Traverse example_graph.chain ["A"] (example_graph.options 2) =
      (Some result, None) ∧
    NoDup (graph.Node.ID <$> graph.TraversalResult.Nodes result) ∧
    dom (graph.TraversalResult.Paths result) =
      list_to_set (graph.Node.ID <$> graph.TraversalResult.Nodes result).
Proof.
  split; [apply example_graph.build_wellKeyed|].
  destruct (Traverse_nodes_distinct example_graph.chain ["A"]
              (example_graph.options 2) (example_graph.build_wellKeyed _ _))
    as (result & Hresult & Hnd & _ & Hdom).
  by exists result.
Defined.

(** The chain A -> B -> C without B, from A. *)
Lemma DeleteNode_unreachable_witness :
  wellKeyed example_graph.chain ∧
  ∃ result,
    memory.Traverse (memory.DeleteNode example_graph.chain "B") ["A"]
      (example_graph.options 2) = (Some result, None) ∧
    Forall (λ node, graph.Node.ID node ≠ "B")
      (graph.TraversalResult.Nodes result) ∧
    map_Forall (λ _ path, "B" ∉ path) (graph.TraversalResult.Paths result).
Proof.
  split; [apply example_graph.build_wellKeyed|].
  destruct (DeleteNode_unreachable example_graph.chain "B" ["A"]
              (example_graph.options 2) (example_graph.build_wellKeyed _ _))
    as (result & Hresult & Hnodes & _ & Hpaths).
  by exists result.
Defined.

(** C is two hops from A in the chain A -> B -> C. *)
Lemma Traverse_complete_witness :
  ∃ result path,
    memory.Traverse example_graph.chain ["A"] (example_graph.options 2) =
      (Some result, None) ∧
    example_graph.node "C" ∈ graph.TraversalResult.Nodes result ∧
    graph.TraversalResult.Paths result !! "C" = Some path ∧
    (length path ≤ 3)%nat.
Proof.
  set (result := default (graph.TraversalResult.mk [] [] ∅)
                   (memory.Traverse example_graph.chain ["A"]
                      (example_graph.options 2)).1).
  assert (memory.Traverse example_graph.chain ["A"]
            (example_graph.options 2) = (Some result, None)) as Hresult
    by (vm_compute; reflexivity).
  assert (Z.of_nat (length (graph.TraversalResult.Nodes result)) < 10)
    as Hcap by (vm_compute; reflexivity).
  assert (∀ a b w,
    (w <? 0)%float = false →
    memory.edges example_graph.chain !! a =
      Some [example_graph.edge a b "relates_to" w] →
    allowedHop example_graph.chain (example_graph.options 2) a b) as Hhop.
  { intros a b w Hw Hedges.
    exists (example_graph.edge a b "relates_to" w).
    rewrite Hedges. split_and!; [by left| |done].
    split; [by left|done]. }
  assert (∀ x, x ∈ ["A"; "B"] →
    expandable example_graph.chain (example_graph.options 2) x) as Hexp.
  { intros x Hx. unfold expandable.
    destruct (memory.nodes example_graph.chain !! x); [by left|done]. }
  destruct (Traverse_complete example_graph.chain ["A"]
              (example_graph.options 2) result Hresult Hcap 2 "C"
              (example_graph.node "C")) as (Hin & path & Hpath & Hlen).
  - apply (reachable_hop _ _ _ 1 "B" "C").
    + apply (reachable_hop _ _ _ 0 "A" "B").
      * apply reachable_start; [by left|]. vm_compute. eauto.
      * apply Hexp. by left.
      * apply (Hhop "A" "B" 0.9%float); vm_compute; reflexivity.
    + apply Hexp. right. by left.
    + apply (Hhop "B" "C" 0.8%float); vm_compute; reflexivity.
  - done.
  - vm_compute. reflexivity.
  - by left.
  - by exists result, path.
Defined.

(** A node is added, an edge upserted, a batch of nodes deleted. *)
Lemma methods_keep_keys_witness :
  memory.nodes
    (foldl applyOp (memory.NewKnowledgeGraph "g")
       [OpAddNode (example_graph.node "A");
        OpUpsertEdge (example_graph.edge "A" "B" "relates_to" 1);
        OpDeleteNodeBatch ["B"]]) !! "A" =
    Some (example_graph.node "A") ∧
  graph.Node.ID (example_graph.node "A") = "A".
Proof.
  split; [vm_compute; reflexivity|].
  apply (proj1 (methods_keep_keys "g"
                  [OpAddNode (example_graph.node "A");
                   OpUpsertEdge (example_graph.edge "A" "B" "relates_to" 1);
                   OpDeleteNodeBatch ["B"]]) "A").
  vm_compute. reflexivity.
Defined.

(** The chain A -> B -> C from A, through the graph retriever. *)
Lemma graph_Retrieve_items_witness :
  ∃ res,
    value (graph.Retrieve forwardRuntime
             (example_graph.retriever example_graph.chain 2)
             (example_graph.from ["A"])) = Some (Some res, None) ∧
    Result.Query res = example_graph.from ["A"] ∧
    Forall (λ item,
      Provenance.Mode (ContextItem.Provenance item) = ModeGraph)
      (Result.Items res).
Proof.
  set (res := example_pipeline.resultOf
                (graph.Retrieve forwardRuntime
                   (example_graph.retriever example_graph.chain 2)
                   (example_graph.from ["A"]))).
  assert (value (graph.Retrieve forwardRuntime
                   (example_graph.retriever example_graph.chain 2)
                   (example_graph.from ["A"])) = Some (Some res, None))
    as Hres by (vm_compute; reflexivity).
  exists res. split; [done|].
  destruct (graph_Retrieve_items _ _ _ _ Hres) as (Hq & _ & _ & Hitems).
  split; [done|].
  eapply Forall_impl; [exact Hitems|]. by intros item [? _].
Defined.

(** The nodes of the chain A -> B -> C, and a node D added to it. *)
Lemma FindNodes_round_trip_witness :
  Z.of_nat
    (length (memory.FindNodes forwardRuntime example_graph.chain "" ∅).1) =
    3 ∧
  example_graph.node "D" ∈
    (memory.FindNodes backwardRuntime
       (memory.AddNode example_graph.chain (example_graph.node "D"))
       "concept" ∅).1 ∧
  NoDup (graph.Node.ID <$>
           (memory.FindNodes forwardRuntime example_graph.chain "concept"
              ∅).1) ∧
  Forall (λ node, graph.Node.ID node ≠ "B")
    (memory.FindNodes forwardRuntime
       (memory.DeleteNode example_graph.chain "B") "concept" ∅).1.
Proof.
  split_and!.
  - rewrite (proj1 (proj2 (proj2 (FindNodes_round_trip forwardRuntime
                                    example_graph.chain "" ∅)))).
    vm_compute. reflexivity.
  - apply (proj1 (proj2 (proj2 (proj2
             (FindNodes_round_trip backwardRuntime example_graph.chain
                "concept" ∅))))).
    + by right.
    + vm_compute. reflexivity.
  - apply (proj2 (proj2 (proj2 (proj2
             (FindNodes_round_trip forwardRuntime example_graph.chain
                "concept" ∅))))).
    apply example_graph.build_wellKeyed.
  - apply (proj2 (proj2 (proj2 (proj2
             (FindNodes_round_trip forwardRuntime example_graph.chain
                "concept" ∅))))).
    apply example_graph.build_wellKeyed.
Defined.

(** A graph whose [FindNodes] and [Traverse] fail, without and with a
    hint; and a graph whose [FindNodes] answers and whose [Traverse]
    fails, without a hint. *)
Lemma graph_Retrieve_errors_witness :
  graph.Retrieve forwardRuntime example_pipeline.brokenRetriever
    (example_graph.from []) = ret (None, Some "find failed") ∧
  graph.Retrieve forwardRuntime example_pipeline.brokenRetriever
    (example_graph.from ["A"]) = ret (None, Some "traverse failed") ∧
  graph.Retrieve forwardRuntime example_pipeline.findingRetriever
    (example_graph.from []) = ret (None, Some "traverse failed").
Proof.
  split_and!.
  - by apply (proj1 (graph_Retrieve_errors forwardRuntime
                       example_pipeline.brokenRetriever
                       (example_graph.from [])) []).
  - apply (proj1 (proj2 (graph_Retrieve_errors forwardRuntime
                           example_pipeline.brokenRetriever
                           (example_graph.from ["A"]))) ["A"]); [|done].
    by left.
  - apply (proj1 (proj2 (graph_Retrieve_errors forwardRuntime
                           example_pipeline.findingRetriever
                           (example_graph.from []))) ["A"]); [|done].
    right. split; [done|]. by exists [example_graph.node "A"].
Defined.

(** The chain A -> B -> C from A with depth 2. *)
Lemma graph_Retrieve_in_memory_items_witness :
  wellKeyed example_graph.chain ∧
  ∃ res,
    value (graph.Retrieve forwardRuntime
             (inMemoryRetriever forwardRuntime example_graph.chain 2 10 []
                false)
             (example_graph.from ["A"])) = Some (Some res, None) ∧
    NoDup (ContextItem.ID <$> Result.Items res) ∧
    Forall (λ item,
      head (Provenance.GraphPath (ContextItem.Provenance item)) =
        Some "A" ∧
      Z.of_nat (length (Provenance.GraphPath
                          (ContextItem.Provenance item))) ≤ 3)
      (Result.Items res).
Proof.
  split; [apply example_graph.build_wellKeyed|].
  destruct (graph_Retrieve_in_memory_items forwardRuntime forwardRuntime
              example_graph.chain 2 10 [] false (example_graph.from ["A"])
              (example_graph.build_wellKeyed _ _))
    as (res & Hres & Hnd & Hitems).
  exists res. split_and!; [done..|].
  eapply Forall_impl; [exact Hitems|].
  intros item (_ & (start & Hhead & Hstart) & _ & _ & Hlen).
  split; [|exact Hlen].
  destruct Hstart as [Hstart|[Hhints _]]; [|done].
  apply list_elem_of_singleton in Hstart. by rewrite Hhead, Hstart.
Defined.

(** Two items with the identifiers x and y. *)
Lemma deduplicate_fixed_points_witness :
  hybrid.deduplicate example.graphItems = Some example.graphItems.
Proof.
  apply (proj1 deduplicate_fixed_points). by_decision.
Defined.

(** The fusion example under the GraphThenVector policy. *)
Lemma Retrieve_graph_then_vector_witness :
  retrieverCalls
    (hybrid.Retrieve forwardRuntime
       (example.both hybrid.PolicyGraphThenVector) (example.query 0)) =
  [CallGraph (example.query 0); CallVector (example.query 0)].
Proof.
  pose proof (Retrieve_graph_then_vector forwardRuntime
                (example.both hybrid.PolicyGraphThenVector)
                (example.query 0) example.vectorRetriever
                example.graphRetriever eq_refl eq_refl eq_refl) as H.
  simpl in H. apply H.
Defined.

(** The fusion example with a reranker that reverses the list. *)
Lemma Retrieve_with_reranker_witness :
  ∃ res t,
    hybrid.Retrieve forwardRuntime
      (withoutReranker example_pipeline.reranking) (example.query 0) =
      (Some (Some res, None), t) ∧
    hybrid.Retrieve forwardRuntime example_pipeline.reranking
      (example.query 0) =
      (Some (Some (Result.mk (reverse (Result.Items res)) (example.query 0)
                     (Result.Metadata res)), None),
       t ++ [CallRerank (example.query 0) (Result.Items res);
             CallOnRerank "hybrid" 2 2 0]).
Proof.
  set (run := hybrid.Retrieve forwardRuntime
                (withoutReranker example_pipeline.reranking)
                (example.query 0)).
  assert (run = (Some (Some (example_pipeline.resultOf run), None),
                 calls run)) as Hrun by (vm_compute; reflexivity).
  exists (example_pipeline.resultOf run), (calls run).
  split; [done|].
  pose proof (Retrieve_with_reranker forwardRuntime
                example_pipeline.reranking (example.query 0)
                example_pipeline.reverseReranker eq_refl) as H.
  fold run in H. rewrite Hrun in H. apply H.
Defined.

(** The fusion example under the parallel policy. *)
Lemma Retrieve_success_all_answered_witness :
  Forall (answered (example.both hybrid.PolicyParallel))
    (calls (hybrid.Retrieve forwardRuntime
              (example.both hybrid.PolicyParallel) (example.query 0))).
Proof.
  apply (proj1 (Retrieve_success_all_answered forwardRuntime
                  (example.both hybrid.PolicyParallel) (example.query 0))
           (example_pipeline.resultOf
              (hybrid.Retrieve forwardRuntime
                 (example.both hybrid.PolicyParallel) (example.query 0)))).
  vm_compute. reflexivity.
Defined.

(** The two nodes nearest to the embedding (1, 0). *)
Lemma vector_Retrieve_items_witness :
  ∃ res results,
    (vector.Retrieve forwardRuntime example_index.retriever
       (example_index.query [1%float; 0%float] 2)).1 =
      Some (Some res, None) ∧
    memory_vector.Search forwardRuntime example_index.index
      [1%float; 0%float] 2 ∅ = Some (results, None) ∧
    Result.Query res = example_index.query [1%float; 0%float] 2 ∧
    ResultMetadata.TotalCandidates (Result.Metadata res) =
      Z.of_nat (length results) ∧
    ContextItem.ID <$> Result.Items res =
      (λ sr, vector.Node.ID (vector.SearchResult.Node sr)) <$>
        filter (λ sr, (vector.SearchResult.Score sr <? 0)%float = false)
          results.
Proof.
  set (run := vector.Retrieve forwardRuntime example_index.retriever
                (example_index.query [1%float; 0%float] 2)).
  set (res := match run.1 with
              | Some (Some res, _) => res
              | _ => example_pipeline.resultOf (None, [])
              end).
  assert (run.1 = Some (Some res, None)) as Hres
    by (vm_compute; reflexivity).
  destruct (vector_Retrieve_items _ _ _ _ Hres)
    as (embedding & results & Hembedding & Hsearch & Hq & _ & Htotal &
        Hitems & _).
  unfold embeddingUsed in Hembedding. simpl in Hembedding.
  subst embedding.
  exists res, results. split_and!; [done|exact Hsearch|done..|].
  rewrite Hitems, <-list_fmap_compose. done.
Defined.

(** A query without embedding and an embedder that fails; an index that
    fails, searched with the embedder's answer, with the embedding of
    the query and, without an embedder, with no embedding. *)
Lemma vector_Retrieve_errors_witness :
  vector.Retrieve forwardRuntime
    (vector.NewRetriever
       (vector.RetrieverConfig.mk
          (memory_vector.asIndex forwardRuntime example_index.index)
          (Some example_index.failingEmbedder) 0 0 true))
    (example_index.query [] 0) = (Some (None, Some "no model"), []) ∧
  vector.Retrieve forwardRuntime
    (example_index.failing (Some example_index.constantEmbedder))
    (example_index.query [] 0) = (Some (None, Some "index down"), []) ∧
  vector.Retrieve forwardRuntime
    (example_index.failing (Some example_index.failingEmbedder))
    (example_index.query [0%float; 1%float] 0) =
    (Some (None, Some "index down"), []) ∧
  vector.Retrieve forwardRuntime (example_index.failing None)
    (example_index.query [] 0) = (Some (None, Some "index down"), []).
Proof.
  split_and!.
  - by apply (proj1 (vector_Retrieve_errors forwardRuntime _
                       (example_index.query [] 0))
                example_index.failingEmbedder []).
  - by apply (proj1 (proj2 (vector_Retrieve_errors forwardRuntime _
                              (example_index.query [] 0)))
                [1%float; 0%float] []).
  - by apply (proj1 (proj2 (vector_Retrieve_errors forwardRuntime _
                              (example_index.query [0%float; 1%float] 0)))
                [0%float; 1%float] []).
  - by apply (proj1 (proj2 (vector_Retrieve_errors forwardRuntime _
                              (example_index.query [] 0))) [] []).
Defined.

(** One result too few. *)
Lemma Search_negative_k_panics_witness :
  memory_vector.Search forwardRuntime example_index.index
    [1%float; 0%float] (-1) ∅ = None ∧
  vector.Retrieve forwardRuntime example_index.retriever
    (example_index.query [1%float; 0%float] (-1)) = (None, []).
Proof.
  destruct (Search_negative_k_panics forwardRuntime example_index.index
              [1%float; 0%float] (-1) ∅) as [Hsearch Hretrieve].
  split; [by apply Hsearch|]. by apply Hretrieve.
Defined.

(** The two nearest of three nodes. *)
Lemma Search_top_k_witness :
  ∃ results (omitted : list vector.SearchResult.t),
    memory_vector.Search forwardRuntime example_index.index
      [1%float; 0%float] 2 ∅ = Some (results, None) ∧
    Z.of_nat (length results) = 2 ∧
    length omitted = 1%nat.
Proof.
  destruct (Search_top_k forwardRuntime example_index.index
              [1%float; 0%float] 2 ∅) as (results & omitted & Hsearch &
    Hperm & Hlen & _); [done|].
  exists results, omitted. split; [done|].
  assert (Z.of_nat (length results) = 2) as Hresults.
  { rewrite Hlen. vm_compute. reflexivity. }
  split; [done|].
  apply Permutation_length in Hperm. rewrite length_app in Hperm.
  assert (length (matchesOf example_index.index [1%float; 0%float] ∅) =
          3%nat) as Hall by (vm_compute; reflexivity).
  lia.
Defined.

(** A fourth node is inserted and found. *)
Lemma Search_after_Insert_and_Delete_witness :
  ∃ results,
    memory_vector.Search forwardRuntime
      (memory_vector.Insert example_index.index
         (example_index.node "d" [1%float; 0%float]))
      [1%float; 0%float] 10 ∅ = Some (results, None) ∧
    vector.SearchResult.mk (example_index.node "d" [1%float; 0%float]) 1 ∈
      results.
Proof.
  destruct (proj1 (Search_after_Insert_and_Delete forwardRuntime
                     example_index.index [1%float; 0%float] 10 ∅)
              (example_index.node "d" [1%float; 0%float]))
    as (results & Hsearch & Hin).
  - vm_compute. by intros [=].
  - vm_compute. reflexivity.
  - exists results. split; [done|].
    assert (memory_vector.cosineSimilarity [1%float; 0%float]
              [1%float; 0%float] = 1%float) as Hcos
      by (vm_compute; reflexivity).
    simpl in Hin. by rewrite Hcos in Hin.
Defined.

(** Two items, scored 0.2 and 0.9, with a threshold of 0.5. *)
Lemma CrossEncoder_Rerank_spec_witness :
  ∃ out,
    rerank.CrossEncoder_Rerank forwardRuntime example_pipeline.crossEncoder
      (example.query 0) example.graphItems = (out, None) ∧
    Forall (λ o, (0.5 <=? ContextItem.Score o)%float = true) out ∧
    Z.of_nat (length out) ≤ 1.
Proof.
  destruct (proj2 (proj2 (CrossEncoder_Rerank_spec forwardRuntime
                            example_pipeline.crossEncoder (example.query 0)
                            example.graphItems)))
    as (out & Hout & Hitems & _ & Htop & _); [done..|].
  exists out. split_and!; [done| |by apply Htop].
  eapply Forall_impl; [exact Hitems|]. by intros o [_ ?].
Defined.
End instances.
